(** * Collaborate: the synchronisation engine of the collaborative editor

    A shallow embedding of [packages/collaborate/src/collaborate.ts]:
    the pending-action queue and its batching flush, the echo guard of
    the remote replay, the cursor-history bookkeeping around the undo
    manager, the selection shifts of the remote replay, and the
    conversion of document subtrees between their local and their
    shared representation.

    Collaborators that live outside the file (the shared document, the
    local slot model, the selection, the scheduler, the registry) are
    modelled by the effect the engine relies on; each such definition
    says so. *)

From Stdlib Require Import ZArith Lia Bool Ascii.
From stdpp Require Import base option list gmap strings.

Open Scope Z_scope.

(* ===================================================================== *)
(** * Part I. Definitions                                                 *)
(* ===================================================================== *)

(** ** 1. Transaction origins and the pending queue *)

(** A transaction's [origin] as the engine tells origins apart:
    [this.yDoc] for its own recorded writes, [this.manager] for a replay
    of the undo manager, [this.noRecord] for its own unrecorded writes,
    anything else for a remote peer. *)
Inductive Origin : Type :=
  | OriginYDoc
  | OriginManager
  | OriginNoRecord
  | OriginRemote (peer : nat).

Global Instance Origin_eq_dec : EqDecision Origin.
Proof. solve_decision. Defined.

(** [enum ChangeOrigin] of the core package. *)
Inductive ChangeOrigin : Type := ChangeHistory | ChangeLocal | ChangeRemote.

Global Instance ChangeOrigin_eq_dec : EqDecision ChangeOrigin.
Proof. solve_decision. Defined.

Section Queue.
(** The closures of the queue ([() => void]) are opaque here. *)
Context {A : Type}.

(** [interface UpdateItem { record: boolean; action(): void }] *)
Record UpdateItem : Type := mkUpdateItem {
  record : bool;
  action : A
}.

(** [interface Update { record: boolean; actions: Array<() => void> }] *)
Record Update : Type := mkUpdate {
  update_record : bool;
  update_actions : list A
}.

(** One turn of [for (const item of this.updateRemoteActions)].  The
    variable [update] aliases the last element of [updates]: the state
    is the updates closed so far and the one still being filled. *)
Definition group_step (st : list Update * option Update) (item : UpdateItem)
  : list Update * option Update :=
  let '(closed, update) := st in
  let u := match update with
           | Some u => u
           | None => mkUpdate (record item) []
           end in
  if Bool.eqb (update_record u) (record item)
  then (closed, Some (mkUpdate (update_record u) (update_actions u ++ [action item])))
  else (closed ++ [u], Some (mkUpdate (record item) [action item])).

Definition group_updates (queue : list UpdateItem) : list Update :=
  let '(closed, update) := foldl group_step ([], None) queue in
  closed ++ match update with Some u => [u] | None => [] end.

(** What the flush does to the outside, in order. *)
Inductive Effect : Type :=
  | Transact (origin : Origin) (actions : list A)
  | LocalChangesApplied.

(** [item.record ? this.yDoc : this.noRecord] *)
Definition update_origin (u : Update) : Origin :=
  if update_record u then OriginYDoc else OriginNoRecord.

(** The subscriber of [scheduler.onDocChanged]: group the queue, empty
    it, run one [yDoc.transact] per group, then fire
    [localChangesAppliedEvent].  Returns the new queue and the effects. *)
Definition flush (queue : list UpdateItem) : list UpdateItem * list Effect :=
  let updates := group_updates queue in
  ([], map (fun u => Transact (update_origin u) (update_actions u)) updates
       ++ [LocalChangesApplied]).

(** The pipe in front of the subscriber: the changes of the batch
    that are not remote ([i.from !== ChangeOrigin.Remote]) are kept,
    and a batch without any is dropped. *)
Definition onDocChanged (changes : list ChangeOrigin) (queue : list UpdateItem)
  : list UpdateItem * list Effect :=
  let local_changes := filter (fun from => from <> ChangeRemote) changes in
  if (length local_changes =? 0)%nat then (queue, []) else flush queue.

(** The grouping as the specification words it: the maximal runs of
    consecutive items with the same record flag. *)
Fixpoint maximal_runs (queue : list UpdateItem) : list (list UpdateItem) :=
  match queue with
  | [] => []
  | x :: rest =>
      match maximal_runs rest with
      | (y :: run) :: runs =>
          if Bool.eqb (record x) (record y)
          then (x :: y :: run) :: runs
          else [x] :: (y :: run) :: runs
      | _ => [[x]]
      end
  end.

Definition run_record (run : list UpdateItem) : bool :=
  match run with
  | x :: _ => record x
  | [] => true
  end.

Definition run_transaction (run : list UpdateItem) : Effect :=
  Transact (if run_record run then OriginYDoc else OriginNoRecord)
           (map action run).

(** Adjacent runs differ in their flag: no run can be extended. *)
Fixpoint runs_alternate (runs : list (list UpdateItem)) : Prop :=
  match runs with
  | r1 :: ((r2 :: _) as rest) => run_record r1 <> run_record r2 /\ runs_alternate rest
  | _ => True
  end.

(** The update a run becomes. *)
Definition run_update (run : list UpdateItem) : Update :=
  mkUpdate (run_record run) (map action run).

(** Putting one more update in front of a grouped list. *)
Definition merge_front (u : Update) (us : list Update) : list Update :=
  match us with
  | v :: vs =>
      if Bool.eqb (update_record u) (update_record v)
      then mkUpdate (update_record u) (update_actions u ++ update_actions v) :: vs
      else u :: v :: vs
  | [] => [u]
  end.

(** ** 2. The engine's replay guard *)

(** The scheduler's scoped helpers tag what runs inside them. *)
Inductive Mode : Type := Idle | ApplyingRemote | ApplyingHistory.

(** The part of the world the two guards touch.  [L] is the local
    document together with its selection; the closures handed to the
    guards are arbitrary functions of the world. *)
Context {L : Type}.

Record World : Type := mkWorld {
  updateFromRemote : bool;
  updateRemoteActions : list UpdateItem;
  mode : Mode;
  modes_entered : list Mode;
  localDoc : L
}.

Definition set_updateFromRemote (b : bool) (w : World) : World :=
  mkWorld b (updateRemoteActions w) (mode w) (modes_entered w) (localDoc w).

Definition set_localDoc (d : L) (w : World) : World :=
  mkWorld (updateFromRemote w) (updateRemoteActions w) (mode w) (modes_entered w) d.

(** [private runLocalUpdate(fn: () => void, record = true)] *)
Definition runLocalUpdate (fn : A) (record : bool) (w : World) : World :=
  if updateFromRemote w then w
  else mkWorld (updateFromRemote w)
               (updateRemoteActions w ++ [mkUpdateItem record fn])
               (mode w) (modes_entered w) (localDoc w).

(** Every call site of the file leaves [record] at its default. *)
Definition runLocalUpdate_default (fn : A) (w : World) : World :=
  runLocalUpdate fn true w.

(** A closure ([() => void]) runs to its end or throws; either way
    it leaves a world behind. *)
Inductive Outcome : Type := Returned | Thrown.

(** Modelled from the spec: the scheduler's [historyApplyTransact] and
    [remoteUpdateTransact] are not in this file; the spec has them as
    "scoped-execution helpers for tagging history-replay vs
    remote-replay execution": the task runs under the tag, and when
    it returns the previous tag comes back.  An exception of the task
    is not caught: it passes through the helper, which does nothing
    more. *)
Definition scoped (m : Mode) (task : World -> World * Outcome) (w : World)
  : World * Outcome :=
  let r := task (mkWorld (updateFromRemote w) (updateRemoteActions w) m
                         (modes_entered w ++ [m]) (localDoc w)) in
  match snd r with
  | Returned =>
      (mkWorld (updateFromRemote (fst r)) (updateRemoteActions (fst r)) (mode w)
               (modes_entered (fst r)) (localDoc (fst r)), Returned)
  | Thrown => (fst r, Thrown)
  end.

Definition historyApplyTransact := scoped ApplyingHistory.
Definition remoteUpdateTransact := scoped ApplyingRemote.

(** [private runRemoteUpdate(tr: Transaction, fn: () => void)]; there
    is no [try] around the call of [fn]: when it throws, the last
    line is not reached and the exception goes on to the caller. *)
Definition runRemoteUpdate (origin : Origin) (fn : World -> World * Outcome) (w : World)
  : World * Outcome :=
  if decide (origin = OriginYDoc) then (w, Returned)
  else
    let w1 := set_updateFromRemote true w in
    let r := if decide (origin = OriginManager)
             then historyApplyTransact fn w1
             else remoteUpdateTransact fn w1 in
    match snd r with
    | Returned => (set_updateFromRemote false (fst r), Returned)
    | Thrown => (fst r, Thrown)
    end.

(** A local mutation made by a replay: the local model changes and its
    change stream calls the subscriber of [syncSlot], [syncArray] or
    [syncObject], which hands its closure to [runLocalUpdate]. *)
Definition local_mutation (change : L -> L) (fn : A) (w : World) : World :=
  runLocalUpdate_default fn (set_localDoc (change (localDoc w)) w).

Definition replay_of (mutations : list ((L -> L) * A)) (w : World) : World :=
  foldl (fun w m => local_mutation (fst m) (snd m) w) w mutations.

(** A replay closure: the local mutations it makes, and how it ends. *)
Definition replay_then (outcome : Outcome) (mutations : list ((L -> L) * A))
    (w : World) : World * Outcome :=
  (replay_of mutations w, outcome).

(** Local edits, each handed to [runLocalUpdate] by its subscriber. *)
Definition local_edits (fns : list A) (w : World) : World :=
  foldl (fun w fn => runLocalUpdate_default fn w) w fns.
End Queue.

Arguments UpdateItem : clear implicits.
Arguments Update : clear implicits.
Arguments Effect : clear implicits.
Arguments World : clear implicits.


(** ** 3. The cursor history kept beside the undo manager *)

Inductive StackEventType : Type := EventUndo | EventRedo.

(** The fields of a ['stack-item-added'] event the handler reads. *)
Record StackEvent : Type := mkStackEvent {
  event_type : StackEventType;
  event_origin : Origin
}.

(** What the handlers tell their subscribers. *)
Inductive Notification : Type := PushEvent | ChangeEvent.

Section History.
(** [P] stands for [CursorPosition], [S] for the undo manager's stack
    items. *)
Context {P S : Type}.

(** [interface CollaborateHistorySelectionPosition] *)
Record HistoryPosition : Type := mkHistoryPosition {
  before : option P;
  after : option P
}.

(** [historyItems] is a JavaScript array: growing it through [length]
    leaves holes, which read as [undefined]; [None] is a hole. *)
Record History : Type := mkHistory {
  historyItems : list (option HistoryPosition);
  index : Z;
  undoStack : list S;
  redoStack : list S
}.

(** [array.length = n]: cuts the array or pads it with holes; a
    negative [n] throws a [RangeError]. *)
Definition set_length {X : Type} (n : Z) (l : list (option X)) : option (list (option X)) :=
  if n <? 0 then None
  else Some (take (Z.to_nat n) l ++ replicate (Z.to_nat n - length l) None).

(** [array.shift()] *)
Definition shift {X : Type} (l : list X) : list X := tail l.

(** [if (manager.undoStack.length > this.stackSize) { ... }] *)
Definition evict_oldest (stackSize : Z) (h : History) : History :=
  if Z.of_nat (length (undoStack h)) >? stackSize
  then mkHistory (shift (historyItems h)) (index h) (shift (undoStack h)) (redoStack h)
  else h.

(** The handler of ['stack-item-added'].  [beforePosition] is the
    snapshot taken by the [onLocalChangeBefore] subscriber, [cursor]
    what [getRelativeCursorLocation()] returns now; [None] is the
    uncaught [RangeError]. *)
Definition on_stack_item_added (stackSize : Z) (beforePosition cursor : option P)
    (event : StackEvent) (h : History) : option (History * list Notification) :=
  h1 ← match event_type event with
       | EventUndo =>
           if decide (event_origin event = OriginManager)
           then Some (mkHistory (historyItems h) (index h + 1) (undoStack h) (redoStack h))
           else
             items ← set_length (index h) (historyItems h);
             Some (mkHistory (items ++ [Some (mkHistoryPosition beforePosition cursor)])
                             (index h + 1) (undoStack h) (redoStack h))
       | EventRedo =>
           Some (mkHistory (historyItems h) (index h - 1) (undoStack h) (redoStack h))
       end;
  let h2 := evict_oldest stackSize h1 in
  Some (h2, (if decide (event_origin event = OriginYDoc) then [PushEvent] else [])
            ++ [ChangeEvent]).

(** Modelled from the spec: the undo manager is not in this file; the
    spec has a "new undoable entry" as a "native stack-push, undo
    direction".  A tracked local transaction that opens a new stack
    item puts it on top of the undo stack, empties the redo stack,
    and emits ['stack-item-added'] with type ['undo'] and the
    transaction's origin. *)
Definition undoable_edit (stackSize : Z) (edit : S * option P * option P) (h : History)
  : option (History * list Notification) :=
  let '(item, beforePosition, cursor) := edit in
  on_stack_item_added stackSize beforePosition cursor
    (mkStackEvent EventUndo OriginYDoc)
    (mkHistory (historyItems h) (index h) (undoStack h ++ [item]) []).

Fixpoint undoable_edits (stackSize : Z) (edits : list (S * option P * option P))
    (h : History) : option History :=
  match edits with
  | [] => Some h
  | e :: rest =>
      r ← undoable_edit stackSize e h;
      undoable_edits stackSize rest (fst r)
  end.

(** [clear()]; [array.pop()] of an empty array or of a hole is
    [undefined], and a stored position is an object, hence truthy. *)
Definition clear (h : History) : History * list Notification :=
  match last (historyItems h) with
  | Some (Some pos) => (mkHistory [Some pos] 1 [] [], [ChangeEvent])
  | _ => (mkHistory [] 0 [] [], [ChangeEvent])
  end.

(** [destroy()] *)
Definition destroy (h : History) : History :=
  mkHistory [] 0 (undoStack h) (redoStack h).

Definition initial_history : History := mkHistory [] 0 [] [].

(** The states the history can be in: the undo manager may have
    changed its two stacks in any way before it emits an event. *)
Inductive reachable (stackSize : Z) : History -> Prop :=
  | reachable_initial : reachable stackSize initial_history
  | reachable_added h h' undo redo beforePosition cursor event notes :
      reachable stackSize h ->
      on_stack_item_added stackSize beforePosition cursor event
        (mkHistory (historyItems h) (index h) undo redo) = Some (h', notes) ->
      reachable stackSize h'
  | reachable_clear h :
      reachable stackSize h -> reachable stackSize (fst (clear h))
  | reachable_destroy h :
      reachable stackSize h -> reachable stackSize (destroy h).

(** The last cell of the array is never a hole. *)
Definition last_is_entry (items : list (option HistoryPosition)) : Prop :=
  last items <> Some None.
End History.

Arguments HistoryPosition : clear implicits.
Arguments History : clear implicits.

(** ** 4. Values, formats and the registry *)

(** [enum ContentType] of the core package. *)
Inductive ContentType : Type := Text | InlineComponent | BlockComponent.

Global Instance ContentType_eq_dec : EqDecision ContentType.
Proof. solve_decision. Defined.

(** The plain data the models carry: format values, attribute values,
    scalar fields of a component's state, and the array of content
    types kept under ['__schema__']. *)
Inductive Value : Type :=
  | VNull
  | VBool (b : bool)
  | VNumber (n : Z)
  | VString (s : string)
  | VContentTypes (types : list ContentType).

Global Instance Value_eq_dec : EqDecision Value.
Proof. solve_decision. Defined.

(** A formatter and an attribute are objects of the editor, found in
    the registry under their [name]. *)
Record Formatter : Type := mkFormatter {
  formatter_name : string;
  formatter_config : nat
}.

Record Attribute : Type := mkAttribute {
  attribute_name : string;
  attribute_config : nat
}.

Global Instance Formatter_eq_dec : EqDecision Formatter.
Proof. solve_decision. Defined.

Global Instance Attribute_eq_dec : EqDecision Attribute.
Proof. solve_decision. Defined.

(** [type Formats = [Formatter, FormatValue][]] *)
Definition Formats : Type := list (Formatter * Value).

(** Modelled from the spec: the registry is not in this file; the spec
    has it as the collaborator that "resolves a formatting attribute by
    name" and "a component factory by name".  Of a registered component
    class only its content type is kept. *)
Record Registry : Type := mkRegistry {
  getFormatter : string -> option Formatter;
  getAttribute : string -> option Attribute;
  getComponent : string -> option ContentType
}.

(** What goes wrong while a local subtree is built. *)
Inductive CollaborateError : Type :=
  | UnexpectedDeltaAction
  | CannotFindComponentFactory (name : option string)
  | TypeError.

Inductive Result (A : Type) : Type :=
  | Ok (a : A)
  | Throw (e : CollaborateError).

Arguments Ok {A} a.
Arguments Throw {A} e.

Global Instance Result_ret : MRet Result := fun A a => Ok a.
Global Instance Result_bind : MBind Result := fun A B f r =>
  match r with
  | Ok a => f a
  | Throw e => Throw e
  end.
Global Instance Result_fmap : FMap Result := fun A B f r =>
  match r with
  | Ok a => Ok (f a)
  | Throw e => Throw e
  end.

(** ** 5. Runs of content *)

(** The content of one delta entry: a string or one embedded value. *)
Inductive Insert (E : Type) : Type :=
  | InsertText (text : string)
  | InsertEmbed (embed : E).

Arguments InsertText {E} text.
Arguments InsertEmbed {E} embed.

(** [i.insert.length]: a component has length 1. *)
Definition insert_length {E : Type} (i : Insert E) : nat :=
  match i with
  | InsertText text => String.length text
  | InsertEmbed _ => 1
  end.

Fixpoint string_take (n : nat) (s : string) : string :=
  match n, s with
  | S n', String c s' => String c (string_take n' s')
  | _, _ => EmptyString
  end.

Fixpoint string_drop (n : nat) (s : string) : string :=
  match n, s with
  | S n', String _ s' => string_drop n' s'
  | _, _ => s
  end.

Definition insert_take {E : Type} (n : nat) (i : Insert E) : Insert E :=
  match i with
  | InsertText text => InsertText (string_take n text)
  | InsertEmbed e => InsertEmbed e
  end.

Definition insert_drop {E : Type} (n : nat) (i : Insert E) : Insert E :=
  match i with
  | InsertText text => InsertText (string_drop n text)
  | InsertEmbed e => InsertEmbed e
  end.

(** What a sequence of runs needs to be cut at an offset. *)
Class Run (R : Type) : Type := {
  run_length : R -> nat;
  run_take : nat -> R -> R;
  run_drop : nat -> R -> R
}.

Section Runs.
Context {R : Type} `{Run R}.

Definition total_length (runs : list R) : nat :=
  foldr (fun r n => (run_length r + n)%nat) 0%nat runs.

(** The runs before and from [offset]; a run that straddles the
    offset is cut in two; an offset past the end gives everything. *)
Fixpoint split_at (offset : nat) (runs : list R) {struct runs} : list R * list R :=
  match runs with
  | [] => ([], [])
  | r :: rest =>
      if (offset =? 0)%nat then ([], runs)
      else if (run_length r <=? offset)%nat
      then let '(before, behind) := split_at (offset - run_length r) rest in
           (r :: before, behind)
      else ([run_take offset r], run_drop offset r :: rest)
  end.

Definition runs_insert (offset : nat) (r : R) (runs : list R) : list R :=
  let '(before, behind) := split_at offset runs in
  before ++ [r] ++ behind.

Definition runs_delete (offset count : nat) (runs : list R) : list R :=
  let '(before, behind) := split_at offset runs in
  before ++ snd (split_at count behind).

Definition runs_update (offset count : nat) (f : R -> R) (runs : list R) : list R :=
  let '(before, behind) := split_at offset runs in
  let '(inside, beyond) := split_at count behind in
  before ++ map f inside ++ beyond.
End Runs.

(** Cutting a run inside keeps its units. *)
Class RunLaws (R : Type) `{Run R} : Prop := {
  run_take_length : forall n r,
    (0 < n)%nat -> (n < run_length r)%nat -> run_length (run_take n r) = n;
  run_drop_length : forall n r,
    (0 < n)%nat -> (n < run_length r)%nat ->
    run_length (run_drop n r) = (run_length r - n)%nat
}.

(** ** 6. Maps in insertion order *)

(** A JavaScript [Map] (and with it [MapModel] and a shared map) keeps
    its keys in the order they were first set. *)
Section OrderedMap.
Context {K V : Type} `{EqDecision K}.

Fixpoint map_set (k : K) (v : V) (m : list (K * V)) : list (K * V) :=
  match m with
  | [] => [(k, v)]
  | (k', v') :: m' =>
      if decide (k = k') then (k, v) :: m' else (k', v') :: map_set k v m'
  end.

Fixpoint map_get (k : K) (m : list (K * V)) : option V :=
  match m with
  | [] => None
  | (k', v') :: m' => if decide (k = k') then Some v' else map_get k m'
  end.

Definition map_remove (k : K) (m : list (K * V)) : list (K * V) :=
  filter (fun kv => fst kv <> k) m.

(** [get] followed by a use of the value. *)
Fixpoint map_get_with {X : Type} (f : V -> X) (k : K) (m : list (K * V)) : option X :=
  match m with
  | [] => None
  | (k', v') :: m' => if decide (k = k') then Some (f v') else map_get_with f k m'
  end.
End OrderedMap.

(** ** 7. The local document model *)

(** The local values a component's state is made of ([MapModel],
    [ArrayModel], [Slot], anything else), a slot and a component.  A
    slot is kept as [toDelta()] and [getAttributes()] show it: runs of
    content, each with its formats, and the slot's attributes in the
    order of its [Map]; [index] is its cursor. *)
Unset Elimination Schemes.
Inductive Local : Type :=
  | LScalar (v : Value)
  | LMap (entries : list (string * Local))
  | LArray (items : list Local)
  | LSlot (slot : Slot)
with Slot : Type :=
  | mkSlot (schema : list ContentType)
           (attributes : list (Attribute * Value))
           (content : list (Insert Component * Formats))
           (index : nat)
with Component : Type :=
  | mkComponent (name : string) (type : ContentType)
                (state : list (string * Local)).
Set Elimination Schemes.

Definition slot_schema (s : Slot) : list ContentType :=
  let '(mkSlot schema _ _ _) := s in schema.
Definition slot_attributes (s : Slot) : list (Attribute * Value) :=
  let '(mkSlot _ attributes _ _) := s in attributes.
Definition slot_content (s : Slot) : list (Insert Component * Formats) :=
  let '(mkSlot _ _ content _) := s in content.
Definition slot_index (s : Slot) : nat :=
  let '(mkSlot _ _ _ index) := s in index.

Definition component_name (c : Component) : string :=
  let '(mkComponent name _ _) := c in name.
Definition component_type (c : Component) : ContentType :=
  let '(mkComponent _ type _) := c in type.
Definition component_state (c : Component) : list (string * Local) :=
  let '(mkComponent _ _ state) := c in state.

Global Instance local_run : Run (Insert Component * Formats) := {|
  run_length r := insert_length (fst r);
  run_take n r := (insert_take n (fst r), snd r);
  run_drop n r := (insert_drop n (fst r), snd r)
|}.

Definition insert_type (i : Insert Component) : ContentType :=
  match i with
  | InsertText _ => Text
  | InsertEmbed c => component_type c
  end.

(** Modelled from the spec: the slot of the core package is not in this
    file; the spec has it as an "ordered sequence of content units
    (characters or embedded component references) with per-range
    formatting and slot-level attributes" that "exposes a cursor index"
    and carries "a schema descriptor (accepted content variants)". *)
Definition Slot_new (schema : list ContentType) : Slot := mkSlot schema [] [] 0.

Definition Slot_length (s : Slot) : nat := total_length (slot_content s).

(** [slot.retain(offset)]: the cursor goes to [offset], within the slot. *)
Definition Slot_retain (offset : nat) (s : Slot) : Slot :=
  mkSlot (slot_schema s) (slot_attributes s) (slot_content s)
         (Nat.min offset (Slot_length s)).

Definition apply_format (formats : Formats) (r : Insert Component * Formats)
  : Insert Component * Formats :=
  (fst r, foldl (fun acc item => map_set (fst item) (snd item) acc) (snd r) formats).

(** [slot.retain(count, formats)]: formats from the cursor on; the
    cursor stays. *)
Definition Slot_retain_formats (count : nat) (formats : Formats) (s : Slot) : Slot :=
  mkSlot (slot_schema s) (slot_attributes s)
         (runs_update (slot_index s) count (apply_format formats) (slot_content s))
         (slot_index s).

(** [slot.insert(content, formats)]: content of a type the schema does
    not accept, and an empty string, change nothing; otherwise the
    content goes in at the cursor, which ends behind it. *)
Definition Slot_insert (content : Insert Component) (formats : Formats) (s : Slot) : Slot :=
  if bool_decide (insert_type content ∈ slot_schema s) && negb (insert_length content =? 0)%nat
  then mkSlot (slot_schema s) (slot_attributes s)
              (runs_insert (slot_index s) (content, formats) (slot_content s))
              (slot_index s + insert_length content)
  else s.

(** [slot.delete(count)]: from the cursor on. *)
Definition Slot_delete (count : nat) (s : Slot) : Slot :=
  mkSlot (slot_schema s) (slot_attributes s)
         (runs_delete (slot_index s) count (slot_content s))
         (slot_index s).

Definition Slot_setAttribute (attribute : Attribute) (value : Value) (s : Slot) : Slot :=
  mkSlot (slot_schema s) (map_set attribute value (slot_attributes s))
         (slot_content s) (slot_index s).

Definition Slot_removeAttribute (attribute : Attribute) (s : Slot) : Slot :=
  mkSlot (slot_schema s) (map_remove attribute (slot_attributes s))
         (slot_content s) (slot_index s).

(** ** 8. The shared document model *)

(** One entry of a delta of the shared text, as [toDelta()] and a text
    event give it: [insert], [retain] or [delete], and [attributes]
    when there are any. *)
Inductive DeltaOp (E : Type) : Type :=
  | OpInsert (insert : Insert E) (attributes : option (gmap string Value))
  | OpRetain (retain : nat) (attributes : option (gmap string Value))
  | OpDelete (delete : nat).

Arguments OpInsert {E} insert attributes.
Arguments OpRetain {E} retain attributes.
Arguments OpDelete {E} delete.

(** The shared values: a shared map, array or text, or plain data.  A
    shared text is kept as [getAttributes()] and [toDelta()] show it;
    an entry that is not an insertion can only come from a document the
    engine did not write. *)
Unset Elimination Schemes.
Inductive Shared : Type :=
  | SScalar (v : Value)
  | SMap (entries : list (string * Shared))
  | SArray (items : list Shared)
  | SText (text : YText)
with YText : Type :=
  | mkYText (attributes : gmap string Value) (delta : list (DeltaOp Shared)).
Set Elimination Schemes.

Definition YText_getAttributes (y : YText) : gmap string Value :=
  let '(mkYText attributes _) := y in attributes.
Definition YText_toDelta (y : YText) : list (DeltaOp Shared) :=
  let '(mkYText _ delta) := y in delta.

Definition op_attributes {E : Type} (op : DeltaOp E) : option (gmap string Value) :=
  match op with
  | OpInsert _ attributes => attributes
  | OpRetain _ attributes => attributes
  | OpDelete _ => None
  end.

Global Instance shared_run {E : Type} : Run (DeltaOp E) := {|
  run_length op :=
    match op with
    | OpInsert i _ => insert_length i
    | _ => 0%nat
    end;
  run_take n op :=
    match op with
    | OpInsert i a => OpInsert (insert_take n i) a
    | _ => op
    end;
  run_drop n op :=
    match op with
    | OpInsert i a => OpInsert (insert_drop n i) a
    | _ => op
    end
|}.

(** Modelled from the spec: the shared text of the replicated-document
    provider is not in this file; the spec has it as "attributed text"
    whose merge algorithm is "assumed correct and supplied".  What the
    engine relies on: an attribute whose value is null is no attribute;
    an entry shows [attributes] only when it has some; text inserted
    without attributes takes those of what stands before it, an
    embedded value inserted without attributes has none; an insertion
    of nothing changes nothing.  Adjacent runs are kept as inserted. *)
Definition YText_new : YText := mkYText ∅ [].

Definition YText_length (y : YText) : nat := total_length (YText_toDelta y).

Definition shown_attributes (m : gmap string Value) : option (gmap string Value) :=
  let m' := filter (fun kv => snd kv <> VNull) m in
  if decide (m' = ∅) then None else Some m'.

Definition attributes_before (offset : nat) (delta : list (DeltaOp Shared))
  : option (gmap string Value) :=
  match last (fst (split_at offset delta)) with
  | Some op => op_attributes op
  | None => None
  end.

Definition YText_insert (offset : nat) (text : string)
    (attributes : option (gmap string Value)) (y : YText) : YText :=
  if (String.length text =? 0)%nat then y
  else
    let shown := match attributes with
                 | Some m => shown_attributes m
                 | None => attributes_before offset (YText_toDelta y)
                 end in
    mkYText (YText_getAttributes y)
            (runs_insert offset (OpInsert (InsertText text) shown) (YText_toDelta y)).

Definition YText_insertEmbed (offset : nat) (embed : Shared)
    (attributes : option (gmap string Value)) (y : YText) : YText :=
  mkYText (YText_getAttributes y)
          (runs_insert offset
             (OpInsert (InsertEmbed embed) (shown_attributes (default ∅ attributes)))
             (YText_toDelta y)).

Definition YText_delete (offset count : nat) (y : YText) : YText :=
  mkYText (YText_getAttributes y) (runs_delete offset count (YText_toDelta y)).

Definition op_format (formats : gmap string Value) (op : DeltaOp Shared) : DeltaOp Shared :=
  match op with
  | OpInsert i a => OpInsert i (shown_attributes (formats ∪ default ∅ a))
  | _ => op
  end.

Definition YText_format (offset count : nat) (formats : gmap string Value) (y : YText) : YText :=
  mkYText (YText_getAttributes y)
          (runs_update offset count (op_format formats) (YText_toDelta y)).

Definition YText_setAttribute (name : string) (value : Value) (y : YText) : YText :=
  mkYText (<[name := value]> (YText_getAttributes y)) (YText_toDelta y).

Definition YText_removeAttribute (name : string) (y : YText) : YText :=
  mkYText (base.delete name (YText_getAttributes y)) (YText_toDelta y).

Definition YText_getAttribute (name : string) (y : YText) : option Value :=
  YText_getAttributes y !! name.

(** What the test [if (action.insert)] makes of the content of a delta
    entry: [null], [false], [0] and the empty string are falsy, every
    object is truthy.  (To [typeof action.insert === 'string'] a string
    is a string whether the entry came from [insert] or from
    [insertEmbed].) *)
Definition value_truthy (v : Value) : bool :=
  match v with
  | VNull => false
  | VBool b => b
  | VNumber n => negb (n =? 0)
  | VString s => negb (String.length s =? 0)%nat
  | VContentTypes _ => true
  end.

Definition shared_truthy (v : Shared) : bool :=
  match v with
  | SScalar v => value_truthy v
  | _ => true
  end.

Definition insert_truthy (insert : Insert Shared) : bool :=
  match insert with
  | InsertText text => negb (String.length text =? 0)%nat
  | InsertEmbed embed => shared_truthy embed
  end.

(** ** 9. From the local model to the shared one *)

Section LocalToShared.
(** The two functions the helpers call back into. *)
Variable createSharedModelByLocalModel : Local -> Shared.
Variable createSharedComponentByLocalComponent : Component -> Shared.

(** [localMap.forEach((value, key) => sharedMap.set(key, ...))]; the
    [syncObject], [syncArray] and [syncSlot] calls only subscribe. *)
Definition syncLocalMapToSharedMap (localMap : list (string * Local))
    (sharedMap : list (string * Shared)) : list (string * Shared) :=
  foldl (fun shared kv => map_set (fst kv) (createSharedModelByLocalModel (snd kv)) shared)
        sharedMap localMap.

Definition createSharedMapByLocalMap (localMap : list (string * Local))
  : list (string * Shared) :=
  syncLocalMapToSharedMap localMap [].

(** [localArray.forEach(value => sharedArray.push([...]))] *)
Definition createSharedArrayByLocalArray (localArray : list Local) : list Shared :=
  foldl (fun shared value => shared ++ [createSharedModelByLocalModel value]) [] localArray.

(** [i.formats.forEach(item => { formats[item[0].name] = item[1] })] *)
Definition shared_formats (formats : Formats) : gmap string Value :=
  foldl (fun m item => <[formatter_name (fst item) := snd item]> m) ∅ formats.

(** One turn of [localSlot.toDelta().forEach(i => ...)]; [i.formats]
    is an array, which is truthy, so [formats] is never [null]. *)
Definition shared_slot_step (st : YText * nat) (i : Insert Component * Formats)
  : YText * nat :=
  let '(sharedSlot, offset) := st in
  let formats := Some (shared_formats (snd i)) in
  let sharedSlot' :=
    match fst i with
    | InsertText text => YText_insert offset text formats sharedSlot
    | InsertEmbed component =>
        let sharedComponent := createSharedComponentByLocalComponent component in
        YText_insertEmbed offset sharedComponent formats sharedSlot
    end in
  (sharedSlot', (offset + insert_length (fst i))%nat).
End LocalToShared.

Fixpoint createSharedModelByLocalModel (model : Local) : Shared :=
  match model with
  | LMap localMap =>
      SMap (createSharedMapByLocalMap createSharedModelByLocalModel localMap)
  | LArray localArray =>
      SArray (createSharedArrayByLocalArray createSharedModelByLocalModel localArray)
  | LSlot localSlot => SText (createSharedSlotByLocalSlot localSlot)
  | LScalar v => SScalar v
  end
with createSharedSlotByLocalSlot (localSlot : Slot) : YText :=
  match localSlot with
  | mkSlot schema attributes content _ =>
      let sharedSlot := YText_setAttribute "__schema__" (VContentTypes schema) YText_new in
      let sharedSlot :=
        fst (foldl (shared_slot_step createSharedComponentByLocalComponent)
                   (sharedSlot, 0%nat) content) in
      foldl (fun shared item =>
               YText_setAttribute (attribute_name (fst item)) (snd item) shared)
            sharedSlot attributes
  end
with createSharedComponentByLocalComponent (component : Component) : Shared :=
  match component with
  | mkComponent name _ state =>
      let sharedState :=
        SMap (createSharedMapByLocalMap createSharedModelByLocalModel state) in
      SMap (map_set "state" sharedState
              (map_set "name" (SScalar (VString name)) []))
  end.

(** ** 10. From the shared model to the local one *)

(** [function remoteFormatsToLocal(registry, attrs)]; [Object.keys]
    gives the keys in the order the shared text keeps them. *)
Definition remoteFormatsToLocal (registry : Registry)
    (attrs : option (gmap string Value)) : Formats :=
  match attrs with
  | Some m =>
      omap (fun kv => match getFormatter registry (fst kv) with
                      | Some formatter => Some (formatter, snd kv)
                      | None => None
                      end)
           (map_to_list m)
  | None => []
  end.

(** Modelled from the spec: [registry.createComponentByData] is not in
    this file; the spec: "reconstruction looks up a registered factory
    by [name]".  Without a factory the result is [null] and the state
    is not built. *)
Definition createComponentByData (registry : Registry) (name : option string)
    (stateFactory : unit -> Result (list (string * Local))) : Result (option Component) :=
  match name with
  | Some name =>
      match getComponent registry name with
      | Some type =>
          state ← stateFactory tt;
          Ok (Some (mkComponent name type state))
      | None => Ok None
      end
  | None => Ok None
  end.

(** [yMap.get('name') as string] *)
Definition as_string (v : option Shared) : option string :=
  match v with
  | Some (SScalar (VString s)) => Some s
  | _ => None
  end.

(** [sharedSlot.getAttribute('__schema__') || []] *)
Definition schema_or_empty (v : option Value) : list ContentType :=
  match v with
  | Some (VContentTypes types) => types
  | _ => []
  end.

Section SharedToLocal.
Variable registry : Registry.
Variable createLocalModelBySharedByModel : Shared -> Result Local.
Variable createLocalComponentBySharedComponent : Shared -> Result Component.

(** [sharedMap.forEach((value, key) => localMap.set(key, ...))] *)
Definition syncSharedMapToLocalMap (sharedMap : list (string * Shared))
    (localMap : list (string * Local)) : Result (list (string * Local)) :=
  foldl (fun acc kv =>
           localMap ← acc;
           value ← createLocalModelBySharedByModel (snd kv);
           Ok (map_set (fst kv) value localMap))
        (Ok localMap) sharedMap.

Definition createLocalMapBySharedMap (sharedMap : list (string * Shared))
  : Result (list (string * Local)) :=
  syncSharedMapToLocalMap sharedMap [].

(** [sharedArray.forEach(item => localArray.insert(...))] *)
Definition createLocalArrayBySharedArray (sharedArray : list Shared) : Result (list Local) :=
  foldl (fun acc item =>
           localArray ← acc;
           value ← createLocalModelBySharedByModel item;
           Ok (localArray ++ [value]))
        (Ok []) sharedArray.

(** [Object.keys(attrs).forEach(key => ...)] *)
Definition local_attribute_step (localSlot : Slot) (kv : string * Value) : Slot :=
  match getAttribute registry (fst kv) with
  | Some attribute => Slot_setAttribute attribute (snd kv) localSlot
  | None => localSlot
  end.

(** One turn of [for (const action of delta)]; [if (action.insert)]
    is a test of truthiness, so an entry whose content is falsy goes
    to the [else] branch like an entry without [insert]. *)
Definition local_slot_step (acc : Result Slot) (action : DeltaOp Shared) : Result Slot :=
  localSlot ← acc;
  match action with
  | OpInsert insert attributes =>
      if insert_truthy insert
      then
        let formats := remoteFormatsToLocal registry attributes in
        match insert with
        | InsertText text
        | InsertEmbed (SScalar (VString text)) =>
            Ok (Slot_insert (InsertText text) formats localSlot)
        | InsertEmbed sharedComponent =>
            component ← createLocalComponentBySharedComponent sharedComponent;
            Ok (Slot_insert (InsertEmbed component)
                  (remoteFormatsToLocal registry attributes) localSlot)
        end
      else Throw UnexpectedDeltaAction
  | _ => Throw UnexpectedDeltaAction
  end.
End SharedToLocal.

Fixpoint createLocalModelBySharedByModel (registry : Registry) (model : Shared)
  : Result Local :=
  match model with
  | SMap sharedMap =>
      LMap <$> createLocalMapBySharedMap (createLocalModelBySharedByModel registry) sharedMap
  | SArray sharedArray =>
      LArray <$> createLocalArrayBySharedArray (createLocalModelBySharedByModel registry)
                   sharedArray
  | SText sharedSlot => LSlot <$> createLocalSlotBySharedSlot registry sharedSlot
  | SScalar v => Ok (LScalar v)
  end
with createLocalSlotBySharedSlot (registry : Registry) (sharedSlot : YText)
  : Result Slot :=
  match sharedSlot with
  | mkYText attrs delta =>
      let localSlot := Slot_new (schema_or_empty (attrs !! "__schema__")) in
      let localSlot := foldl (local_attribute_step registry) localSlot (map_to_list attrs) in
      foldl (local_slot_step registry (createLocalComponentBySharedComponent registry))
            (Ok localSlot) delta
  end
with createLocalComponentBySharedComponent (registry : Registry) (yMap : Shared)
  : Result Component :=
  match yMap with
  | SMap entries =>
      let componentName := as_string (map_get "name" entries) in
      instance ← createComponentByData registry componentName (fun _ =>
        match map_get_with
                (fun sharedState =>
                   match sharedState with
                   | SMap sharedMap =>
                       createLocalMapBySharedMap
                         (createLocalModelBySharedByModel registry) sharedMap
                   | _ => Throw TypeError
                   end)
                "state" entries with
        | Some state => state
        | None => Throw TypeError
        end);
      match instance with
      | Some instance => Ok instance
      | None => Throw (CannotFindComponentFactory componentName)
      end
  | _ => Throw TypeError
  end.

(** ** 11. Well-formed local trees and their equivalence *)

Section WellFormed.
Variable registry : Registry.

(** The formats of a run: each formatter once, each one the formatter
    the registry has under its name, no null value. *)
Definition wf_formats (formats : Formats) : bool :=
  bool_decide (NoDup (fst <$> formats))
  && forallb (fun item =>
                bool_decide (getFormatter registry (formatter_name (fst item))
                             = Some (fst item))
                && bool_decide (snd item <> VNull))
             formats.

(** The attributes of a slot: a [Map] keyed by attribute, each one
    the attribute the registry has under its name. *)
Definition wf_attributes (attributes : list (Attribute * Value)) : bool :=
  bool_decide (NoDup (fst <$> attributes))
  && forallb (fun item =>
                bool_decide (getAttribute registry (attribute_name (fst item))
                             = Some (fst item)))
             attributes.

(** A run: content that is not empty, of a type the slot accepts. *)
Definition wf_run (wf_component : Component -> bool) (schema : list ContentType)
    (r : Insert Component * Formats) : bool :=
  wf_formats (snd r)
  && negb (insert_length (fst r) =? 0)%nat
  && bool_decide (insert_type (fst r) ∈ schema)
  && match fst r with
     | InsertEmbed component => wf_component component
     | InsertText _ => true
     end.

Fixpoint wf_local (model : Local) : bool :=
  match model with
  | LScalar _ => true
  | LMap entries =>
      bool_decide (NoDup (fst <$> entries))
      && forallb (fun kv => wf_local (snd kv)) entries
  | LArray items => forallb wf_local items
  | LSlot slot => wf_slot slot
  end
with wf_slot (slot : Slot) : bool :=
  match slot with
  | mkSlot schema attributes content _ =>
      wf_attributes attributes && forallb (wf_run wf_component schema) content
  end
with wf_component (component : Component) : bool :=
  match component with
  | mkComponent name type state =>
      bool_decide (getComponent registry name = Some type)
      && bool_decide (NoDup (fst <$> state))
      && forallb (fun kv => wf_local (snd kv)) state
  end.
End WellFormed.

Inductive insert_equiv {E : Type} (R : E -> E -> Prop) : Insert E -> Insert E -> Prop :=
  | insert_equiv_text text : insert_equiv R (InsertText text) (InsertText text)
  | insert_equiv_embed a b : R a b -> insert_equiv R (InsertEmbed a) (InsertEmbed b).

(** Two local trees with the same content sequence, the same formats on
    every run, the same slot attributes and schema, and the same nested
    components; the order inside a set of formats or attributes and the
    cursor of a slot do not count. *)
Unset Elimination Schemes.
Inductive local_equiv : Local -> Local -> Prop :=
  | local_equiv_scalar v : local_equiv (LScalar v) (LScalar v)
  | local_equiv_map m1 m2 :
      Forall2 (fun a b => fst a = fst b /\ local_equiv (snd a) (snd b)) m1 m2 ->
      local_equiv (LMap m1) (LMap m2)
  | local_equiv_array l1 l2 :
      Forall2 local_equiv l1 l2 -> local_equiv (LArray l1) (LArray l2)
  | local_equiv_slot s1 s2 :
      slot_equiv s1 s2 -> local_equiv (LSlot s1) (LSlot s2)
with slot_equiv : Slot -> Slot -> Prop :=
  | slot_equiv_intro schema a1 a2 c1 c2 i1 i2 :
      a1 ≡ₚ a2 ->
      Forall2 (fun r1 r2 => insert_equiv component_equiv (fst r1) (fst r2)
                            /\ snd r1 ≡ₚ snd r2) c1 c2 ->
      slot_equiv (mkSlot schema a1 c1 i1) (mkSlot schema a2 c2 i2)
with component_equiv : Component -> Component -> Prop :=
  | component_equiv_intro name type s1 s2 :
      Forall2 (fun a b => fst a = fst b /\ local_equiv (snd a) (snd b)) s1 s2 ->
      component_equiv (mkComponent name type s1) (mkComponent name type s2).
Set Elimination Schemes.

(** An object is registered when the registry has it under its own
    name; [by_name] is the lookup of one key of a shared object. *)
Section RegistryLookup.
Context {O : Type} (lookup : string -> option O) (name : O -> string).

Definition registered (item : O * Value) : Prop :=
  lookup (name (fst item)) = Some (fst item).

Definition by_name (kv : string * Value) : option (O * Value) :=
  match lookup (fst kv) with
  | Some o => Some (o, snd kv)
  | None => None
  end.
End RegistryLookup.

(** The shared entry a local run becomes. *)
Definition shared_run_of (r : Insert Component * Formats) : DeltaOp Shared :=
  OpInsert
    match fst r with
    | InsertText text => InsertText text
    | InsertEmbed component =>
        InsertEmbed (createSharedComponentByLocalComponent component)
    end
    (shown_attributes (shared_formats (snd r))).

(** Two runs with the same content and the same formats. *)
Definition run_equiv (r1 r2 : Insert Component * Formats) : Prop :=
  insert_equiv component_equiv (fst r1) (fst r2) /\ snd r1 ≡ₚ snd r2.

(** Two entries of a map with the same key and equivalent values. *)
Definition entry_equiv (a b : string * Local) : Prop :=
  fst a = fst b /\ local_equiv (snd a) (snd b).

(** A local value comes back from its shared form as an equivalent
    one. *)
Definition comes_back (back : Shared -> Result Local) (conv : Local -> Shared)
    (v : Local) : Prop :=
  exists v', back (conv v) = Ok v' /\ local_equiv v v'.

(** A local component comes back from its shared form as an equivalent
    one, provided it is well formed. *)
Definition component_comes_back (registry : Registry) (c : Component) : Prop :=
  wf_component registry c = true ->
  exists c',
    createLocalComponentBySharedComponent registry
      (createSharedComponentByLocalComponent c) = Ok c'
    /\ component_equiv c c'.

(** ** 12. The selection and the replay of a remote text event *)

(** Modelled from the spec: the selection of the core package is not in
    this file; the spec has it as the collaborator that gives the
    "current anchor/focus" and the "endpoint mutators".  Slots are told
    apart by identity, here a number; [anchorFirst] says which endpoint
    comes first in the document when they are in different slots. *)
Record Selection : Type := mkSelection {
  anchorSlot : option nat;
  anchorOffset : Z;
  focusSlot : option nat;
  focusOffset : Z;
  anchorFirst : bool
}.

Definition isSelected (sel : Selection) : bool :=
  match anchorSlot sel, focusSlot sel with
  | Some _, Some _ => true
  | _, _ => false
  end.

Definition startOffset (sel : Selection) : Z :=
  if decide (anchorSlot sel = focusSlot sel)
  then Z.min (anchorOffset sel) (focusOffset sel)
  else if anchorFirst sel then anchorOffset sel else focusOffset sel.

Definition setAnchor (slot : nat) (offset : Z) (sel : Selection) : Selection :=
  mkSelection (Some slot) offset (focusSlot sel) (focusOffset sel) (anchorFirst sel).

Definition setFocus (slot : nat) (offset : Z) (sel : Selection) : Selection :=
  mkSelection (anchorSlot sel) (anchorOffset sel) (Some slot) offset (anchorFirst sel).

(** The selection fix-up of the [insert] branch of [syncRemote];
    [index] is [localSlot.index] from before the insertion. *)
Definition selection_after_insert (origin : Origin) (localSlot : nat)
    (index length : Z) (sel : Selection) : Selection :=
  if isSelected sel && bool_decide (origin <> OriginManager)
  then
    let sel1 :=
      if bool_decide (anchorSlot sel = Some localSlot) && (anchorOffset sel >? index)
      then setAnchor localSlot (anchorOffset sel + length) sel
      else sel in
    if bool_decide (focusSlot sel1 = Some localSlot) && (focusOffset sel1 >? index)
    then setFocus localSlot (focusOffset sel1 + length) sel1
    else sel1
  else sel.

(** The selection fix-up of the [delete] branch of [syncRemote]. *)
Definition selection_after_delete (origin : Origin) (localSlot : nat)
    (index count : Z) (sel : Selection) : Selection :=
  if isSelected sel && bool_decide (origin <> OriginManager)
  then
    let sel1 :=
      if bool_decide (anchorSlot sel = Some localSlot) && (anchorOffset sel >=? index)
      then setAnchor localSlot (startOffset sel - count) sel
      else sel in
    if bool_decide (focusSlot sel1 = Some localSlot) && (focusOffset sel1 >=? index)
    then setFocus localSlot (focusOffset sel1 - count) sel1
    else sel1
  else sel.

(** What an insertion of [length] units at [index] of the slot does to
    a selection: outside a replay of the undo manager, an endpoint in
    the slot strictly behind [index] moves forward by [length] and an
    endpoint at or before [index] stays; in a replay of the undo
    manager nothing moves. *)
Definition endpoints_shifted (origin : Origin) (localSlot : nat) (index length : Z)
    (sel sel' : Selection) : Prop :=
  (origin <> OriginManager ->
   (anchorSlot sel = Some localSlot -> index < anchorOffset sel ->
    anchorOffset sel' = anchorOffset sel + length)
   /\ (anchorOffset sel <= index -> anchorOffset sel' = anchorOffset sel)
   /\ (focusSlot sel = Some localSlot -> index < focusOffset sel ->
       focusOffset sel' = focusOffset sel + length)
   /\ (focusOffset sel <= index -> focusOffset sel' = focusOffset sel))
  /\ (origin = OriginManager -> sel' = sel).

(** What a text event says of one changed attribute key. *)
Inductive KeyAction : Type := KeyAdd | KeyUpdate | KeyDelete.

(** The fields of a [YTextEvent] that [syncRemote] reads. *)
Record YTextEvent : Type := mkYTextEvent {
  event_keys : list (string * option KeyAction);
  event_delta : list (DeltaOp Shared)
}.

Section SyncRemote.
Variable registry : Registry.
(** [tr.origin], the numbered [localSlot] and its [sharedSlot]. *)
Variable origin : Origin.
Variable slotId : nat.
Variable sharedSlot : YText.

(** One turn of [ev.keysChanged.forEach(key => ...)] *)
Definition remote_key_step (localSlot : Slot) (key : string * option KeyAction) : Slot :=
  match snd key with
  | None => localSlot
  | Some KeyDelete =>
      match getAttribute registry (fst key) with
      | Some attribute => Slot_removeAttribute attribute localSlot
      | None => localSlot
      end
  | Some _ =>
      match getAttribute registry (fst key) with
      | Some attribute =>
          Slot_setAttribute attribute
            (default VNull (YText_getAttribute (fst key) sharedSlot)) localSlot
      | None => localSlot
      end
  end.

(** One turn of [ev.delta.forEach(action => ...)]; [else if
    (action.insert)] and [else if (action.delete)] are tests of
    truthiness: an entry whose content is falsy does nothing. *)
Definition remote_delta_step (acc : Result (Slot * Selection)) (action : DeltaOp Shared)
  : Result (Slot * Selection) :=
  st ← acc;
  let '(localSlot, selection) := st in
  match action with
  | OpRetain retain attributes =>
      match attributes with
      | Some attrs =>
          let formats := remoteFormatsToLocal registry (Some attrs) in
          let localSlot :=
            if (length formats =? 0)%nat then localSlot
            else Slot_retain_formats retain formats localSlot in
          Ok (Slot_retain (slot_index localSlot + retain) localSlot, selection)
      | None => Ok (Slot_retain retain localSlot, selection)
      end
  | OpInsert insert attributes =>
      if insert_truthy insert
      then
        let index := slot_index localSlot in
        match insert with
        | InsertText text
        | InsertEmbed (SScalar (VString text)) =>
            let length := String.length text in
            let localSlot :=
              Slot_insert (InsertText text) (remoteFormatsToLocal registry attributes)
                          localSlot in
            Ok (localSlot,
                selection_after_insert origin slotId (Z.of_nat index) (Z.of_nat length)
                                       selection)
        | InsertEmbed sharedComponent =>
            component ← createLocalComponentBySharedComponent registry sharedComponent;
            let localSlot := Slot_insert (InsertEmbed component) [] localSlot in
            Ok (localSlot,
                selection_after_insert origin slotId (Z.of_nat index) 1 selection)
        end
      else Ok (localSlot, selection)
  | OpDelete count =>
      if (count =? 0)%nat then Ok (localSlot, selection)
      else
        let index := slot_index localSlot in
        let localSlot := Slot_delete count localSlot in
        Ok (localSlot,
            selection_after_delete origin slotId (Z.of_nat index) (Z.of_nat count)
                                   selection)
  end.

(** The closure [syncRemote] hands to [runRemoteUpdate]. *)
Definition syncRemote (ev : YTextEvent) (st : Slot * Selection)
  : Result (Slot * Selection) :=
  let '(localSlot, selection) := st in
  let localSlot := Slot_retain 0 localSlot in
  let localSlot := foldl remote_key_step localSlot (event_keys ev) in
  foldl remote_delta_step (Ok (localSlot, selection)) (event_delta ev).
End SyncRemote.

(** ** 13. The replay of local slot actions on the shared text *)

(** Modelled from the spec: [Slot.emptyPlaceholder] is a constant of the
    core package, not in this file; it is the line feed that the
    [delete] branch writes into an emptied shared text. *)
Definition emptyPlaceholder : string := String "010"%char EmptyString.

(** The actions of [localSlot.onContentChange]; [formats] is an object
    keyed by formatter name. *)
Inductive Action : Type :=
  | ActionRetain (offset : nat) (formats : option (gmap string Value))
  | ActionContentInsert (content : Insert Component) (formats : option (gmap string Value))
  | ActionDelete (count : nat)
  | ActionAttrSet (name : string) (value : Value)
  | ActionAttrDelete (name : string).

(** [delta.length === 1 && delta[0].insert === Slot.emptyPlaceholder] *)
Definition is_placeholder_only (delta : list (DeltaOp Shared)) : bool :=
  match delta with
  | [OpInsert (InsertText text) _] => bool_decide (text = emptyPlaceholder)
  | _ => false
  end.

(** [delta[0]?.attributes] *)
Definition first_attributes (delta : list (DeltaOp Shared)) : option (gmap string Value) :=
  match delta with
  | op :: _ => op_attributes op
  | [] => None
  end.

(** One turn of the loop of the [onContentChange] subscriber; the state
    is [offset], [length] and the shared text. *)
Definition local_action_step (registry : Registry) (st : nat * nat * YText)
    (action : Action) : nat * nat * YText :=
  let '(offset, length, sharedSlot) := st in
  match action with
  | ActionRetain action_offset formats =>
      match formats with
      | Some formats =>
          let formats :=
            filter (fun kv => is_Some (getFormatter registry (fst kv))) formats in
          if (size formats =? 0)%nat then (offset, length, sharedSlot)
          else (offset, length, YText_format offset action_offset formats sharedSlot)
      | None => (action_offset, length, sharedSlot)
      end
  | ActionContentInsert content formats =>
      let delta := YText_toDelta sharedSlot in
      let isEmpty := is_placeholder_only delta in
      let '(length, sharedSlot) :=
        match content with
        | InsertText text =>
            (String.length text,
             YText_insert offset text (Some (default ∅ formats)) sharedSlot)
        | InsertEmbed component =>
            let sharedComponent := createSharedComponentByLocalComponent component in
            (1%nat,
             YText_insertEmbed offset sharedComponent (Some (default ∅ formats)) sharedSlot)
        end in
      let sharedSlot :=
        if isEmpty && (offset =? 0)%nat
        then YText_delete (YText_length sharedSlot - 1) 1 sharedSlot
        else sharedSlot in
      ((offset + length)%nat, length, sharedSlot)
  | ActionDelete count =>
      let delta := YText_toDelta sharedSlot in
      let sharedSlot :=
        if (YText_length sharedSlot =? 0)%nat then sharedSlot
        else YText_delete offset count sharedSlot in
      let sharedSlot :=
        if (YText_length sharedSlot =? 0)%nat
        then YText_insert 0 emptyPlaceholder (first_attributes delta) sharedSlot
        else sharedSlot in
      (offset, length, sharedSlot)
  | ActionAttrSet name value => (offset, length, YText_setAttribute name value sharedSlot)
  | ActionAttrDelete name => (offset, length, YText_removeAttribute name sharedSlot)
  end.

(** The closure the [onContentChange] subscriber hands to
    [runLocalUpdate]. *)
Definition replay_local_actions (registry : Registry) (actions : list Action)
    (sharedSlot : YText) : YText :=
  snd (foldl (local_action_step registry) (0%nat, 0%nat, sharedSlot) actions).


(** The formats of a formatting retain without the names the registry
    has no formatter for. *)
Definition known_formats (registry : Registry) (action : Action) : Action :=
  match action with
  | ActionRetain offset (Some formats) =>
      ActionRetain offset
        (Some (filter (fun kv => is_Some (getFormatter registry (fst kv))) formats))
  | _ => action
  end.


(** ** 14. Shared values made of insertions only *)

(** An entry that is an insertion: it has an [insert] that is truthy,
    a string that is not empty or an embedded value other than [null],
    [false], [0] and the empty string. *)
Definition is_insertion (op : DeltaOp Shared) : bool :=
  match op with
  | OpInsert insert _ => insert_truthy insert
  | _ => false
  end.

(** Every entry of every delta in the value, at any depth, is an
    insertion. *)
Fixpoint insertions_only (model : Shared) : bool :=
  match model with
  | SScalar _ => true
  | SMap entries => forallb (fun kv => insertions_only (snd kv)) entries
  | SArray items => forallb insertions_only items
  | SText text => ytext_insertions_only text
  end
with ytext_insertions_only (text : YText) : bool :=
  match text with
  | mkYText _ delta =>
      forallb (fun op =>
                 is_insertion op
                 && match op with
                    | OpInsert (InsertEmbed e) _ => insertions_only e
                    | _ => true
                    end) delta
  end.

(** A result that is not the unexpected-delta error. *)
Definition not_unexpected {A : Type} (r : Result A) : Prop :=
  r <> Throw UnexpectedDeltaAction.

(** ** 15. Sample data *)

Definition bold : Formatter := mkFormatter "bold" 1.
Definition color : Formatter := mkFormatter "color" 2.
Definition align : Attribute := mkAttribute "align" 1.

Definition sample_registry : Registry :=
  mkRegistry
    (fun name => if decide (name = "bold") then Some bold
                 else if decide (name = "color") then Some color else None)
    (fun name => if decide (name = "align") then Some align else None)
    (fun name => if decide (name = "image") then Some InlineComponent else None).

Definition sample_caption : Slot :=
  mkSlot [Text] []
         [(InsertText "hi", [(color, VString "red"); (bold, VBool true)])] 0.

Definition sample_image : Component :=
  mkComponent "image" InlineComponent
              [("src", LScalar (VString "x")); ("caption", LSlot sample_caption)].

Definition sample_slot : Slot :=
  mkSlot [Text; InlineComponent] [(align, VString "center")]
         [(InsertText "ab", [(bold, VBool true)]);
          (InsertEmbed sample_image, []);
          (InsertText "cd", [])] 1.

(** A slot of eight characters and a collapsed selection at offset 5
    in it. *)
Definition sample_text : Slot := mkSlot [Text] [] [(InsertText "abcdefgh", [])] 0.

Definition caret_at_5 : Selection := mkSelection (Some 1%nat) 5 (Some 1%nat) 5 true.

(** A selection made backwards: anchor at 5, focus at 2. *)
Definition backward_5_2 : Selection := mkSelection (Some 1%nat) 5 (Some 1%nat) 2 true.

(** ** 16. Undo and redo *)

(** What the handler of ['stack-item-popped'] asks of the selection. *)
Inductive SelectionCall (A : Type) : Type :=
  | SetBaseAndExtent (selection : A)
  | UnSelect.

Arguments SetBaseAndExtent {A} selection.
Arguments UnSelect {A}.

Section UndoRedo.
Context {P S A : Type}.
(** [this.getAbstractSelection(p)] *)
Variable resolve : P -> option A.

(** [this.historyItems[index] || null]: a negative index, an index
    past the end and a hole all read as [undefined]. *)
Definition history_at (i : Z) (items : list (option (HistoryPosition P)))
  : option (HistoryPosition P) :=
  if i <? 0 then None else mjoin (items !! Z.to_nat i).

(** The handler of ['stack-item-popped']. *)
Definition on_stack_item_popped (type : StackEventType) (h : History P S)
  : SelectionCall A :=
  let i := match type with
           | EventUndo => index h
           | EventRedo => index h - 1
           end in
  let position := history_at i (historyItems h) in
  let p := match type with
           | EventUndo => position ≫= before
           | EventRedo => position ≫= after
           end in
  match p with
  | Some p =>
      match resolve p with
      | Some selection => SetBaseAndExtent selection
      | None => UnSelect
      end
  | None => UnSelect
  end.

(** Modelled from the spec: the undo manager is not in this file; the
    spec has [back()] and [forward()] "trigger undo/redo replay" and
    the pop of the stack "in either direction".  An undo takes the
    top of the undo stack, puts it on the redo stack, which emits
    ['stack-item-added'] with type ['redo'] and the manager as
    origin, and then emits ['stack-item-popped'] with type ['undo'];
    a redo does the same the other way round. *)
Definition manager_undo (stackSize : Z) (beforePosition cursor : option P)
    (h : History P S)
  : option (History P S * list Notification * SelectionCall A) :=
  match last (undoStack h) with
  | None => None
  | Some item =>
      r ← on_stack_item_added stackSize beforePosition cursor
            (mkStackEvent EventRedo OriginManager)
            (mkHistory (historyItems h) (index h)
                       (removelast (undoStack h)) (redoStack h ++ [item]));
      Some (fst r, snd r, on_stack_item_popped EventUndo (fst r))
  end.

Definition manager_redo (stackSize : Z) (beforePosition cursor : option P)
    (h : History P S)
  : option (History P S * list Notification * SelectionCall A) :=
  match last (redoStack h) with
  | None => None
  | Some item =>
      r ← on_stack_item_added stackSize beforePosition cursor
            (mkStackEvent EventUndo OriginManager)
            (mkHistory (historyItems h) (index h)
                       (undoStack h ++ [item]) (removelast (redoStack h)));
      Some (fst r, snd r, on_stack_item_popped EventRedo (fst r))
  end.

(** [get canBack()] and [get canForward()] *)
Definition canBack (h : History P S) : bool :=
  negb (length (undoStack h) =? 0)%nat.
Definition canForward (h : History P S) : bool :=
  negb (length (redoStack h) =? 0)%nat.

(** [back()]: nothing happens unless [canBack]; [None] is the
    uncaught error of the handler. *)
Definition back (stackSize : Z) (beforePosition cursor : option P) (h : History P S)
  : option (History P S * option (SelectionCall A)) :=
  if canBack h
  then r ← manager_undo stackSize beforePosition cursor h;
       Some (fst (fst r), Some (snd r))
  else Some (h, None).

(** [forward()] *)
Definition forward (stackSize : Z) (beforePosition cursor : option P) (h : History P S)
  : option (History P S * option (SelectionCall A)) :=
  if canForward h
  then r ← manager_redo stackSize beforePosition cursor h;
       Some (fst (fst r), Some (snd r))
  else Some (h, None).

(** The cursor-history entry an edit leaves. *)
Definition edit_position (edit : S * option P * option P) : option (HistoryPosition P) :=
  Some (mkHistoryPosition (snd (fst edit)) (snd edit)).

(** The call that restores a snapshot, or clears the selection. *)
Definition restore (p : option P) : SelectionCall A :=
  match p ≫= resolve with
  | Some selection => SetBaseAndExtent selection
  | None => UnSelect
  end.
End UndoRedo.

(** ** 17. The slot map and the cursor positions *)

(** [class SlotMap]: two weak maps keyed by identity; slots and shared
    texts are told apart by number. *)
Record SlotMap : Type := mkSlotMap {
  slotAndYTextMap : gmap nat nat;
  yTextAndSLotMap : gmap nat nat
}.

(** A key of either kind ([key instanceof Slot] or not). *)
Inductive SlotMapKey : Type :=
  | OfSlot (slot : nat)
  | OfYText (text : nat).

Definition SlotMap_empty : SlotMap := mkSlotMap ∅ ∅.

(** [set(key, value)] *)
Definition SlotMap_set (key : SlotMapKey) (value : nat) (m : SlotMap) : SlotMap :=
  match key with
  | OfSlot slot =>
      mkSlotMap (<[slot := value]> (slotAndYTextMap m))
                (<[value := slot]> (yTextAndSLotMap m))
  | OfYText text =>
      mkSlotMap (<[value := text]> (slotAndYTextMap m))
                (<[text := value]> (yTextAndSLotMap m))
  end.

(** [get(key)] *)
Definition SlotMap_get (key : SlotMapKey) (m : SlotMap) : option nat :=
  match key with
  | OfSlot slot => slotAndYTextMap m !! slot
  | OfYText text => yTextAndSLotMap m !! text
  end.

(** [delete(key)] *)
Definition SlotMap_delete (key : SlotMapKey) (m : SlotMap) : SlotMap :=
  match key with
  | OfSlot slot =>
      let v := slotAndYTextMap m !! slot in
      mkSlotMap (base.delete slot (slotAndYTextMap m))
                match v with
                | Some v => base.delete v (yTextAndSLotMap m)
                | None => yTextAndSLotMap m
                end
  | OfYText text =>
      let v := yTextAndSLotMap m !! text in
      mkSlotMap match v with
                | Some v => base.delete v (slotAndYTextMap m)
                | None => slotAndYTextMap m
                end
                (base.delete text (yTextAndSLotMap m))
  end.

(** The two maps mirror each other. *)
Definition SlotMap_consistent (m : SlotMap) : Prop :=
  forall slot text,
    slotAndYTextMap m !! slot = Some text <-> yTextAndSLotMap m !! text = Some slot.

(** [interface AbstractSelection] of the core package. *)
Record AbstractSelection : Type := mkAbstractSelection {
  abstract_anchorSlot : nat;
  abstract_anchorOffset : Z;
  abstract_focusSlot : nat;
  abstract_focusOffset : Z
}.

Section Cursor.
(** The relative positions of the shared document: what
    [createRelativePositionFromTypeIndex] makes of a shared text and
    an index, and what [createAbsolutePositionFromRelativePosition]
    resolves it to, if anything. *)
Context {RP : Type}.
Variable createRelativePositionFromTypeIndex : nat -> Z -> RP.
Variable createAbsolutePositionFromRelativePosition : RP -> option (nat * Z).

(** [interface CursorPosition] *)
Record CursorPosition : Type := mkCursorPosition {
  cursor_anchor : RP;
  cursor_focus : RP
}.

(** [private getAbstractSelection(position)] *)
Definition getAbstractSelection (slotMap : SlotMap) (position : CursorPosition)
  : option AbstractSelection :=
  match createAbsolutePositionFromRelativePosition (cursor_anchor position),
        createAbsolutePositionFromRelativePosition (cursor_focus position) with
  | Some anchorPosition, Some focusPosition =>
      match SlotMap_get (OfYText (fst focusPosition)) slotMap,
            SlotMap_get (OfYText (fst anchorPosition)) slotMap with
      | Some focusSlot, Some anchorSlot =>
          Some (mkAbstractSelection anchorSlot (snd anchorPosition)
                                    focusSlot (snd focusPosition))
      | _, _ => None
      end
  | _, _ => None
  end.

(** [private getRelativeCursorLocation()] *)
Definition getRelativeCursorLocation (slotMap : SlotMap) (selection : Selection)
  : option CursorPosition :=
  match anchorSlot selection with
  | Some anchorSlot =>
      match SlotMap_get (OfSlot anchorSlot) slotMap with
      | Some anchorYText =>
          let anchorPosition :=
            createRelativePositionFromTypeIndex anchorYText (anchorOffset selection) in
          match focusSlot selection with
          | Some focusSlot =>
              match SlotMap_get (OfSlot focusSlot) slotMap with
              | Some focusYText =>
                  let focusPosition :=
                    createRelativePositionFromTypeIndex focusYText
                                                        (focusOffset selection) in
                  Some (mkCursorPosition anchorPosition focusPosition)
              | None => None
              end
          | None => None
          end
      | None => None
      end
  | None => None
  end.
End Cursor.

Arguments CursorPosition : clear implicits.

(** What [syncSlot] and a slot's destroy callback do to the slot map:
    [this.slotMap.set(localSlot, sharedSlot)] and
    [this.slotMap.delete(localSlot)]. *)
Inductive BridgeOp : Type :=
  | Register (slot text : nat)
  | Release (key : SlotMapKey).

Definition bridge_step (m : SlotMap) (op : BridgeOp) : SlotMap :=
  match op with
  | Register slot text => SlotMap_set (OfSlot slot) text m
  | Release key => SlotMap_delete key m
  end.

(** Every registration in the run pairs a slot and a shared text that
    have no partner at that time. *)
Fixpoint fresh_registrations (ops : list BridgeOp) (m : SlotMap) : bool :=
  match ops with
  | [] => true
  | op :: rest =>
      match op with
      | Register slot text =>
          bool_decide (SlotMap_get (OfSlot slot) m = None)
          && bool_decide (SlotMap_get (OfYText text) m = None)
      | Release _ => true
      end
      && fresh_registrations rest (bridge_step m op)
  end.

(** ** 18. The root component and the two-way sync of a map *)

(** [private syncRootComponent(root, rootComponent)]; [root] is the
    shared map ['RootComponent'], whose entries are shared maps
    ([root.get('state') as YMap<any>], an object, hence truthy when
    there); [rootState] is [rootComponent.state], emptied by [clean()]
    before it is filled from the shared state. *)
Definition syncRootComponent (registry : Registry)
    (root : list (string * list (string * Shared)))
    (rootState : list (string * Local))
  : Result (list (string * list (string * Shared)) * list (string * Local)) :=
  match map_get "state" root with
  | None =>
      let state := syncLocalMapToSharedMap createSharedModelByLocalModel rootState [] in
      Ok (map_set "state" state root, rootState)
  | Some state =>
      rootState ← syncSharedMapToLocalMap (createLocalModelBySharedByModel registry) state [];
      Ok (root, rootState)
  end.

(** The actions of a [MapModel] that [syncObject] reads. *)
Inductive MapAction : Type :=
  | PropSet (key : string) (value : Local)
  | PropDelete (key : string).

(** Modelled from the spec: the map model of the core package is not in
    this file; the spec has it as a "key-value" container that emits
    "propSet/propDelete" actions.  What an action says of the local
    map. *)
Definition MapModel_apply (localObject : list (string * Local)) (action : MapAction)
  : list (string * Local) :=
  match action with
  | PropSet key value => map_set key value localObject
  | PropDelete key => map_remove key localObject
  end.

(** One turn of [for (const action of op.apply)] in [syncObject]. *)
Definition object_action_step (sharedObject : list (string * Shared)) (action : MapAction)
  : list (string * Shared) :=
  match action with
  | PropSet key value => map_set key (createSharedModelByLocalModel value) sharedObject
  | PropDelete key => map_remove key sharedObject
  end.

(** One turn of [ev.changes.keys.forEach((item, key) => ...)] in
    [syncObject]; [sharedObject] is the shared map after the
    transaction; a key it does not hold reads as [undefined], kept
    here as a null. *)
Definition object_remote_step (registry : Registry) (sharedObject : list (string * Shared))
    (acc : Result (list (string * Local))) (change : string * KeyAction)
  : Result (list (string * Local)) :=
  localObject ← acc;
  match snd change with
  | KeyAdd | KeyUpdate =>
      match map_get (fst change) sharedObject with
      | Some value =>
          value ← createLocalModelBySharedByModel registry value;
          Ok (map_set (fst change) value localObject)
      | None => Ok (map_set (fst change) (LScalar VNull) localObject)
      end
  | KeyDelete => Ok (map_remove (fst change) localObject)
  end.

(** The closure the remote handler of [syncObject] hands to
    [runRemoteUpdate]. *)
Definition syncObject_remote (registry : Registry) (sharedObject : list (string * Shared))
    (changes : list (string * KeyAction)) (localObject : list (string * Local))
  : Result (list (string * Local)) :=
  foldl (object_remote_step registry sharedObject) (Ok localObject) changes.

(** ** 19. A session of edits, undos and redos *)

(** What the user does to the history: an undoable edit, with the
    stack item it opens and the two cursor snapshots, [back()] or
    [forward()]. *)
Inductive HistoryOp (P S : Type) : Type :=
  | DoEdit (edit : S * option P * option P)
  | DoBack
  | DoForward.

Arguments DoEdit {P S} edit.
Arguments DoBack {P S}.
Arguments DoForward {P S}.

Section Session.
Context {P S A : Type}.
Variable resolve : P -> option A.

Definition history_step (stackSize : Z) (h : option (History P S)) (op : HistoryOp P S)
  : option (History P S) :=
  h ← h;
  match op with
  | DoEdit edit => fst <$> undoable_edit stackSize edit h
  | DoBack => fst <$> back resolve stackSize None None h
  | DoForward => fst <$> forward resolve stackSize None None h
  end.

Definition history_session (stackSize : Z) (ops : list (HistoryOp P S)) (h : History P S)
  : option (History P S) :=
  foldl (history_step stackSize) (Some h) ops.

Definition count_edits (ops : list (HistoryOp P S)) : nat :=
  foldr (fun op n => match op with DoEdit _ => Datatypes.S n | _ => n end) 0%nat ops.

(** The cursor history and the two stacks of the undo manager agree:
    [index] is the height of the undo stack, there is one entry per
    stack item of either stack, and no entry is a hole. *)
Definition in_step (h : History P S) : Prop :=
  index h = Z.of_nat (length (undoStack h))
  /\ length (historyItems h) = (length (undoStack h) + length (redoStack h))%nat
  /\ Forall is_Some (historyItems h).
End Session.

(** ** 20. What happens between two flushes *)

Section Between.
Context {A L : Type}.

(** Between two batching signals the engine sees local edits, each
    handed to [runLocalUpdate] by a subscriber, and events of the
    shared document, each replayed as local mutations under
    [runRemoteUpdate]. *)
Inductive EngineStep : Type :=
  | StepLocalEdit (change : L -> L) (fn : A)
  | StepEvent (origin : Origin) (mutations : list ((L -> L) * A)) (outcome : Outcome).

(** An exception of a replay goes to whoever delivered the event; the
    engine is left as the replay left it and goes on from there. *)
Definition engine_step (w : World A L) (step : EngineStep) : World A L :=
  match step with
  | StepLocalEdit change fn => local_mutation change fn w
  | StepEvent origin mutations outcome =>
      fst (runRemoteUpdate origin (replay_then outcome mutations) w)
  end.

(** The closures of the local edits, in order. *)
Definition local_edits_of (steps : list EngineStep) : list A :=
  omap (fun step => match step with
                    | StepLocalEdit _ fn => Some fn
                    | StepEvent _ _ _ => None
                    end) steps.

Definition throws (step : EngineStep) : bool :=
  match step with
  | StepEvent origin _ Thrown => bool_decide (origin <> OriginYDoc)
  | _ => false
  end.

(** The local edits made while no replay that threw has been the last
    one to run: [blocked] tells whether such a replay was. *)
Fixpoint heard_edits (blocked : bool) (steps : list EngineStep) : list A :=
  match steps with
  | [] => []
  | StepLocalEdit _ fn :: rest =>
      (if blocked then [] else [fn]) ++ heard_edits blocked rest
  | StepEvent origin _ outcome :: rest =>
      heard_edits (if decide (origin = OriginYDoc) then blocked
                   else match outcome with
                        | Returned => false
                        | Thrown => true
                        end) rest
  end.
End Between.

Arguments EngineStep : clear implicits.

(** ** 21. The timeline component *)

(** [const timelineTypes] *)
Definition timelineTypes : list string :=
  ["primary"; "info"; "success"; "warning"; "danger"; "dark"; "gray"].

(** [array.indexOf(x)]: the first position of [x], or -1. *)
Fixpoint indexOf (x : string) (l : list string) : Z :=
  match l with
  | [] => -1
  | y :: l' =>
      if decide (x = y) then 0
      else let i := indexOf x l' in if i <? 0 then -1 else i + 1
  end.

(** The type of an item is a string or [null]; [null] and the empty
    string are falsy. *)
Definition type_truthy (type : option string) : bool :=
  match type with
  | Some s => negb (String.length s =? 0)%nat
  | None => false
  end.

(** The click handler of the icon: the value [draft.type] is given. *)
Definition next_type (type : option string) : option string :=
  match type with
  | Some s =>
      if type_truthy type
      then
        let next := timelineTypes !! Z.to_nat (indexOf s timelineTypes + 1) in
        if type_truthy next then next else None
      else timelineTypes !! 0%nat
  | None => timelineTypes !! 0%nat
  end.

(** [classes] of a rendered item and its [class] attribute,
    [classes.join(' ')]. *)
Definition item_classes (type : option string) : list string :=
  "tb-timeline-item"
  :: match type with
     | Some s => if type_truthy type then ["tb-timeline-item-" +:+ s] else []
     | None => []
     end.

Fixpoint join (separator : string) (l : list string) : string :=
  match l with
  | [] => ""
  | [x] => x
  | x :: rest => x +:+ separator +:+ join separator rest
  end.

Definition class_attribute (type : option string) : string :=
  join " " (item_classes type).

(** [element.classList]: the tokens of the [class] attribute, which
    ASCII whitespace separates. *)
Definition is_whitespace (c : ascii) : bool :=
  match nat_of_ascii c with
  | 9%nat | 10%nat | 12%nat | 13%nat | 32%nat => true
  | _ => false
  end.

Fixpoint class_tokens (attribute token : string) : list string :=
  match attribute with
  | EmptyString => if (String.length token =? 0)%nat then [] else [token]
  | String c rest =>
      if is_whitespace c
      then (if (String.length token =? 0)%nat then [] else [token])
           ++ class_tokens rest ""
      else class_tokens rest (token +:+ String c EmptyString)
  end.

Definition classList_contains (attribute : string) (token : string) : bool :=
  bool_decide (token ∈ class_tokens attribute "").

(** The loop of [read]: the first listed type whose class the element
    has. *)
Fixpoint first_type (attribute : string) (types : list string) : option string :=
  match types with
  | [] => None
  | k :: rest =>
      if classList_contains attribute ("tb-timeline-item-" +:+ k) then Some k
      else first_type attribute rest
  end.

(** [let type = 'primary'; for (const k of timelineTypes) { ... }] *)
Definition read_type (attribute : string) : string :=
  default "primary" (first_type attribute timelineTypes).
(* ===================================================================== *)
(** * Part II. Theorems                                                   *)
(* ===================================================================== *)

(** ** 1. The batching flush *)

Section QueueFacts.
Context {A : Type}.
Implicit Types (queue : list (UpdateItem A)) (u : Update A).

Lemma maximal_runs_nonempty queue : Forall (fun run => run <> []) (maximal_runs queue).
Proof.
  induction queue as [|x rest IH]; simpl; [constructor|].
  destruct (maximal_runs rest) as [|[|y run] runs].
  - repeat constructor; discriminate.
  - repeat constructor; discriminate.
  - inversion IH; subst.
    destruct (Bool.eqb (record x) (record y)); repeat constructor; auto; discriminate.
Qed.

Lemma maximal_runs_cons x queue :
  map run_update (maximal_runs (x :: queue))
  = merge_front (mkUpdate (record x) [action x]) (map run_update (maximal_runs queue)).
Proof.
  pose proof (maximal_runs_nonempty queue) as Hne.
  simpl. destruct (maximal_runs queue) as [|[|y run] runs]; simpl.
  - reflexivity.
  - inversion Hne; congruence.
  - destruct (Bool.eqb (record x) (record y)); reflexivity.
Qed.

Lemma group_fold_spec queue : forall closed u,
  (let '(closed', update) := foldl group_step (closed, Some u) queue in
   closed' ++ match update with Some u' => [u'] | None => [] end)
  = closed ++ merge_front u (map run_update (maximal_runs queue)).
Proof.
  induction queue as [|x rest IH]; intros closed u.
  - reflexivity.
  - rewrite maximal_runs_cons.
    cbn [foldl]. unfold group_step at 2.
    destruct (Bool.eqb (update_record u) (record x)) eqn:E.
    + rewrite IH. f_equal.
      destruct (map run_update (maximal_runs rest)) as [|v vs]; simpl.
      * rewrite E. reflexivity.
      * pose proof (Bool.eqb_prop _ _ E) as E'. rewrite E'.
        destruct (Bool.eqb (record x) (update_record v)) eqn:E2; simpl.
        -- rewrite E, <- app_assoc, E'. reflexivity.
        -- rewrite E, E'. reflexivity.
    + rewrite IH. rewrite <- app_assoc. f_equal.
      destruct (map run_update (maximal_runs rest)) as [|v vs]; simpl.
      * rewrite E. reflexivity.
      * destruct (Bool.eqb (record x) (update_record v)) eqn:E2; simpl;
          rewrite E; reflexivity.
Qed.

Lemma group_updates_spec queue :
  group_updates queue = map run_update (maximal_runs queue).
Proof.
  destruct queue as [|x rest]; [reflexivity|].
  unfold group_updates. cbn [foldl]. unfold group_step at 2.
  rewrite Bool.eqb_reflx. cbn [update_record update_actions app].
  rewrite (group_fold_spec rest [] (mkUpdate (record x) [action x])).
  rewrite maximal_runs_cons. reflexivity.
Qed.

Lemma maximal_runs_concat queue : concat (maximal_runs queue) = queue.
Proof.
  induction queue as [|x rest IH]; [reflexivity|].
  pose proof (maximal_runs_nonempty rest) as Hne.
  simpl. destruct (maximal_runs rest) as [|[|y run] runs]; simpl in *.
  - congruence.
  - inversion Hne; congruence.
  - destruct (Bool.eqb (record x) (record y)); simpl; congruence.
Qed.

Lemma maximal_runs_uniform queue :
  Forall (fun run => Forall (fun i => record i = run_record run) run) (maximal_runs queue).
Proof.
  induction queue as [|x rest IH]; simpl; [constructor|].
  destruct (maximal_runs rest) as [|[|y run] runs].
  - repeat constructor.
  - repeat constructor.
  - inversion IH as [|? ? Hrun Hruns]; subst.
    destruct (Bool.eqb (record x) (record y)) eqn:E.
    + apply Bool.eqb_prop in E. constructor; [|assumption].
      constructor; [reflexivity|]. simpl in *.
      eapply Forall_impl; [exact Hrun|]. intros i Hi. simpl in Hi. congruence.
    + constructor; [|exact IH]. constructor; [reflexivity|constructor].
Qed.

Lemma maximal_runs_alternate queue : runs_alternate (maximal_runs queue).
Proof.
  induction queue as [|x rest IH]; simpl; [exact I|].
  destruct (maximal_runs rest) as [|[|y run] runs] eqn:E.
  - exact I.
  - exact I.
  - destruct (Bool.eqb (record x) (record y)) eqn:E2.
    + simpl in *. destruct runs as [|r2 rs]; [exact I|].
      destruct IH as [Hd Hrest]. split; [|exact Hrest].
      apply Bool.eqb_prop in E2. congruence.
    + simpl. split; [|exact IH].
      intros Heq. rewrite Heq, Bool.eqb_reflx in E2. discriminate.
Qed.

(** A batch with a change that is not remote reaches the flush. *)
Lemma onDocChanged_flushes (changes : list ChangeOrigin) queue :
  (exists from, from ∈ changes /\ from <> ChangeRemote) ->
  onDocChanged changes queue = flush queue.
Proof.
  intros (from & Hin & Hne). unfold onDocChanged.
  destruct (filter (fun from => from <> ChangeRemote) changes) as [|c l] eqn:E;
    [|reflexivity].
  assert (Hfrom : from ∈ filter (fun from => from <> ChangeRemote) changes)
    by (apply list_elem_of_filter; auto).
  rewrite E in Hfrom. apply not_elem_of_nil in Hfrom. contradiction.
Qed.

(** C2.  The flush cuts the pending queue into its maximal runs of
    equal record flag, runs one transaction per run, in arrival order
    and without moving any item, with the engine's own document as
    origin for recorded runs and the untracked token for the others,
    empties the queue, and fires the applied notification last; a
    queue tagged true, true, false, true gives three transactions. *)
Theorem flush_groups_consecutive_record_runs queue :
  let runs := maximal_runs queue in
  flush queue = ([], map run_transaction runs ++ [LocalChangesApplied])
  /\ concat runs = queue
  /\ Forall (fun run => run <> [] /\ Forall (fun i => record i = run_record run) run) runs
  /\ runs_alternate runs
  /\ (forall a b c d : A,
        flush [mkUpdateItem true a; mkUpdateItem true b;
               mkUpdateItem false c; mkUpdateItem true d]
        = ([], [Transact OriginYDoc [a; b]; Transact OriginNoRecord [c];
                Transact OriginYDoc [d]; LocalChangesApplied])).
Proof.
  intros runs. repeat split.
  - unfold flush. rewrite group_updates_spec. f_equal. f_equal.
    rewrite map_map. reflexivity.
  - apply maximal_runs_concat.
  - apply Forall_and. split; [apply maximal_runs_nonempty|apply maximal_runs_uniform].
  - apply maximal_runs_alternate.
Qed.
End QueueFacts.

(** ** 2. The replay guards *)

Section GuardFacts.
Context {A L : Type}.
Implicit Types (w : World A L) (fn : A).

Lemma runLocalUpdate_during_replay fn r w :
  updateFromRemote w = true -> runLocalUpdate fn r w = w.
Proof. intros H. unfold runLocalUpdate. rewrite H. reflexivity. Qed.

Lemma runLocalUpdate_idle fn r w :
  updateFromRemote w = false ->
  updateRemoteActions (runLocalUpdate fn r w)
  = updateRemoteActions w ++ [mkUpdateItem r fn].
Proof. intros H. unfold runLocalUpdate. rewrite H. reflexivity. Qed.

(** Outside a replay the local edits queue up in order, all recorded. *)
Lemma local_edits_queue (fns : list A) : forall w,
  updateFromRemote w = false ->
  updateFromRemote (local_edits fns w) = false
  /\ updateRemoteActions (local_edits fns w)
     = updateRemoteActions w ++ map (mkUpdateItem true) fns.
Proof.
  induction fns as [|fn rest IH]; intros w Hw.
  - cbn. rewrite app_nil_r. auto.
  - change (local_edits (fn :: rest) w)
      with (local_edits rest (runLocalUpdate_default fn w)).
    destruct (IH (runLocalUpdate_default fn w)) as [Hflag Hqueue].
    { unfold runLocalUpdate_default, runLocalUpdate. rewrite Hw. reflexivity. }
    split; [exact Hflag|]. rewrite Hqueue.
    unfold runLocalUpdate_default. rewrite runLocalUpdate_idle by exact Hw.
    rewrite <- app_assoc. reflexivity.
Qed.

(** A queue of recorded items flushes under the engine's own origin. *)
Lemma recorded_queue_origins (queue : list (UpdateItem A)) origin actions :
  Forall (fun i => record i = true) queue ->
  Transact origin actions ∈ snd (flush queue) ->
  origin = OriginYDoc.
Proof.
  intros Hrec Hin. unfold flush in Hin. cbn [snd] in Hin.
  rewrite group_updates_spec in Hin.
  apply elem_of_app in Hin as [Hin|Hin].
  - apply list_elem_of_In, in_map_iff in Hin as (u & Hu & Hin).
    apply in_map_iff in Hin as (run & <- & Hrun).
    injection Hu as <- _. unfold update_origin, run_update. cbn.
    pose proof (maximal_runs_nonempty queue) as Hne.
    rewrite Forall_forall in Hne. apply list_elem_of_In in Hrun.
    specialize (Hne run Hrun). destruct run as [|x run]; [contradiction|].
    assert (Hx : x ∈ queue).
    { rewrite <- (maximal_runs_concat queue). apply list_elem_of_In, in_concat.
      exists (x :: run). split; [apply list_elem_of_In; exact Hrun|left; reflexivity]. }
    rewrite Forall_forall in Hrec. cbn. rewrite (Hrec x Hx). reflexivity.
  - apply list_elem_of_singleton in Hin. discriminate.
Qed.

(** C3.  An event whose transaction has the engine's own document as
    origin is ignored by the remote replay: whatever the replay
    closure would do, and whether it would run to its end or throw,
    it is not run, and the world (local document, selection, queue,
    flags) is left exactly as it was.  The local edits made outside a
    replay are flushed in transactions of that origin, so none of
    them is applied to the local document a second time. *)
Theorem echo_of_local_origin_is_ignored
    (replay : World A L -> World A L * Outcome) w :
  runRemoteUpdate OriginYDoc replay w = (w, Returned)
  /\ (forall (fns : list A) (w0 : World A L) origin actions,
        updateFromRemote w0 = false ->
        updateRemoteActions w0 = [] ->
        Transact origin actions
        ∈ snd (flush (updateRemoteActions (local_edits fns w0))) ->
        runRemoteUpdate origin replay w = (w, Returned)).
Proof.
  split; [reflexivity|].
  intros fns w0 origin actions Hidle Hempty Hin.
  destruct (local_edits_queue fns w0 Hidle) as [_ Hqueue].
  rewrite Hqueue, Hempty in Hin. cbn [app] in Hin.
  apply recorded_queue_origins in Hin as ->; [reflexivity|].
  apply Forall_forall. intros i Hi.
  apply list_elem_of_In, in_map_iff in Hi as (fn & <- & _). reflexivity.
Qed.

Lemma replay_of_during_replay (mutations : list ((L -> L) * A)) : forall w,
  updateFromRemote w = true ->
  updateFromRemote (replay_of mutations w) = true
  /\ updateRemoteActions (replay_of mutations w) = updateRemoteActions w
  /\ mode (replay_of mutations w) = mode w
  /\ modes_entered (replay_of mutations w) = modes_entered w.
Proof.
  induction mutations as [|[change fn] rest IH]; intros w H; [auto|].
  change (replay_of ((change, fn) :: rest) w)
    with (replay_of rest (local_mutation change fn w)).
  assert (Hstep : local_mutation change fn w = set_localDoc (change (localDoc w)) w).
  { unfold local_mutation, runLocalUpdate_default.
    apply runLocalUpdate_during_replay. exact H. }
  rewrite Hstep.
  exact (IH (set_localDoc (change (localDoc w)) w) H).
Qed.

(** The mutations of a replay reach the local document, in order. *)
Lemma replay_of_localDoc (mutations : list ((L -> L) * A)) : forall w,
  updateFromRemote w = true ->
  localDoc (replay_of mutations w)
  = foldl (fun doc m => fst m doc) (localDoc w) mutations.
Proof.
  induction mutations as [|[change fn] rest IH]; intros w H; [reflexivity|].
  change (replay_of ((change, fn) :: rest) w)
    with (replay_of rest (local_mutation change fn w)).
  assert (Hstep : local_mutation change fn w = set_localDoc (change (localDoc w)) w).
  { unfold local_mutation, runLocalUpdate_default.
    apply runLocalUpdate_during_replay. exact H. }
  rewrite Hstep. rewrite (IH (set_localDoc (change (localDoc w)) w) H). reflexivity.
Qed.

(** What a replay of an origin other than the engine's own leaves. *)
Lemma runRemoteUpdate_replay (origin : Origin) (mutations : list ((L -> L) * A))
    (outcome : Outcome) w :
  origin <> OriginYDoc ->
  let r := runRemoteUpdate origin (replay_then outcome mutations) w in
  snd r = outcome
  /\ updateRemoteActions (fst r) = updateRemoteActions w
  /\ modes_entered (fst r)
     = modes_entered w
       ++ [if decide (origin = OriginManager) then ApplyingHistory else ApplyingRemote]
  /\ localDoc (fst r) = foldl (fun doc m => fst m doc) (localDoc w) mutations
  /\ updateFromRemote (fst r) = match outcome with
                                | Returned => false
                                | Thrown => true
                                end.
Proof.
  intros Hne r. subst r. unfold runRemoteUpdate.
  destruct (decide (origin = OriginYDoc)) as [|_]; [contradiction|].
  assert (Hscoped : forall m,
    let r := scoped m (replay_then outcome mutations) (set_updateFromRemote true w) in
    snd r = outcome
    /\ updateRemoteActions (fst r) = updateRemoteActions w
    /\ modes_entered (fst r) = modes_entered w ++ [m]
    /\ localDoc (fst r) = foldl (fun doc m => fst m doc) (localDoc w) mutations
    /\ updateFromRemote (fst r) = true).
  { intros m. unfold scoped, replay_then. cbn [fst snd].
    match goal with |- context [replay_of mutations ?w1] =>
      destruct (replay_of_during_replay mutations w1 eq_refl) as (Hf & Hq & _ & Hm);
      pose proof (replay_of_localDoc mutations w1 eq_refl) as Hd
    end.
    destruct outcome; cbn [fst snd updateRemoteActions modes_entered localDoc
                             updateFromRemote];
      rewrite ?Hq, ?Hm, ?Hd, ?Hf; auto. }
  unfold historyApplyTransact, remoteUpdateTransact.
  destruct (decide (origin = OriginManager));
    match goal with |- context [scoped ?m _ _] =>
      destruct (Hscoped m) as (Ho & Hq & Hm & Hd & Hf)
    end;
    rewrite Ho; destruct outcome; cbn [fst snd]; auto.
Qed.

End GuardFacts.

Lemma echo_of_local_origin_is_ignored_witness :
  updateFromRemote (mkWorld (A:=nat) false [] Idle [] 0%nat) = false
  /\ Transact OriginYDoc [4; 5]%nat
     ∈ snd (flush
              (updateRemoteActions
                 (local_edits [4; 5]%nat (mkWorld false [] Idle [] 0%nat))))
  /\ runRemoteUpdate OriginYDoc (fun w => (set_localDoc 9%nat w, Thrown))
       (mkWorld false [] Idle [] 0%nat)
     = (mkWorld (A:=nat) false [] Idle [] 0%nat, Returned).
Proof.
  split; [reflexivity|]. split; [left|].
  apply (proj2 (echo_of_local_origin_is_ignored
                  (fun w => (set_localDoc 9%nat w, Thrown))
                  (mkWorld (A:=nat) false [] Idle [] 0%nat))
           [4; 5]%nat (mkWorld false [] Idle [] 0%nat) OriginYDoc [4; 5]%nat);
    [reflexivity|reflexivity|left].
Defined.



(** ** 3. The cursor history *)

Section HistoryFacts.
Context {P S : Type}.
Implicit Types (h : History P S).

Lemma undoable_edit_unfold (stackSize : Z) (item : S) (bp cur : option P) h :
  undoable_edit stackSize (item, bp, cur) h
  = (items ← set_length (index h) (historyItems h);
     Some (evict_oldest stackSize
             (mkHistory (items ++ [Some (mkHistoryPosition bp cur)])
                        (index h + 1) (undoStack h ++ [item]) []),
           [PushEvent; ChangeEvent])).
Proof.
  unfold undoable_edit, on_stack_item_added. cbn.
  destruct (decide (OriginYDoc = OriginManager)) as [Heq|_]; [discriminate Heq|].
  destruct (decide (OriginYDoc = OriginYDoc)) as [_|Hne]; [|contradiction].
  destruct (set_length (index h) (historyItems h)); reflexivity.
Qed.

(** The undo stack itself stays within the configured size. *)
Lemma undo_stack_stays_bounded (stackSize : Z) edit h r :
  0 <= stackSize ->
  Z.of_nat (length (undoStack h)) <= stackSize ->
  undoable_edit stackSize edit h = Some r ->
  Z.of_nat (length (undoStack (fst r))) <= stackSize.
Proof.
  intros Hs Hb. destruct edit as [[item bp] cur].
  rewrite undoable_edit_unfold.
  destruct (set_length (index h) (historyItems h)) as [items|]; cbn; [|discriminate].
  intros [= <-]. cbn. unfold evict_oldest. cbn.
  rewrite length_app. cbn.
  destruct (Z.gtb_spec (Z.of_nat (length (undoStack h) + 1)) stackSize) as [E|E]; cbn.
  - unfold shift. destruct (undoStack h ++ [item]) as [|s l] eqn:El; cbn; [lia|].
    apply (f_equal length) in El. rewrite length_app in El. cbn in El. lia.
  - rewrite length_app. cbn. lia.
Qed.

(** Every undoable edit moves [index] up by one, evicting or not. *)
Lemma undoable_edit_index (stackSize : Z) edit h r :
  undoable_edit stackSize edit h = Some r -> index (fst r) = index h + 1.
Proof.
  destruct edit as [[item bp] cur].
  rewrite undoable_edit_unfold.
  destruct (set_length (index h) (historyItems h)) as [items|]; cbn; [|discriminate].
  intros [= <-]. cbn. unfold evict_oldest. destruct (_ >? stackSize); reflexivity.
Qed.

Lemma undoable_edits_index (stackSize : Z) edits : forall h h',
  undoable_edits stackSize edits h = Some h' ->
  index h' = index h + Z.of_nat (length edits).
Proof.
  induction edits as [|edit rest IH]; intros h h' Hrun; cbn in Hrun.
  - injection Hrun as <-. cbn. lia.
  - destruct (undoable_edit stackSize edit h) as [r|] eqn:E; [|discriminate].
    cbn in Hrun. apply IH in Hrun. apply undoable_edit_index in E.
    rewrite Hrun, E. cbn [length]. lia.
Qed.

Lemma undoable_edits_bounded (stackSize : Z) edits : forall h h',
  0 <= stackSize ->
  Z.of_nat (length (undoStack h)) <= stackSize ->
  undoable_edits stackSize edits h = Some h' ->
  Z.of_nat (length (undoStack h')) <= stackSize.
Proof.
  induction edits as [|edit rest IH]; intros h h' Hs Hb Hrun; cbn in Hrun.
  - injection Hrun as <-. exact Hb.
  - destruct (undoable_edit stackSize edit h) as [r|] eqn:E; [|discriminate].
    cbn in Hrun. apply (IH (fst r) h' Hs); [|exact Hrun].
    eapply undo_stack_stays_bounded; eassumption.
Qed.

(** Past the configured size, [index] is beyond the undo stack: it
    counts every edit, the stack only the ones it kept. *)
Lemma index_outruns_undo_stack (stackSize : Z) edits h' :
  0 <= stackSize ->
  stackSize < Z.of_nat (length edits) ->
  undoable_edits stackSize edits initial_history = Some h' ->
  Z.of_nat (length (undoStack h')) <= stackSize /\ stackSize < index h'.
Proof.
  intros Hs Hlen Hrun. split.
  - apply (undoable_edits_bounded stackSize edits initial_history h' Hs); [cbn; lia|].
    exact Hrun.
  - apply undoable_edits_index in Hrun. rewrite Hrun. cbn. lia.
Qed.

Lemma last_tail_entry {X : Type} (l : list (option X)) :
  last l <> Some None -> last (tail l) <> Some None.
Proof.
  destruct l as [|a [|b l]]; cbn; try congruence.
Qed.

Lemma reachable_last_is_entry (stackSize : Z) h :
  reachable stackSize h -> last_is_entry (historyItems h).
Proof.
  unfold last_is_entry.
  induction 1 as [|h h' undo redo bp cur event notes Hr IH Hstep|h Hr IH|h Hr IH].
  - cbn. discriminate.
  - revert Hstep. unfold on_stack_item_added. cbn.
    assert (Hevict : forall h1 : History P S, last (historyItems h1) <> Some None ->
              last (historyItems (evict_oldest stackSize h1)) <> Some None).
    { intros h1 H1. unfold evict_oldest. destruct (_ >? _); cbn; [|exact H1].
      apply last_tail_entry. exact H1. }
    destruct (event_type event).
    + destruct (decide (event_origin event = OriginManager)); cbn.
      * intros [= <- _]. apply Hevict. exact IH.
      * destruct (set_length (index h) (historyItems h)) as [items|] eqn:El;
          cbn; [|discriminate].
        intros [= <- _]. apply Hevict. cbn.
        rewrite last_snoc. discriminate.
    + intros [= <- _]. apply Hevict. exact IH.
  - unfold clear. destruct (last (historyItems h)) as [[pos|]|]; cbn; discriminate.
  - cbn. discriminate.
Qed.

(** C8.  In every state the history can reach, [clear()] leaves the
    cursor-history list with at most one entry, the last (most recent)
    one if the list had any, sets [index] to 1 if an entry remains and
    to 0 otherwise, and empties both stacks of the undo manager. *)
Theorem clear_keeps_at_most_the_last_entry (stackSize : Z) h :
  reachable stackSize h ->
  let h' := fst (clear h) in
  (length (historyItems h') <= 1)%nat
  /\ historyItems h' = match last (historyItems h) with
                       | Some entry => [entry]
                       | None => []
                       end
  /\ (historyItems h = [] -> historyItems h' = [] /\ index h' = 0)
  /\ (historyItems h <> [] ->
      exists pos, last (historyItems h) = Some (Some pos)
                  /\ historyItems h' = [Some pos] /\ index h' = 1)
  /\ index h' = Z.of_nat (length (historyItems h'))
  /\ undoStack h' = [] /\ redoStack h' = [].
Proof.
  intros Hr. apply reachable_last_is_entry in Hr. unfold last_is_entry in Hr.
  unfold clear. destruct (last (historyItems h)) as [[pos|]|] eqn:El; cbn.
  - split; [lia|]. split; [reflexivity|]. split.
    + intros Hnil. rewrite Hnil in El. discriminate El.
    + split; [|auto]. intros _. exists pos. auto.
  - congruence.
  - apply last_None in El. split; [lia|]. split; [reflexivity|]. split; [auto|].
    split; [|auto]. intros Hne. contradiction.
Qed.
End HistoryFacts.

Lemma clear_keeps_at_most_the_last_entry_witness :
  historyItems
    (fst (clear (mkHistory (P:=nat) (S:=nat)
                   [Some (mkHistoryPosition None (Some 5%nat))] 1 [1%nat] [])))
  = [Some (mkHistoryPosition None (Some 5%nat))].
Proof.
  refine (proj1 (proj2 (clear_keeps_at_most_the_last_entry 3
    (mkHistory [Some (mkHistoryPosition None (Some 5%nat))] 1 [1%nat] []) _))).
  apply (reachable_added 3 initial_history _ [1%nat] [] None (Some 5%nat)
           (mkStackEvent EventUndo OriginYDoc) [PushEvent; ChangeEvent]).
  - apply reachable_initial.
  - reflexivity.
Defined.

(** C7 at a failing input.  With [stackSize = 2], four undoable edits
    leave the undo stack with its two newest items, but the cursor
    history is [h3, <hole>, h4] and [index] is 4: the eviction shifts
    both lists and leaves [index] where it was, so the next edit pads
    the cursor history up to the stale [index] before it pushes. *)
Theorem eviction_leaves_index_behind :
  undoable_edits (P:=nat) (S:=nat) 2
    [(1, None, Some 10); (2, Some 10, Some 20);
     (3, Some 20, Some 30); (4, Some 30, Some 40)]%nat
    initial_history
  = Some (mkHistory
            [Some (mkHistoryPosition (Some 20) (Some 30)); None;
             Some (mkHistoryPosition (Some 30) (Some 40))]%nat
            4 [3; 4]%nat []).
Proof. reflexivity. Qed.

(** ** 4. Runs and ordered maps *)

Lemma string_take_length (n : nat) (s : string) :
  String.length (string_take n s) = Nat.min n (String.length s).
Proof.
  revert s. induction n as [|n IH]; intros [|c s]; simpl; try reflexivity.
  rewrite IH. reflexivity.
Qed.

Lemma string_drop_length (n : nat) (s : string) :
  String.length (string_drop n s) = (String.length s - n)%nat.
Proof.
  revert s. induction n as [|n IH]; intros [|c s]; simpl; try reflexivity.
  apply IH.
Qed.

Global Instance local_run_laws : RunLaws (Insert Component * Formats).
Proof.
  split; intros n [[text|c] f]; simpl; intros Hn0 Hn.
  - rewrite string_take_length. lia.
  - lia.
  - rewrite string_drop_length. lia.
  - lia.
Qed.

Global Instance shared_run_laws {E : Type} : RunLaws (DeltaOp E).
Proof.
  split; intros n [[text|c] a|k a|k]; simpl; intros Hn0 Hn; try lia.
  - rewrite string_take_length. lia.
  - rewrite string_drop_length. lia.
Qed.

Section RunFacts.
Context {R : Type} `{RunLaws R}.
Implicit Types (runs : list R).

Lemma total_length_app runs1 runs2 :
  total_length (runs1 ++ runs2) = (total_length runs1 + total_length runs2)%nat.
Proof.
  induction runs1 as [|r runs1 IH]; simpl; [reflexivity|].
  unfold total_length in *. simpl. rewrite IH. lia.
Qed.

Lemma total_length_cons r runs :
  total_length (r :: runs) = (run_length r + total_length runs)%nat.
Proof. reflexivity. Qed.


(** At the very end nothing is cut. *)
Lemma split_at_end runs :
  Forall (fun r => (0 < run_length r)%nat) runs ->
  split_at (total_length runs) runs = (runs, []).
Proof.
  induction 1 as [|r rest Hr Hrest IH]; [reflexivity|].
  rewrite total_length_cons. cbn [split_at].
  destruct (Nat.eqb_spec (run_length r + total_length rest) 0) as [E|_]; [lia|].
  destruct (Nat.leb_spec (run_length r) (run_length r + total_length rest)) as [_|E];
    [|lia].
  replace (run_length r + total_length rest - run_length r)%nat
    with (total_length rest) by lia.
  rewrite IH. reflexivity.
Qed.

Lemma runs_insert_end r runs :
  Forall (fun r => (0 < run_length r)%nat) runs ->
  runs_insert (total_length runs) r runs = runs ++ [r].
Proof.
  intros Hpos. unfold runs_insert. rewrite split_at_end by exact Hpos.
  reflexivity.
Qed.


End RunFacts.

Section OrderedMapFacts.
Context {K V : Type} `{EqDecision K}.
Implicit Types (m : list (K * V)).

Lemma map_set_fresh k (v : V) m :
  k ∉ fst <$> m -> map_set k v m = m ++ [(k, v)].
Proof.
  induction m as [|[k' v'] m IH]; simpl; intros Hk; [reflexivity|].
  apply not_elem_of_cons in Hk as [Hne Hk].
  destruct (decide (k = k')) as [->|_]; [contradiction|].
  rewrite IH by exact Hk. reflexivity.
Qed.

Lemma map_get_with_get {X : Type} (f : V -> X) k m :
  map_get_with f k m = f <$> map_get k m.
Proof.
  induction m as [|[k' v'] m IH]; simpl; [reflexivity|].
  destruct (decide (k = k')); [reflexivity|exact IH].
Qed.

(** Setting fresh keys one after the other appends them in order. *)
Lemma foldl_map_set_fresh {X : Type} (key : X -> K) (val : X -> V) (l : list X) :
  forall m,
    NoDup (key <$> l) ->
    (forall x, x ∈ l -> key x ∉ fst <$> m) ->
    foldl (fun acc x => map_set (key x) (val x) acc) m l
    = m ++ ((fun x => (key x, val x)) <$> l).
Proof.
  induction l as [|a l IH]; intros m Hnd Hfresh; simpl.
  - rewrite app_nil_r. reflexivity.
  - apply NoDup_cons in Hnd as [Ha Hnd].
    rewrite map_set_fresh by (apply Hfresh; left).
    rewrite IH; [rewrite <- app_assoc; reflexivity|exact Hnd|].
    intros x Hx. rewrite fmap_app. simpl. intros Hin.
    apply elem_of_app in Hin as [Hin|Hin].
    + revert Hin. apply Hfresh. right. exact Hx.
    + apply list_elem_of_singleton in Hin.
      apply Ha. rewrite <- Hin. apply list_elem_of_fmap_2. exact Hx.
Qed.
End OrderedMapFacts.

Section GmapFoldFacts.
Context {X : Type} (key : X -> string) (val : X -> Value).

Lemma foldl_insert_lookup_other (l : list X) : forall (m : gmap string Value) k,
  k ∉ key <$> l ->
  foldl (fun m x => <[key x := val x]> m) m l !! k = m !! k.
Proof.
  induction l as [|a l IH]; intros m k Hk; simpl; [reflexivity|].
  apply not_elem_of_cons in Hk as [Hne Hk].
  rewrite IH by exact Hk. apply lookup_insert_ne. congruence.
Qed.

(** Distinct fresh keys: the map holds the list, in some order. *)
Lemma foldl_insert_to_list (l : list X) : forall (m : gmap string Value),
  NoDup (key <$> l) ->
  (forall x, x ∈ l -> m !! key x = None) ->
  map_to_list (foldl (fun m x => <[key x := val x]> m) m l)
  ≡ₚ ((fun x => (key x, val x)) <$> l) ++ map_to_list m.
Proof.
  induction l as [|a l IH]; intros m Hnd Hfresh; simpl; [reflexivity|].
  apply NoDup_cons in Hnd as [Ha Hnd].
  rewrite IH; [|exact Hnd|].
  - rewrite map_to_list_insert by (apply Hfresh; left).
    rewrite <- Permutation_middle. reflexivity.
  - intros x Hx. rewrite lookup_insert_ne.
    + apply Hfresh. right. exact Hx.
    + intros Heq. apply Ha. rewrite Heq. apply list_elem_of_fmap_2. exact Hx.
Qed.
End GmapFoldFacts.

(** ** 5. The round trip of a local subtree *)

(** Induction over a local tree, through its nested lists. *)
Section LocalInduction.
Variables (P : Local -> Prop) (Q : Slot -> Prop) (R : Component -> Prop).
Hypothesis Hscalar : forall v, P (LScalar v).
Hypothesis Hmap : forall entries, Forall (fun kv => P (snd kv)) entries -> P (LMap entries).
Hypothesis Harray : forall items, Forall P items -> P (LArray items).
Hypothesis Hslot : forall slot, Q slot -> P (LSlot slot).
Hypothesis Hcontent : forall schema attributes content index,
  Forall (fun r => match fst r with
                   | InsertEmbed c => R c
                   | InsertText _ => True
                   end) content ->
  Q (mkSlot schema attributes content index).
Hypothesis Hcomponent : forall name type state,
  Forall (fun kv => P (snd kv)) state -> R (mkComponent name type state).

Fixpoint Local_induction (model : Local) : P model :=
  match model with
  | LScalar v => Hscalar v
  | LMap entries =>
      Hmap entries
        ((fix go (l : list (string * Local)) : Forall (fun kv => P (snd kv)) l :=
            match l with
            | [] => List.Forall_nil _
            | kv :: l' => List.Forall_cons _ _ _ (Local_induction (snd kv)) (go l')
            end) entries)
  | LArray items =>
      Harray items
        ((fix go (l : list Local) : Forall P l :=
            match l with
            | [] => List.Forall_nil _
            | x :: l' => List.Forall_cons _ _ _ (Local_induction x) (go l')
            end) items)
  | LSlot slot => Hslot slot (Slot_induction slot)
  end
with Slot_induction (slot : Slot) : Q slot :=
  match slot with
  | mkSlot schema attributes content index =>
      Hcontent schema attributes content index
        ((fix go (l : list (Insert Component * Formats))
            : Forall (fun r => match fst r with
                               | InsertEmbed c => R c
                               | InsertText _ => True
                               end) l :=
            match l with
            | [] => List.Forall_nil _
            | r :: l' =>
                List.Forall_cons _ _ _
                  (match fst r as i
                         return match i with
                                | InsertEmbed c => R c
                                | InsertText _ => True
                                end with
                   | InsertEmbed c => Component_induction c
                   | InsertText _ => I
                   end)
                  (go l')
            end) content)
  end
with Component_induction (component : Component) : R component :=
  match component with
  | mkComponent name type state =>
      Hcomponent name type state
        ((fix go (l : list (string * Local)) : Forall (fun kv => P (snd kv)) l :=
            match l with
            | [] => List.Forall_nil _
            | kv :: l' => List.Forall_cons _ _ _ (Local_induction (snd kv)) (go l')
            end) state)
  end.
End LocalInduction.

Section RegistryFacts.
Context {O : Type} (lookup : string -> option O) (name : O -> string).

Lemma omap_registered (l : list (O * Value)) :
  Forall (registered lookup name) l ->
  omap (by_name lookup) ((fun item => (name (fst item), snd item)) <$> l) = l.
Proof.
  induction 1 as [|[o v] l Ho Hl IH]; [reflexivity|].
  cbn. unfold by_name at 1. cbn. unfold registered in Ho. cbn in Ho. rewrite Ho.
  cbn. f_equal. exact IH.
Qed.

Lemma registered_names_NoDup (l : list (O * Value)) :
  NoDup (fst <$> l) -> Forall (registered lookup name) l ->
  NoDup ((fun item => name (fst item)) <$> l).
Proof.
  intros Hnd Hreg.
  change ((fun item => name (fst item)) <$> l) with ((name ∘ fst) <$> l).
  rewrite (list_fmap_compose fst name l).
  apply NoDup_fmap_2_strong; [|exact Hnd].
  intros x y Hx Hy Hxy.
  apply list_elem_of_fmap_1 in Hx as [ix [-> Hix]].
  apply list_elem_of_fmap_1 in Hy as [iy [-> Hiy]].
  rewrite Forall_forall in Hreg.
  pose proof (Hreg _ Hix) as Hrx. pose proof (Hreg _ Hiy) as Hry.
  unfold registered in *. rewrite Hxy in Hrx. congruence.
Qed.
End RegistryFacts.

Section FormatFacts.
Variable registry : Registry.

Lemma wf_formats_spec (formats : Formats) :
  wf_formats registry formats = true ->
  NoDup (fst <$> formats)
  /\ Forall (registered (getFormatter registry) formatter_name) formats
  /\ Forall (fun item => snd item <> VNull) formats.
Proof.
  unfold wf_formats. intros H.
  apply andb_prop in H as [Hnd Hall].
  apply bool_decide_eq_true in Hnd. split; [exact Hnd|].
  rewrite forallb_forall in Hall.
  split; apply Forall_forall; intros item Hin;
    apply list_elem_of_In in Hin; specialize (Hall item Hin);
    apply andb_prop in Hall as [H1 H2];
    apply bool_decide_eq_true in H1; apply bool_decide_eq_true in H2; assumption.
Qed.

Lemma wf_attributes_spec (attributes : list (Attribute * Value)) :
  wf_attributes registry attributes = true ->
  NoDup (fst <$> attributes)
  /\ Forall (registered (getAttribute registry) attribute_name) attributes.
Proof.
  unfold wf_attributes. intros H.
  apply andb_prop in H as [Hnd Hall].
  apply bool_decide_eq_true in Hnd. split; [exact Hnd|].
  rewrite forallb_forall in Hall.
  apply Forall_forall; intros item Hin.
  apply list_elem_of_In in Hin. specialize (Hall item Hin).
  apply bool_decide_eq_true in Hall. exact Hall.
Qed.

(** The formats of a run come back from the shared text, in some
    order. *)
Lemma formats_roundtrip (formats : Formats) :
  wf_formats registry formats = true ->
  remoteFormatsToLocal registry (shown_attributes (shared_formats formats)) ≡ₚ formats.
Proof.
  intros Hwf. apply wf_formats_spec in Hwf as (Hnd & Hreg & Hnull).
  pose proof (registered_names_NoDup _ _ formats Hnd Hreg) as Hnames.
  pose proof (foldl_insert_to_list (fun item : Formatter * Value => formatter_name (fst item))
                snd formats ∅ Hnames (fun x _ => lookup_empty _)) as Hlist.
  rewrite map_to_list_empty, app_nil_r in Hlist.
  fold (shared_formats formats) in Hlist.
  assert (Hfilter : filter (fun kv : string * Value => snd kv <> VNull)
                      (shared_formats formats) = shared_formats formats).
  { apply map_filter_id. intros k v Hkv.
    apply elem_of_map_to_list in Hkv. rewrite Hlist in Hkv.
    apply list_elem_of_fmap_1 in Hkv as [item [Heq Hin]].
    rewrite Forall_forall in Hnull. specialize (Hnull item Hin).
    inversion Heq; subst. exact Hnull. }
  unfold shown_attributes. rewrite Hfilter.
  destruct (decide (shared_formats formats = ∅)) as [Hempty|Hne]; cbn.
  - rewrite Hempty, map_to_list_empty in Hlist.
    symmetry in Hlist. apply Permutation_nil_r in Hlist.
    destruct formats; [reflexivity|discriminate].
  - change (omap (by_name (getFormatter registry)) (map_to_list (shared_formats formats))
            ≡ₚ formats).
    rewrite Hlist. rewrite omap_registered by exact Hreg. reflexivity.
Qed.
End FormatFacts.

Section SlotToShared.
Implicit Types (y : YText) (content : list (Insert Component * Formats)).

Lemma shared_run_of_length r :
  run_length (shared_run_of r) = insert_length (fst r).
Proof. destruct r as [[text|c] f]; reflexivity. Qed.

Lemma setAttribute_fold (attributes : list (Attribute * Value)) : forall a d,
  foldl (fun shared item =>
           YText_setAttribute (attribute_name (fst item)) (snd item) shared)
        (mkYText a d) attributes
  = mkYText (foldl (fun m item => <[attribute_name (fst item) := snd item]> m)
                   a attributes) d.
Proof.
  induction attributes as [|item rest IH]; intros a d; [reflexivity|].
  cbn [foldl]. unfold YText_setAttribute at 2. cbn. apply IH.
Qed.

(** The content loop appends one shared entry per local run. *)
Lemma shared_slot_fold content : forall a d,
  Forall (fun op : DeltaOp Shared => (0 < run_length op)%nat) d ->
  Forall (fun r => insert_length (fst r) <> 0%nat) content ->
  foldl (shared_slot_step createSharedComponentByLocalComponent)
        (mkYText a d, total_length d) content
  = (mkYText a (d ++ (shared_run_of <$> content)),
     total_length (d ++ (shared_run_of <$> content))).
Proof.
  induction content as [|r rest IH]; intros a d Hd Hcontent.
  - cbn. rewrite app_nil_r. reflexivity.
  - apply Forall_cons in Hcontent as [Hr Hrest].
    cbn [foldl fmap list_fmap].
    assert (Hstep : shared_slot_step createSharedComponentByLocalComponent
                      (mkYText a d, total_length d) r
                    = (mkYText a (d ++ [shared_run_of r]),
                       total_length (d ++ [shared_run_of r]))).
    { unfold shared_slot_step. rewrite total_length_app.
      replace (total_length [shared_run_of r]) with (insert_length (fst r))
        by (rewrite total_length_cons, shared_run_of_length; cbn; lia).
      f_equal. destruct r as [[text|c] f]; cbn [fst snd] in *.
      - unfold YText_insert. cbn in Hr.
        destruct (Nat.eqb_spec (String.length text) 0) as [E|_]; [contradiction|].
        cbn [YText_getAttributes YText_toDelta].
        rewrite runs_insert_end by exact Hd. reflexivity.
      - unfold YText_insertEmbed. cbn [YText_getAttributes YText_toDelta default].
        rewrite runs_insert_end by exact Hd. reflexivity. }
    rewrite Hstep. rewrite IH; [| |exact Hrest].
    + rewrite <- app_assoc. reflexivity.
    + apply Forall_app. split; [exact Hd|].
      constructor; [|constructor].
      rewrite shared_run_of_length. lia.
Qed.

Lemma createSharedSlotByLocalSlot_spec schema attributes content index :
  Forall (fun r => insert_length (fst r) <> 0%nat) content ->
  createSharedSlotByLocalSlot (mkSlot schema attributes content index)
  = mkYText (foldl (fun m item => <[attribute_name (fst item) := snd item]> m)
                   (<["__schema__" := VContentTypes schema]> ∅) attributes)
            (shared_run_of <$> content).
Proof.
  intros Hcontent. cbn [createSharedSlotByLocalSlot].
  unfold YText_new, YText_setAttribute. cbn [YText_getAttributes YText_toDelta].
  change 0%nat with (total_length (@nil (DeltaOp Shared))) at 1.
  rewrite shared_slot_fold; [|constructor|exact Hcontent].
  cbn [fst app]. apply setAttribute_fold.
Qed.
End SlotToShared.

Section SharedToSlot.
Variable registry : Registry.
Hypothesis reserved : getAttribute registry "__schema__" = None.

Lemma local_attribute_fold (kvs : list (string * Value)) : forall slot,
  foldl (local_attribute_step registry) slot kvs
  = mkSlot (slot_schema slot)
           (foldl (fun acc x => map_set (fst x) (snd x) acc) (slot_attributes slot)
                  (omap (by_name (getAttribute registry)) kvs))
           (slot_content slot) (slot_index slot).
Proof.
  induction kvs as [|kv rest IH]; intros slot.
  - destruct slot; reflexivity.
  - cbn [foldl omap list_omap]. rewrite IH.
    unfold local_attribute_step, by_name.
    destruct (getAttribute registry (fst kv)) as [a|]; reflexivity.
Qed.

Lemma pair_eta_fmap {A B : Type} (l : list (A * B)) :
  (fun x => (fst x, snd x)) <$> l = l.
Proof.
  induction l as [|[a b] l IH]; [reflexivity|]. cbn. f_equal. exact IH.
Qed.

(** The attributes of a slot come back from the shared text, in some
    order, and so does its schema. *)
Lemma attributes_roundtrip schema (attributes : list (Attribute * Value)) :
  wf_attributes registry attributes = true ->
  let m := foldl (fun m item => <[attribute_name (fst item) := snd item]> m)
                 (<["__schema__" := VContentTypes schema]> ∅) attributes in
  m !! "__schema__" = Some (VContentTypes schema)
  /\ exists attributes',
       foldl (local_attribute_step registry) (Slot_new schema) (map_to_list m)
       = mkSlot schema attributes' [] 0
       /\ attributes ≡ₚ attributes'.
Proof.
  intros Hwf m. apply wf_attributes_spec in Hwf as [Hnd Hreg].
  pose proof (registered_names_NoDup _ _ attributes Hnd Hreg) as Hnames.
  assert (Hschema : "__schema__" ∉ (fun item : Attribute * Value =>
                                      attribute_name (fst item)) <$> attributes).
  { intros Hin. apply list_elem_of_fmap_1 in Hin as [item [Heq Hin]].
    rewrite Forall_forall in Hreg. specialize (Hreg item Hin).
    unfold registered in Hreg. rewrite <- Heq, reserved in Hreg. discriminate. }
  split.
  - subst m. rewrite foldl_insert_lookup_other by exact Hschema.
    apply lookup_insert_eq.
  - assert (Hlist : map_to_list m
                    ≡ₚ ((fun item : Attribute * Value =>
                           (attribute_name (fst item), snd item)) <$> attributes)
                       ++ [("__schema__", VContentTypes schema)]).
    { subst m. rewrite foldl_insert_to_list; [|exact Hnames|].
      - rewrite insert_empty, map_to_list_singleton. reflexivity.
      - intros x Hx. rewrite lookup_insert_ne; [apply lookup_empty|].
        intros Heq. apply Hschema. rewrite Heq.
        apply (list_elem_of_fmap_2 (fun item : Attribute * Value =>
                                      attribute_name (fst item))). exact Hx. }
    assert (Hback : omap (by_name (getAttribute registry)) (map_to_list m)
                    ≡ₚ attributes).
    { rewrite Hlist, omap_app, omap_registered by exact Hreg.
      cbn. unfold by_name. cbn. rewrite reserved. rewrite app_nil_r. reflexivity. }
    exists (omap (by_name (getAttribute registry)) (map_to_list m)).
    split; [|symmetry; exact Hback].
    rewrite local_attribute_fold. cbn. f_equal.
    rewrite (foldl_map_set_fresh fst snd).
    + cbn. apply pair_eta_fmap.
    + rewrite Hback. exact Hnd.
    + intros x _. cbn. apply not_elem_of_nil.
Qed.
End SharedToSlot.

Section Containers.
Variable back : Shared -> Result Local.
Variable conv : Local -> Shared.

Let comes_back := comes_back back conv.

Lemma shared_map_spec (entries : list (string * Local)) :
  NoDup (fst <$> entries) ->
  createSharedMapByLocalMap conv entries
  = (fun kv => (fst kv, conv (snd kv))) <$> entries.
Proof.
  intros Hnd. unfold createSharedMapByLocalMap, syncLocalMapToSharedMap.
  rewrite (foldl_map_set_fresh fst (fun kv => conv (snd kv))); [reflexivity|exact Hnd|].
  intros x _. cbn. apply not_elem_of_nil.
Qed.

Lemma shared_array_spec (items : list Local) : forall acc,
  foldl (fun shared value => shared ++ [conv value]) acc items
  = acc ++ (conv <$> items).
Proof.
  induction items as [|x rest IH]; intros acc; cbn.
  - rewrite app_nil_r. reflexivity.
  - rewrite IH, <- app_assoc. reflexivity.
Qed.

Lemma sync_shared_map_fold (entries : list (string * Local)) :
  Forall (fun kv => comes_back (snd kv)) entries ->
  forall acc,
    NoDup (fst <$> entries) ->
    (forall kv, kv ∈ entries -> fst kv ∉ fst <$> acc) ->
    exists entries',
      syncSharedMapToLocalMap back ((fun kv => (fst kv, conv (snd kv))) <$> entries) acc
      = Ok (acc ++ entries')
      /\ Forall2 entry_equiv entries entries'.
Proof.
  induction 1 as [|[k v] rest (v' & Hv & Hequiv) Hrest IH]; intros acc Hnd Hfresh.
  - exists []. rewrite app_nil_r. split; [reflexivity|constructor].
  - rewrite fmap_cons in Hnd. apply NoDup_cons in Hnd as [Hk Hnd].
    cbn [fst snd] in *.
    destruct (IH (acc ++ [(k, v')]) Hnd) as (rest' & Hfold & Hall).
    { intros kv Hkv. rewrite fmap_app. cbn. intros Hin.
      apply elem_of_app in Hin as [Hin|Hin].
      - revert Hin. apply Hfresh. right. exact Hkv.
      - apply list_elem_of_singleton in Hin. apply Hk. rewrite <- Hin.
        apply list_elem_of_fmap_2. exact Hkv. }
    exists ((k, v') :: rest'). split.
    + unfold syncSharedMapToLocalMap in *. cbn [fmap list_fmap foldl fst snd].
      cbn in Hv. rewrite Hv. cbn [mbind Result_bind].
      rewrite map_set_fresh by (apply (Hfresh (k, v)); left).
      rewrite Hfold, <- app_assoc. reflexivity.
    + constructor; [|exact Hall]. split; [reflexivity|exact Hequiv].
Qed.

Lemma map_roundtrip (entries : list (string * Local)) :
  NoDup (fst <$> entries) ->
  Forall (fun kv => comes_back (snd kv)) entries ->
  exists entries',
    createLocalMapBySharedMap back (createSharedMapByLocalMap conv entries)
    = Ok entries'
    /\ Forall2 entry_equiv entries entries'.
Proof.
  intros Hnd Hall. rewrite shared_map_spec by exact Hnd.
  destruct (sync_shared_map_fold entries Hall [] Hnd) as (entries' & Hfold & Hequiv).
  { intros kv _. cbn. apply not_elem_of_nil. }
  exists entries'. split; [exact Hfold|exact Hequiv].
Qed.

Lemma array_roundtrip_fold (items : list Local) :
  Forall comes_back items ->
  forall acc,
    exists items',
      foldl (fun acc item =>
               localArray ← acc;
               value ← back item;
               Ok (localArray ++ [value]))
            (Ok acc) (conv <$> items)
      = Ok (acc ++ items')
      /\ Forall2 local_equiv items items'.
Proof.
  induction 1 as [|v rest (v' & Hv & Hequiv) Hrest IH]; intros acc.
  - exists []. rewrite app_nil_r. split; [reflexivity|constructor].
  - destruct (IH (acc ++ [v'])) as (rest' & Hfold & Hall).
    exists (v' :: rest'). split.
    + cbn [fmap list_fmap foldl]. rewrite Hv. cbn [mbind Result_bind].
      rewrite Hfold, <- app_assoc. reflexivity.
    + constructor; assumption.
Qed.

Lemma array_roundtrip (items : list Local) :
  Forall comes_back items ->
  exists items',
    createLocalArrayBySharedArray back (createSharedArrayByLocalArray conv items)
    = Ok items'
    /\ Forall2 local_equiv items items'.
Proof.
  intros Hall. unfold createSharedArrayByLocalArray, createLocalArrayBySharedArray.
  rewrite shared_array_spec. cbn [app].
  destruct (array_roundtrip_fold items Hall []) as (items' & Hfold & Hequiv).
  exists items'. split; [exact Hfold|exact Hequiv].
Qed.
End Containers.

Section SlotSteps.
Variable registry : Registry.
Variable back_component : Shared -> Result Component.

(** A text that is not empty goes into the slot. *)
Lemma local_slot_step_text slot text attributes :
  String.length text <> 0%nat ->
  local_slot_step registry back_component (Ok slot) (OpInsert (InsertText text) attributes)
  = Ok (Slot_insert (InsertText text) (remoteFormatsToLocal registry attributes) slot).
Proof.
  intros Hlen. cbn [local_slot_step mbind Result_bind insert_truthy].
  destruct (Nat.eqb_spec (String.length text) 0) as [E|_]; [contradiction|].
  reflexivity.
Qed.

(** An embedded shared map is handed to the conversion of components. *)
Lemma local_slot_step_map slot entries attributes :
  local_slot_step registry back_component (Ok slot)
    (OpInsert (InsertEmbed (SMap entries)) attributes)
  = (component ← back_component (SMap entries);
     Ok (Slot_insert (InsertEmbed component)
           (remoteFormatsToLocal registry attributes) slot)).
Proof. reflexivity. Qed.

Lemma shared_component_is_map (component : Component) :
  exists entries, createSharedComponentByLocalComponent component = SMap entries.
Proof. destruct component as [name type state]. eexists. reflexivity. Qed.
End SlotSteps.

Section ContentBack.
Variable registry : Registry.

Lemma component_equiv_type c c' :
  component_equiv c c' -> component_type c' = component_type c.
Proof. intros Hequiv. destruct Hequiv. reflexivity. Qed.

(** The content loop of [createLocalSlotBySharedSlot] appends one
    local run per shared entry. *)
Lemma local_slot_fold schema attrs (content : list (Insert Component * Formats)) :
  Forall (fun r => match fst r with
                   | InsertEmbed c => component_comes_back registry c
                   | InsertText _ => True
                   end) content ->
  forallb (wf_run registry (wf_component registry) schema) content = true ->
  forall acc,
    Forall (fun r : Insert Component * Formats => (0 < run_length r)%nat) acc ->
    exists content',
      foldl (local_slot_step registry (createLocalComponentBySharedComponent registry))
            (Ok (mkSlot schema attrs acc (total_length acc)))
            (shared_run_of <$> content)
      = Ok (mkSlot schema attrs (acc ++ content') (total_length (acc ++ content')))
      /\ Forall2 run_equiv content content'.
Proof.
  induction 1 as [|r rest Hr Hrest IH]; intros Hwf acc Hacc.
  - exists []. rewrite app_nil_r. split; [reflexivity|constructor].
  - cbn [forallb] in Hwf. apply andb_prop in Hwf as [Hwr Hwrest].
    unfold wf_run in Hwr.
    apply andb_prop in Hwr as [Hwr Hcomp].
    apply andb_prop in Hwr as [Hwr Hschema].
    apply andb_prop in Hwr as [Hformats Hlen].
    apply bool_decide_eq_true in Hschema.
    apply negb_true_iff in Hlen. apply Nat.eqb_neq in Hlen.
    pose proof (formats_roundtrip registry (snd r) Hformats) as Hperm.
    assert (Hstep : exists r',
      local_slot_step registry (createLocalComponentBySharedComponent registry)
        (Ok (mkSlot schema attrs acc (total_length acc))) (shared_run_of r)
      = Ok (mkSlot schema attrs (acc ++ [r']) (total_length (acc ++ [r'])))
      /\ run_equiv r r' /\ (0 < run_length r')%nat).
    { destruct r as [[text|c] f]; cbn [fst snd] in *.
      - exists (InsertText text,
                remoteFormatsToLocal registry (shown_attributes (shared_formats f))).
        split; [|split].
        + unfold shared_run_of. cbn [fst snd].
          rewrite local_slot_step_text by exact Hlen.
          f_equal. unfold Slot_insert.
          cbn [slot_schema slot_attributes slot_content slot_index insert_type
               insert_length].
          rewrite bool_decide_eq_true_2 by exact Hschema.
          destruct (Nat.eqb_spec (String.length text) 0) as [E|_]; [contradiction|].
          cbn [andb negb]. rewrite runs_insert_end by exact Hacc.
          rewrite total_length_app. f_equal; cbn; lia.
        + split; [constructor|]. cbn. symmetry. exact Hperm.
        + cbn. cbn in Hlen. lia.
      - destruct (Hr Hcomp) as (c' & Hback & Hequiv).
        exists (InsertEmbed c',
                remoteFormatsToLocal registry (shown_attributes (shared_formats f))).
        split; [|split].
        + unfold shared_run_of. cbn [fst snd].
          destruct (shared_component_is_map c) as [entries Hmap].
          rewrite Hmap in *. rewrite local_slot_step_map, Hback.
          cbn [mbind Result_bind].
          f_equal. unfold Slot_insert.
          cbn [slot_schema slot_attributes slot_content slot_index insert_type
               insert_length].
          rewrite (component_equiv_type c c' Hequiv).
          rewrite bool_decide_eq_true_2 by exact Hschema.
          cbn [andb negb Nat.eqb]. rewrite runs_insert_end by exact Hacc.
          rewrite total_length_app. f_equal; cbn; lia.
        + split; [constructor; exact Hequiv|]. cbn. symmetry. exact Hperm.
        + cbn. lia. }
    destruct Hstep as (r' & Hstep & Hequiv & Hpos).
    destruct (IH Hwrest (acc ++ [r'])) as (rest' & Hfold & Hall).
    { apply Forall_app. split; [exact Hacc|]. constructor; [exact Hpos|constructor]. }
    exists (r' :: rest'). split.
    + cbn [fmap list_fmap foldl]. rewrite Hstep, Hfold, <- app_assoc. reflexivity.
    + constructor; assumption.
Qed.
End ContentBack.

Section RoundTrip.
Variable registry : Registry.
Hypothesis reserved : getAttribute registry "__schema__" = None.

Let back := createLocalModelBySharedByModel registry.
Let model_ok (model : Local) : Prop :=
  wf_local registry model = true ->
  comes_back back createSharedModelByLocalModel model.
Let slot_ok (slot : Slot) : Prop :=
  wf_slot registry slot = true ->
  exists slot',
    createLocalSlotBySharedSlot registry (createSharedSlotByLocalSlot slot) = Ok slot'
    /\ slot_equiv slot slot'.

Lemma entries_come_back (entries : list (string * Local)) :
  Forall (fun kv => model_ok (snd kv)) entries ->
  forallb (fun kv => wf_local registry (snd kv)) entries = true ->
  Forall (fun kv => comes_back back createSharedModelByLocalModel (snd kv)) entries.
Proof.
  intros Hall Hwf. rewrite forallb_forall in Hwf.
  rewrite Forall_forall in *. intros kv Hin.
  apply (Hall kv Hin). apply Hwf. apply list_elem_of_In. exact Hin.
Qed.

Lemma roundtrip_scalar v : model_ok (LScalar v).
Proof. intros _. exists (LScalar v). split; [reflexivity|constructor]. Qed.

Lemma roundtrip_map entries :
  Forall (fun kv => model_ok (snd kv)) entries -> model_ok (LMap entries).
Proof.
  intros Hall Hwf. cbn [wf_local] in Hwf.
  apply andb_prop in Hwf as [Hnd Hwf]. apply bool_decide_eq_true in Hnd.
  destruct (map_roundtrip back createSharedModelByLocalModel entries Hnd
              (entries_come_back entries Hall Hwf)) as (entries' & Hback & Hequiv).
  exists (LMap entries'). split; [|constructor; exact Hequiv].
  unfold back in *. cbn [createSharedModelByLocalModel createLocalModelBySharedByModel].
  rewrite Hback. reflexivity.
Qed.

Lemma roundtrip_array items :
  Forall model_ok items -> model_ok (LArray items).
Proof.
  intros Hall Hwf. cbn [wf_local] in Hwf.
  assert (Hcome : Forall (comes_back back createSharedModelByLocalModel) items).
  { rewrite forallb_forall in Hwf. rewrite Forall_forall in *. intros x Hin.
    apply (Hall x Hin). apply Hwf. apply list_elem_of_In. exact Hin. }
  destruct (array_roundtrip back createSharedModelByLocalModel items Hcome)
    as (items' & Hback & Hequiv).
  exists (LArray items'). split; [|constructor; exact Hequiv].
  unfold back in *. cbn [createSharedModelByLocalModel createLocalModelBySharedByModel].
  rewrite Hback. reflexivity.
Qed.

Lemma roundtrip_lslot slot : slot_ok slot -> model_ok (LSlot slot).
Proof.
  intros Hslot Hwf. cbn [wf_local] in Hwf.
  destruct (Hslot Hwf) as (slot' & Hback & Hequiv).
  exists (LSlot slot'). split; [|constructor; exact Hequiv].
  unfold back. cbn [createSharedModelByLocalModel createLocalModelBySharedByModel].
  rewrite Hback. reflexivity.
Qed.

Lemma wf_content_lengths schema (content : list (Insert Component * Formats)) :
  forallb (wf_run registry (wf_component registry) schema) content = true ->
  Forall (fun r => insert_length (fst r) <> 0%nat) content.
Proof.
  intros Hwf. rewrite forallb_forall in Hwf. apply Forall_forall. intros r Hin.
  apply list_elem_of_In in Hin. specialize (Hwf r Hin). unfold wf_run in Hwf.
  apply andb_prop in Hwf as [Hwf _]. apply andb_prop in Hwf as [Hwf _].
  apply andb_prop in Hwf as [_ Hlen].
  apply negb_true_iff in Hlen. apply Nat.eqb_neq in Hlen. exact Hlen.
Qed.

Lemma roundtrip_slot schema attributes content index :
  Forall (fun r => match fst r with
                   | InsertEmbed c => component_comes_back registry c
                   | InsertText _ => True
                   end) content ->
  slot_ok (mkSlot schema attributes content index).
Proof.
  intros Hcontent Hwf. cbn [wf_slot] in Hwf.
  apply andb_prop in Hwf as [Hattrs Hruns].
  rewrite createSharedSlotByLocalSlot_spec by (eapply wf_content_lengths; exact Hruns).
  destruct (attributes_roundtrip registry reserved schema attributes Hattrs)
    as (Hschema & attributes' & Hfold & Hperm).
  destruct (local_slot_fold registry schema attributes' content Hcontent Hruns [])
    as (content' & Hloop & Hequiv); [constructor|].
  exists (mkSlot schema attributes' content' (total_length content')).
  split; [|constructor; [exact Hperm|exact Hequiv]].
  cbn [createLocalSlotBySharedSlot]. rewrite Hschema. cbn [schema_or_empty].
  rewrite Hfold. exact Hloop.
Qed.

Lemma shared_component_shape name (sharedState : Shared) :
  map_set "state" sharedState (map_set "name" (SScalar (VString name)) [])
  = [("name", SScalar (VString name)); ("state", sharedState)].
Proof. reflexivity. Qed.

Lemma roundtrip_component name type state :
  Forall (fun kv => model_ok (snd kv)) state ->
  component_comes_back registry (mkComponent name type state).
Proof.
  intros Hall Hwf. cbn [wf_component] in Hwf.
  apply andb_prop in Hwf as [Hwf Hstate]. apply andb_prop in Hwf as [Hreg Hnd].
  apply bool_decide_eq_true in Hreg. apply bool_decide_eq_true in Hnd.
  destruct (map_roundtrip back createSharedModelByLocalModel state Hnd
              (entries_come_back state Hall Hstate)) as (state' & Hback & Hequiv).
  exists (mkComponent name type state'). split; [|constructor; exact Hequiv].
  cbn [createSharedComponentByLocalComponent]. rewrite shared_component_shape.
  cbn [createLocalComponentBySharedComponent].
  change (map_get "name" _) with (Some (SScalar (VString name))).
  cbn [as_string]. unfold createComponentByData. rewrite Hreg.
  change (map_get_with _ "state" _)
    with (Some (createLocalMapBySharedMap back
                  (createSharedMapByLocalMap createSharedModelByLocalModel state))).
  rewrite Hback. reflexivity.
Qed.

(** C1.  Under a registry that keeps no attribute under the reserved
    name ['__schema__'], every well-formed local subtree (formatters,
    attributes and component names registered, each used once per
    run, slot or map, no null format value, no empty run, content of
    the types the slot's schema accepts) converted to its shared form
    and back gives a tree equivalent to it: same content sequence,
    same formats on every run, same slot attributes and schema, same
    nested components.  This holds for a model value, for a slot and
    for a component. *)
Theorem local_shared_local_roundtrip :
  (forall model : Local,
      wf_local registry model = true ->
      exists model',
        createLocalModelBySharedByModel registry (createSharedModelByLocalModel model)
        = Ok model'
        /\ local_equiv model model')
  /\ (forall slot : Slot,
        wf_slot registry slot = true ->
        exists slot',
          createLocalSlotBySharedSlot registry (createSharedSlotByLocalSlot slot)
          = Ok slot'
          /\ slot_equiv slot slot')
  /\ (forall component : Component,
        wf_component registry component = true ->
        exists component',
          createLocalComponentBySharedComponent registry
            (createSharedComponentByLocalComponent component) = Ok component'
          /\ component_equiv component component').
Proof.
  split; [|split].
  - exact (Local_induction model_ok slot_ok (component_comes_back registry)
             roundtrip_scalar roundtrip_map roundtrip_array roundtrip_lslot
             roundtrip_slot roundtrip_component).
  - exact (Slot_induction model_ok slot_ok (component_comes_back registry)
             roundtrip_scalar roundtrip_map roundtrip_array roundtrip_lslot
             roundtrip_slot roundtrip_component).
  - exact (Component_induction model_ok slot_ok (component_comes_back registry)
             roundtrip_scalar roundtrip_map roundtrip_array roundtrip_lslot
             roundtrip_slot roundtrip_component).
Qed.
End RoundTrip.

Lemma local_shared_local_roundtrip_witness :
  getAttribute sample_registry "__schema__" = None
  /\ wf_slot sample_registry sample_slot = true
  /\ exists slot',
       createLocalSlotBySharedSlot sample_registry
         (createSharedSlotByLocalSlot sample_slot) = Ok slot'
       /\ slot_equiv sample_slot slot'.
Proof.
  split; [reflexivity|]. split; [reflexivity|].
  apply (proj1 (proj2 (local_shared_local_roundtrip sample_registry eq_refl))).
  reflexivity.
Defined.

(** ** 6. Selection shifts of the remote replay *)

Section SelectionFacts.
Variable registry : Registry.
Variable origin : Origin.
Variable slotId : nat.

Lemma selection_after_insert_history localSlot index length sel :
  selection_after_insert OriginManager localSlot index length sel = sel.
Proof.
  unfold selection_after_insert.
  rewrite bool_decide_eq_false_2 by (intros H; apply H; reflexivity).
  rewrite andb_false_r. reflexivity.
Qed.

Lemma selection_after_delete_history localSlot index count sel :
  selection_after_delete OriginManager localSlot index count sel = sel.
Proof.
  unfold selection_after_delete.
  rewrite bool_decide_eq_false_2 by (intros H; apply H; reflexivity).
  rewrite andb_false_r. reflexivity.
Qed.

Lemma selection_after_insert_spec index length sel :
  isSelected sel = true ->
  origin <> OriginManager ->
  let sel' := selection_after_insert origin slotId index length sel in
  (anchorSlot sel = Some slotId -> index < anchorOffset sel ->
   anchorOffset sel' = anchorOffset sel + length)
  /\ (anchorOffset sel <= index -> anchorOffset sel' = anchorOffset sel)
  /\ (focusSlot sel = Some slotId -> index < focusOffset sel ->
      focusOffset sel' = focusOffset sel + length)
  /\ (focusOffset sel <= index -> focusOffset sel' = focusOffset sel).
Proof.
  intros Hsel Hor sel'. subst sel'. unfold selection_after_insert.
  rewrite Hsel, bool_decide_eq_true_2 by exact Hor. cbn [andb].
  destruct (bool_decide_reflect (anchorSlot sel = Some slotId)) as [Ha|Ha];
    destruct (Z.gtb_spec (anchorOffset sel) index) as [Hai|Hai]; cbn [andb];
    (destruct (bool_decide_reflect (focusSlot sel = Some slotId)) as [Hf|Hf];
     destruct (Z.gtb_spec (focusOffset sel) index) as [Hfi|Hfi]; cbn [andb];
     cbn; rewrite ?bool_decide_eq_true_2 by assumption;
     rewrite ?bool_decide_eq_false_2 by assumption; cbn;
     repeat match goal with
            | |- context [?a >? ?b] => destruct (Z.gtb_spec a b); try lia
            end; cbn;
     repeat split; intros; try reflexivity; try contradiction; try lia).
Qed.

(** What the [delete] branch does to the endpoints: the focus goes
    back by the deleted count from its own offset, the anchor from
    the start of the selection; neither is held at the place of the
    deletion. *)
Lemma selection_after_delete_spec index count sel :
  isSelected sel = true ->
  origin <> OriginManager ->
  let sel' := selection_after_delete origin slotId index count sel in
  (anchorSlot sel = Some slotId -> index <= anchorOffset sel ->
   anchorOffset sel' = startOffset sel - count)
  /\ (focusSlot sel = Some slotId -> index <= focusOffset sel ->
      focusOffset sel' = focusOffset sel - count).
Proof.
  intros Hsel Hor sel'. subst sel'. unfold selection_after_delete.
  rewrite Hsel, bool_decide_eq_true_2 by exact Hor. cbn [andb].
  split.
  - intros Ha Hai.
    rewrite (bool_decide_eq_true_2 (anchorSlot sel = Some slotId)) by exact Ha.
    destruct (Z.geb_spec (anchorOffset sel) index) as [_|E]; [|lia]. cbn [andb].
    destruct (_ && _); reflexivity.
  - intros Hf Hfi.
    assert (Hkeep : forall s,
      (if bool_decide (anchorSlot sel = Some slotId) && (anchorOffset sel >=? index)
       then setAnchor slotId s sel else sel) = sel
      \/ (if bool_decide (anchorSlot sel = Some slotId) && (anchorOffset sel >=? index)
          then setAnchor slotId s sel else sel) = setAnchor slotId s sel).
    { intros s. destruct (_ && _); auto. }
    destruct (Hkeep (startOffset sel - count)) as [-> | ->]; cbn [setAnchor focusSlot focusOffset];
      rewrite bool_decide_eq_true_2 by exact Hf;
      (destruct (Z.geb_spec (focusOffset sel) index) as [_|E]; [|lia]);
      reflexivity.
Qed.
End SelectionFacts.

(** C5, as the code has it.  When a remote insertion is replayed into
    a slot under a live selection, whether it inserts a text that is
    not empty (of the length of the text) or an embedded component
    that can be built (of length 1), an endpoint in that slot whose
    offset is strictly behind the place of the insertion moves forward
    by the inserted length, and an endpoint at or before that place
    stays; an embedded string is a text; an insertion of nothing
    changes neither the slot nor the selection, and an embedded
    component that cannot be built stops the replay.  A replay of the
    undo manager changes the selection neither on insertion nor on
    deletion.  With the anchor at offset 5, a remote insertion of
    three units at offset 2 moves it to 8. *)
Theorem remote_insert_shifts_endpoints_behind_it
    (registry : Registry) (origin : Origin) (slotId : nat)
    (localSlot : Slot) (sel : Selection) (attributes : option (gmap string Value)) :
  isSelected sel = true ->
  let index := Z.of_nat (slot_index localSlot) in
  (forall text,
      String.length text <> 0%nat ->
      exists sel',
        remote_delta_step registry origin slotId (Ok (localSlot, sel))
          (OpInsert (InsertText text) attributes)
        = Ok (Slot_insert (InsertText text) (remoteFormatsToLocal registry attributes)
                localSlot, sel')
        /\ endpoints_shifted origin slotId index (Z.of_nat (String.length text)) sel sel')
  /\ (forall embed component,
        createLocalComponentBySharedComponent registry embed = Ok component ->
        exists sel',
          remote_delta_step registry origin slotId (Ok (localSlot, sel))
            (OpInsert (InsertEmbed embed) attributes)
          = Ok (Slot_insert (InsertEmbed component) [] localSlot, sel')
          /\ endpoints_shifted origin slotId index 1 sel sel')
  /\ (forall text,
        remote_delta_step registry origin slotId (Ok (localSlot, sel))
          (OpInsert (InsertEmbed (SScalar (VString text))) attributes)
        = remote_delta_step registry origin slotId (Ok (localSlot, sel))
            (OpInsert (InsertText text) attributes))
  /\ (forall insert,
        insert_truthy insert = false ->
        remote_delta_step registry origin slotId (Ok (localSlot, sel))
          (OpInsert insert attributes)
        = Ok (localSlot, sel))
  /\ (forall embed e,
        shared_truthy embed = true ->
        createLocalComponentBySharedComponent registry embed = Throw e ->
        (forall text, embed <> SScalar (VString text)) ->
        remote_delta_step registry origin slotId (Ok (localSlot, sel))
          (OpInsert (InsertEmbed embed) attributes)
        = Throw e)
  /\ (forall count,
        selection_after_delete OriginManager slotId index count sel = sel)
  /\ snd <$> syncRemote registry (OriginRemote 1) 1 YText_new
               (mkYTextEvent [] [OpRetain 2 None; OpInsert (InsertText "xyz") None])
               (sample_text, caret_at_5)
     = Ok (mkSelection (Some 1%nat) 8 (Some 1%nat) 8 true).
Proof.
  intros Hsel index.
  assert (Hshift : forall length,
    endpoints_shifted origin slotId index length sel
      (selection_after_insert origin slotId index length sel)).
  { intros length. split.
    - intros Hor. apply selection_after_insert_spec; assumption.
    - intros ->. apply selection_after_insert_history. }
  split; [|split; [|split; [|split; [|split; [|split]]]]].
  - intros text Hlen.
    exists (selection_after_insert origin slotId index
              (Z.of_nat (String.length text)) sel).
    split; [|apply Hshift].
    cbn [remote_delta_step mbind Result_bind insert_truthy].
    destruct (Nat.eqb_spec (String.length text) 0) as [E|_]; [contradiction|].
    reflexivity.
  - intros embed component Hback.
    exists (selection_after_insert origin slotId index 1 sel).
    split; [|apply Hshift].
    destruct embed as [v|entries|items|text];
      try (cbn [createLocalComponentBySharedComponent] in Hback; discriminate).
    cbn [remote_delta_step mbind Result_bind insert_truthy shared_truthy].
    rewrite Hback. reflexivity.
  - intros text. reflexivity.
  - intros insert Hfalsy. cbn [remote_delta_step mbind Result_bind].
    rewrite Hfalsy. reflexivity.
  - intros embed e Htruthy Hback Hstring.
    cbn [remote_delta_step mbind Result_bind insert_truthy]. rewrite Htruthy.
    destruct embed as [[| | |text|]|entries|items|text];
      try (rewrite Hback; reflexivity).
    exfalso. apply (Hstring text). reflexivity.
  - intros count. apply selection_after_delete_history.
  - reflexivity.
Qed.

Lemma remote_insert_shifts_endpoints_behind_it_witness :
  isSelected caret_at_5 = true
  /\ (exists sel',
        remote_delta_step sample_registry (OriginRemote 1) 1
          (Ok (Slot_retain 2 sample_text, caret_at_5))
          (OpInsert (InsertText "xyz") None)
        = Ok (Slot_insert (InsertText "xyz") [] (Slot_retain 2 sample_text), sel')
        /\ anchorOffset sel' = 8)
  /\ (exists component sel',
        remote_delta_step sample_registry (OriginRemote 1) 1
          (Ok (Slot_retain 2 sample_slot, caret_at_5))
          (OpInsert (InsertEmbed (createSharedComponentByLocalComponent sample_image)) None)
        = Ok (Slot_insert (InsertEmbed component) [] (Slot_retain 2 sample_slot), sel')
        /\ anchorOffset sel' = 6).
Proof.
  split; [reflexivity|]. split.
  - destruct (proj1 (remote_insert_shifts_endpoints_behind_it sample_registry
                       (OriginRemote 1) 1 (Slot_retain 2 sample_text) caret_at_5 None
                       eq_refl) "xyz")
      as (sel' & Hstep & Hshift & _); [discriminate|].
    exists sel'. split; [exact Hstep|].
    destruct (Hshift ltac:(discriminate)) as (Hanchor & _).
    apply Hanchor; [reflexivity|reflexivity].
  - destruct (createLocalComponentBySharedComponent sample_registry
                (createSharedComponentByLocalComponent sample_image))
      as [component|e] eqn:Hback; [|vm_compute in Hback; discriminate].
    destruct (proj1 (proj2 (remote_insert_shifts_endpoints_behind_it sample_registry
                       (OriginRemote 1) 1 (Slot_retain 2 sample_slot) caret_at_5 None
                       eq_refl))
                (createSharedComponentByLocalComponent sample_image) component Hback)
      as (sel' & Hstep & Hshift & _).
    exists component, sel'. split; [exact Hstep|].
    destruct (Hshift ltac:(discriminate)) as (Hanchor & _).
    apply Hanchor; [reflexivity|reflexivity].
Defined.

(** C5 as stated fails: a remote insertion at the very offset of the
    anchor leaves the anchor where it was. *)
Lemma remote_insert_at_endpoint_does_not_shift :
  snd <$> syncRemote sample_registry (OriginRemote 1) 1 YText_new
            (mkYTextEvent [] [OpRetain 5 None; OpInsert (InsertText "xyz") None])
            (sample_text, caret_at_5)
  = Ok caret_at_5
  /\ anchorOffset caret_at_5 <> 5 + 3.
Proof. split; [reflexivity|discriminate]. Qed.

(** C4 at failing inputs.  The caret stands at offset 5 of a slot of
    eight units.  A remote deletion of three units from offset 4, which
    spans the caret, puts both endpoints at 2, before the start of the
    deletion; a remote deletion of two units from offset 5, which
    removes nothing before the caret, puts them at 3.  With the anchor
    at 5 and the focus at 2, a remote deletion of the first unit puts
    the anchor at 1: it is computed from the start of the selection,
    not from the anchor. *)
Theorem remote_delete_is_not_clamped :
  snd <$> syncRemote sample_registry (OriginRemote 1) 1 YText_new
            (mkYTextEvent [] [OpRetain 4 None; OpDelete 3]) (sample_text, caret_at_5)
  = Ok (mkSelection (Some 1%nat) 2 (Some 1%nat) 2 true)
  /\ snd <$> syncRemote sample_registry (OriginRemote 1) 1 YText_new
               (mkYTextEvent [] [OpRetain 5 None; OpDelete 2]) (sample_text, caret_at_5)
     = Ok (mkSelection (Some 1%nat) 3 (Some 1%nat) 3 true)
  /\ snd <$> syncRemote sample_registry (OriginRemote 1) 1 YText_new
               (mkYTextEvent [] [OpDelete 1]) (sample_text, backward_5_2)
     = Ok (mkSelection (Some 1%nat) 1 (Some 1%nat) 1 true)
  /\ snd <$> syncRemote sample_registry (OriginRemote 1) 1 YText_new
               (mkYTextEvent [] [OpRetain 1 None; OpDelete 2]) (sample_text, caret_at_5)
     = Ok (mkSelection (Some 1%nat) 3 (Some 1%nat) 3 true).
Proof. repeat split. Qed.

(** ** 7. Deltas that are not made of insertions *)

(** Induction over a shared value, through its nested lists. *)
Section SharedInduction.
Variables (P : Shared -> Prop) (Q : YText -> Prop).
Hypothesis Hscalar : forall v, P (SScalar v).
Hypothesis Hmap : forall entries, Forall (fun kv => P (snd kv)) entries -> P (SMap entries).
Hypothesis Harray : forall items, Forall P items -> P (SArray items).
Hypothesis Htext : forall text, Q text -> P (SText text).
Hypothesis Hdelta : forall attributes delta,
  Forall (fun op => match op with
                    | OpInsert (InsertEmbed e) _ => P e
                    | _ => True
                    end) delta ->
  Q (mkYText attributes delta).

Fixpoint Shared_induction (model : Shared) : P model :=
  match model with
  | SScalar v => Hscalar v
  | SMap entries =>
      Hmap entries
        ((fix go (l : list (string * Shared)) : Forall (fun kv => P (snd kv)) l :=
            match l with
            | [] => List.Forall_nil _
            | kv :: l' => List.Forall_cons _ _ _ (Shared_induction (snd kv)) (go l')
            end) entries)
  | SArray items =>
      Harray items
        ((fix go (l : list Shared) : Forall P l :=
            match l with
            | [] => List.Forall_nil _
            | x :: l' => List.Forall_cons _ _ _ (Shared_induction x) (go l')
            end) items)
  | SText text => Htext text (YText_induction text)
  end
with YText_induction (text : YText) : Q text :=
  match text with
  | mkYText attributes delta =>
      Hdelta attributes delta
        ((fix go (l : list (DeltaOp Shared))
            : Forall (fun op => match op with
                                | OpInsert (InsertEmbed e) _ => P e
                                | _ => True
                                end) l :=
            match l with
            | [] => List.Forall_nil _
            | op :: l' =>
                List.Forall_cons _ _ _
                  (match op as o
                         return match o with
                                | OpInsert (InsertEmbed e) _ => P e
                                | _ => True
                                end with
                   | OpInsert (InsertEmbed e) _ => Shared_induction e
                   | OpInsert (InsertText _) _ => I
                   | OpRetain _ _ => I
                   | OpDelete _ => I
                   end)
                  (go l')
            end) delta)
  end.
End SharedInduction.

Section DeltaShape.
Variable registry : Registry.

Let back := createLocalModelBySharedByModel registry.
Let back_component := createLocalComponentBySharedComponent registry.

Lemma local_slot_fold_throw (delta : list (DeltaOp Shared)) e :
  foldl (local_slot_step registry back_component) (Throw e) delta = Throw e.
Proof. induction delta as [|op rest IH]; [reflexivity|]. cbn. exact IH. Qed.



Lemma not_unexpected_fmap {A B : Type} (f : A -> B) (r : Result A) :
  not_unexpected r -> not_unexpected (f <$> r).
Proof. unfold not_unexpected. destruct r; cbn; congruence. Qed.

Lemma not_unexpected_fmap_inv {A B : Type} (f : A -> B) (r : Result A) :
  not_unexpected (f <$> r) -> not_unexpected r.
Proof. unfold not_unexpected. destruct r; cbn; congruence. Qed.

Lemma not_unexpected_throw {A B : Type} e :
  not_unexpected (@Throw A e) -> not_unexpected (@Throw B e).
Proof. unfold not_unexpected. intros H Heq. apply H. congruence. Qed.

(** A loop over results keeps clear of the unexpected-delta error
    when each of its turns does. *)
Lemma not_unexpected_foldl {A X : Type} (step : Result A -> X -> Result A)
    (l : list X) :
  (forall e x, step (Throw e) x = Throw e) ->
  Forall (fun x => forall a, not_unexpected (step (Ok a) x)) l ->
  forall acc, not_unexpected acc -> not_unexpected (foldl step acc l).
Proof.
  intros Hthrow. induction 1 as [|x rest Hx Hrest IH]; intros acc Hacc; [exact Hacc|].
  cbn. apply IH. destruct acc as [a|e]; [apply Hx|].
  rewrite Hthrow. exact Hacc.
Qed.

Let model_ok (model : Shared) : Prop :=
  insertions_only model = true ->
  not_unexpected (back model) /\ not_unexpected (back_component model).
Let text_ok (text : YText) : Prop :=
  ytext_insertions_only text = true ->
  not_unexpected (createLocalSlotBySharedSlot registry text).

Lemma shared_map_not_unexpected (entries : list (string * Shared)) :
  Forall (fun kv => model_ok (snd kv)) entries ->
  forallb (fun kv => insertions_only (snd kv)) entries = true ->
  not_unexpected (createLocalMapBySharedMap back entries).
Proof.
  intros Hall Hwf. unfold createLocalMapBySharedMap, syncSharedMapToLocalMap.
  apply not_unexpected_foldl; [reflexivity| |discriminate].
  rewrite forallb_forall in Hwf. rewrite Forall_forall in *.
  intros kv Hin localMap. cbn [mbind Result_bind].
  destruct (Hall kv Hin) as [Hback _].
  { apply Hwf. apply list_elem_of_In. exact Hin. }
  destruct (back (snd kv)) as [v|e] eqn:E; cbn;
    [discriminate|exact (not_unexpected_throw e Hback)].
Qed.

Lemma insertions_scalar v : model_ok (SScalar v).
Proof. intros _. split; discriminate. Qed.

Lemma insertions_map entries :
  Forall (fun kv => model_ok (snd kv)) entries -> model_ok (SMap entries).
Proof.
  intros Hall Hwf. cbn [insertions_only] in Hwf. split.
  - unfold back. cbn [createLocalModelBySharedByModel].
    apply not_unexpected_fmap. apply shared_map_not_unexpected; assumption.
  - unfold back_component. cbn [createLocalComponentBySharedComponent].
    unfold createComponentByData.
    destruct (as_string (map_get "name" entries)) as [name|]; [|discriminate].
    destruct (getComponent registry name) as [type|]; [|discriminate].
    rewrite map_get_with_get.
    destruct (map_get "state" entries) as [sharedState|] eqn:Hstate; [|discriminate].
    cbn [fmap option_fmap option_map].
    assert (Hstate_ok : model_ok sharedState /\ insertions_only sharedState = true).
    { clear - Hall Hwf Hstate. induction entries as [|[k v] rest IH]; [discriminate|].
      apply Forall_cons in Hall as [Hv Hrest]. cbn [forallb] in Hwf.
      apply andb_prop in Hwf as [Hwv Hwrest]. cbn [map_get] in Hstate.
      destruct (decide ("state" = k)).
      - inversion Hstate; subst. split; assumption.
      - apply IH; assumption. }
    destruct Hstate_ok as [Hok Hins].
    destruct sharedState as [v|sharedMap|items|text]; try discriminate.
    destruct (Hok Hins) as [Hback _]. unfold back in Hback.
    cbn [createLocalModelBySharedByModel] in Hback.
    apply not_unexpected_fmap_inv in Hback. fold back in Hback. fold back.
    destruct (createLocalMapBySharedMap back sharedMap) as [state|e];
      cbn; [discriminate|exact (not_unexpected_throw e Hback)].
Qed.

Lemma insertions_array items : Forall model_ok items -> model_ok (SArray items).
Proof.
  intros Hall Hwf. cbn [insertions_only] in Hwf. split; [|discriminate].
  unfold back. cbn [createLocalModelBySharedByModel]. apply not_unexpected_fmap.
  unfold createLocalArrayBySharedArray.
  apply not_unexpected_foldl; [reflexivity| |discriminate].
  rewrite forallb_forall in Hwf. rewrite Forall_forall in *.
  intros x Hin localArray. cbn [mbind Result_bind].
  destruct (Hall x Hin) as [Hback _].
  { apply Hwf. apply list_elem_of_In. exact Hin. }
  fold back. destruct (back x) as [v|e]; cbn;
    [discriminate|exact (not_unexpected_throw e Hback)].
Qed.

Lemma insertions_text text : text_ok text -> model_ok (SText text).
Proof.
  intros Htext Hwf. cbn [insertions_only] in Hwf. split; [|discriminate].
  unfold back. cbn [createLocalModelBySharedByModel].
  apply not_unexpected_fmap. apply Htext. exact Hwf.
Qed.

Lemma insertions_delta attributes delta :
  Forall (fun op => match op with
                    | OpInsert (InsertEmbed e) _ => model_ok e
                    | _ => True
                    end) delta ->
  text_ok (mkYText attributes delta).
Proof.
  intros Hall Hwf. cbn [ytext_insertions_only] in Hwf.
  cbn [createLocalSlotBySharedSlot].
  apply not_unexpected_foldl; [reflexivity| |discriminate].
  rewrite forallb_forall in Hwf. rewrite Forall_forall in *.
  intros op Hin slot. specialize (Hall op Hin).
  apply list_elem_of_In in Hin. specialize (Hwf op Hin).
  apply andb_prop in Hwf as [Hins Hwf].
  destruct op as [[text|e] a|n a|n]; try discriminate;
    cbn [is_insertion] in Hins; cbn [local_slot_step mbind Result_bind];
    rewrite Hins.
  - discriminate.
  - destruct (Hall Hwf) as [_ Hcomp]. unfold back_component in Hcomp.
    destruct e as [[| | |s|]|entries|items|text]; try discriminate;
      (destruct (createLocalComponentBySharedComponent registry _) as [c|err];
       cbn; [discriminate|exact (not_unexpected_throw err Hcomp)]).
Qed.

End DeltaShape.


(** ** 8. The shared text is never left empty *)

Section RunUpdateFacts.
Context {R : Type} `{RunLaws R}.



End RunUpdateFacts.

Section NeverEmpty.
Variable registry : Registry.
Implicit Types (y : YText) (st : nat * nat * YText).

Lemma YText_setAttribute_length name value y :
  YText_length (YText_setAttribute name value y) = YText_length y.
Proof. reflexivity. Qed.

Lemma YText_removeAttribute_length name y :
  YText_length (YText_removeAttribute name y) = YText_length y.
Proof. reflexivity. Qed.






End NeverEmpty.


Section PlaceholderFacts.
Context {R : Type} `{RunLaws R}.

End PlaceholderFacts.

Section ReplaySteps.
Variable registry : Registry.



End ReplaySteps.




(* ===================================================================== *)
(** * Part III. Further properties of the engine                          *)
(* ===================================================================== *)

(** ** 9. The history within its bound, undo and redo *)

Section HistoryWithinBound.
Context {P S A : Type}.
Variable resolve : P -> option A.
Implicit Types (h : History P S) (edits : list (S * option P * option P)).

Lemma set_length_full {X : Type} (l : list (option X)) :
  set_length (Z.of_nat (length l)) l = Some l.
Proof.
  unfold set_length. destruct (Z.ltb_spec (Z.of_nat (length l)) 0) as [E|_]; [lia|].
  rewrite Nat2Z.id, Nat.sub_diag, firstn_all. cbn. rewrite app_nil_r. reflexivity.
Qed.

Lemma undoable_edits_exact (stackSize : Z) edits : forall h,
  index h = Z.of_nat (length (historyItems h)) ->
  Z.of_nat (length (undoStack h) + length edits) <= stackSize ->
  undoable_edits stackSize edits h
  = Some (mkHistory (historyItems h ++ (edit_position <$> edits))
                    (index h + Z.of_nat (length edits))
                    (undoStack h ++ ((fun e => fst (fst e)) <$> edits))
                    (match edits with [] => redoStack h | _ => [] end)).
Proof.
  induction edits as [|[[item bp] cur] rest IH]; intros h Hindex Hbound.
  - cbn. rewrite !app_nil_r, Z.add_0_r. destruct h; reflexivity.
  - cbn [undoable_edits]. rewrite undoable_edit_unfold, Hindex, set_length_full.
    cbn [mbind option_bind fst]. unfold evict_oldest. cbn [undoStack].
    rewrite length_app. cbn [length] in *.
    destruct (Z.gtb_spec (Z.of_nat (length (undoStack h) + 1)) stackSize) as [E|_];
      [lia|].
    rewrite IH; cbn [historyItems index undoStack redoStack].
    + rewrite <- !app_assoc. cbn [fmap list_fmap app fst snd].
      f_equal. f_equal; [lia|]. destruct rest; reflexivity.
    + rewrite length_app. cbn. lia.
    + rewrite length_app. cbn [length]. lia.
Qed.

(** X1.  As long as no more edits are made than the configured size,
    nothing is evicted: the cursor history holds one entry per edit,
    in order, beside the undo stack, [index] points behind the last
    one and the redo stack is empty. *)
Theorem history_within_bound_is_exact (stackSize : Z) edits :
  Z.of_nat (length edits) <= stackSize ->
  undoable_edits stackSize edits initial_history
  = Some (mkHistory (edit_position <$> edits) (Z.of_nat (length edits))
                    ((fun e => fst (fst e)) <$> edits) []).
Proof.
  intros Hbound.
  rewrite (undoable_edits_exact stackSize edits initial_history eq_refl) by (cbn; lia).
  cbn. destruct edits; reflexivity.
Qed.

(** X2.  Whatever event the undo manager emits after one push onto a
    stack that was within the configured size, the handler leaves the
    undo stack within that size and the redo stack as it was. *)
Theorem stack_item_added_bounds_undo_stack (stackSize : Z) bp cur event h h' notes :
  0 <= stackSize ->
  Z.of_nat (length (undoStack h)) <= stackSize + 1 ->
  on_stack_item_added stackSize bp cur event h = Some (h', notes) ->
  Z.of_nat (length (undoStack h')) <= stackSize
  /\ redoStack h' = redoStack h.
Proof.
  intros Hs Hb. unfold on_stack_item_added.
  assert (Hevict : forall h1 : History P S,
    undoStack h1 = undoStack h -> redoStack h1 = redoStack h ->
    Z.of_nat (length (undoStack (evict_oldest stackSize h1))) <= stackSize
    /\ redoStack (evict_oldest stackSize h1) = redoStack h).
  { intros h1 Hu Hr. unfold evict_oldest. rewrite Hu.
    destruct (Z.gtb_spec (Z.of_nat (length (undoStack h))) stackSize) as [E|E];
      cbn [undoStack redoStack].
    - split; [|exact Hr]. unfold shift.
      destruct (undoStack h); cbn [tail length] in *; lia.
    - rewrite Hu. auto. }
  destruct (event_type event).
  - destruct (decide (event_origin event = OriginManager)); cbn.
    + intros [= <- _]. apply Hevict; reflexivity.
    + destruct (set_length (index h) (historyItems h)); cbn; [|discriminate].
      intros [= <- _]. apply Hevict; reflexivity.
  - cbn. intros [= <- _]. apply Hevict; reflexivity.
Qed.

(** [back()] and [forward()] with nothing to undo or redo change
    nothing and ask nothing of the selection. *)
Lemma back_and_forward_need_a_stack_item (stackSize : Z) bp cur h :
  (undoStack h = [] -> back resolve stackSize bp cur h = Some (h, None))
  /\ (redoStack h = [] -> forward resolve stackSize bp cur h = Some (h, None)).
Proof.
  split; intros Hempty; [unfold back, canBack|unfold forward, canForward];
    rewrite Hempty; reflexivity.
Qed.

Lemma history_at_last (items : list (option (HistoryPosition P))) entry :
  history_at (Z.of_nat (length items)) (items ++ [entry]) = entry.
Proof.
  unfold history_at. destruct (Z.ltb_spec (Z.of_nat (length items)) 0) as [E|_]; [lia|].
  rewrite Nat2Z.id, lookup_app_r, Nat.sub_diag by lia. reflexivity.
Qed.

(** X3.  Within the bound, [back()] after a run of edits takes the
    last edit off the undo stack, moves [index] one down and restores
    the cursor snapshot taken before that edit (or clears the
    selection when it does not resolve); [forward()] then gives the
    history from before the [back()] and restores the snapshot taken
    after the edit. *)
Theorem back_then_forward_restore_the_snapshots (stackSize : Z) edits
    (item : S) (before_edit after_edit : option P) bp cur bp' cur' :
  Z.of_nat (length edits + 1) <= stackSize ->
  exists h h1,
    undoable_edits stackSize (edits ++ [(item, before_edit, after_edit)])
      initial_history = Some h
    /\ back resolve stackSize bp cur h = Some (h1, Some (restore resolve before_edit))
    /\ index h1 = Z.of_nat (length edits)
    /\ undoStack h1 = (fun e => fst (fst e)) <$> edits
    /\ redoStack h1 = [item]
    /\ historyItems h1 = historyItems h
    /\ forward resolve stackSize bp' cur' h1
       = Some (h, Some (restore resolve after_edit)).
Proof.
  intros Hbound.
  set (entry := Some (mkHistoryPosition before_edit after_edit)).
  set (items := edit_position <$> edits).
  set (stack := (fun e : S * option P * option P => fst (fst e)) <$> edits).
  assert (Hitems : length items = length edits) by apply length_fmap.
  assert (Hstack : length stack = length edits) by apply length_fmap.
  exists (mkHistory (items ++ [entry]) (Z.of_nat (length edits + 1)) (stack ++ [item]) []).
  exists (mkHistory (items ++ [entry]) (Z.of_nat (length edits)) stack [item]).
  split; [|split; [|repeat split]].
  - rewrite (undoable_edits_exact stackSize _ initial_history eq_refl)
      by (rewrite length_app; cbn; lia).
    cbn [historyItems index undoStack redoStack initial_history app].
    rewrite !fmap_app, length_app. cbn [fmap list_fmap edit_position fst snd].
    destruct edits; reflexivity.
  - unfold back, canBack. cbn [undoStack]. rewrite length_app. cbn [length].
    replace (length stack + 1 =? 0)%nat with false by (symmetry; apply Nat.eqb_neq; lia).
    cbn [negb]. unfold manager_undo. cbn [undoStack redoStack historyItems index].
    rewrite last_snoc, removelast_last. unfold on_stack_item_added.
    cbn [event_type event_origin mbind option_bind historyItems index undoStack redoStack].
    unfold evict_oldest. cbn [undoStack].
    destruct (Z.gtb_spec (Z.of_nat (length stack)) stackSize) as [E|_]; [lia|].
    cbn [fst snd app]. f_equal. f_equal; [f_equal; lia|]. f_equal.
    unfold on_stack_item_popped, restore. cbn [index historyItems].
    replace (Z.of_nat (length edits + 1) - 1) with (Z.of_nat (length items)) by lia.
    rewrite history_at_last. subst entry. cbn. destruct before_edit; reflexivity.
  - unfold forward, canForward. cbn [redoStack negb Nat.eqb length].
    unfold manager_redo. cbn [undoStack redoStack historyItems index last removelast].
    unfold on_stack_item_added.
    cbn [event_type event_origin mbind option_bind historyItems index undoStack redoStack].
    destruct (decide (OriginManager = OriginManager)) as [_|Hne]; [|contradiction].
    cbn [mbind option_bind fst snd].
    unfold evict_oldest. cbn [undoStack]. rewrite length_app. cbn [length].
    destruct (Z.gtb_spec (Z.of_nat (length stack + 1)) stackSize) as [E|_]; [lia|].
    cbn [fst snd]. f_equal. f_equal; [f_equal; lia|]. f_equal.
    unfold on_stack_item_popped, restore. cbn [index historyItems].
    replace (Z.of_nat (length edits) + 1 - 1) with (Z.of_nat (length items)) by lia.
    rewrite history_at_last. subst entry. cbn. destruct after_edit; reflexivity.
Qed.
End HistoryWithinBound.

Lemma history_within_bound_is_exact_witness :
  undoable_edits 3 [(10%nat, None, Some 1%nat); (11%nat, Some 1%nat, Some 2%nat)]
    initial_history
  = Some (mkHistory [Some (mkHistoryPosition None (Some 1%nat));
                     Some (mkHistoryPosition (Some 1%nat) (Some 2%nat))]
                    2 [10%nat; 11%nat] []).
Proof.
  apply (history_within_bound_is_exact 3
           [(10%nat, None, Some 1%nat); (11%nat, Some 1%nat, Some 2%nat)]).
  cbn. lia.
Defined.

Lemma stack_item_added_bounds_undo_stack_witness :
  on_stack_item_added 2 (Some 7%nat) (Some 8%nat) (mkStackEvent EventUndo OriginYDoc)
    (mkHistory [None; None] 2 [1%nat; 2%nat; 3%nat] [])
  = Some (mkHistory [None; Some (mkHistoryPosition (Some 7%nat) (Some 8%nat))] 3
                    [2%nat; 3%nat] [], [PushEvent; ChangeEvent])
  /\ Z.of_nat (length [2%nat; 3%nat]) <= 2.
Proof.
  split; [reflexivity|].
  apply (stack_item_added_bounds_undo_stack 2 (Some 7%nat) (Some 8%nat)
           (mkStackEvent EventUndo OriginYDoc)
           (mkHistory [None; None] 2 [1%nat; 2%nat; 3%nat] [])
           (mkHistory [None; Some (mkHistoryPosition (Some 7%nat) (Some 8%nat))] 3
                      [2%nat; 3%nat] [])
           [PushEvent; ChangeEvent]); [lia|cbn; lia|reflexivity].
Defined.

Lemma back_then_forward_restore_the_snapshots_witness :
  exists h h1 : History nat nat,
    undoable_edits 3 ([(10%nat, None, Some 1%nat)] ++ [(11%nat, Some 1%nat, Some 2%nat)])
      initial_history = Some h
    /\ back Some 3 None None h = Some (h1, Some (SetBaseAndExtent 1%nat))
    /\ forward Some 3 None None h1 = Some (h, Some (SetBaseAndExtent 2%nat)).
Proof.
  destruct (back_then_forward_restore_the_snapshots (A := nat) Some 3
              [(10%nat, None, Some 1%nat)] 11%nat (Some 1%nat) (Some 2%nat)
              None None None None)
    as (h & h1 & Hedits & Hback & _ & _ & _ & _ & Hforward); [cbn; lia|].
  exists h, h1. split; [exact Hedits|]. split; [exact Hback|exact Hforward].
Defined.

(** ** 10. The slot map *)

Lemma SlotMap_consistent_empty : SlotMap_consistent SlotMap_empty.
Proof. intros slot text. cbn. rewrite !lookup_empty. split; discriminate. Qed.

Lemma SlotMap_set_fresh_consistent (slot text : nat) (m : SlotMap) :
  SlotMap_consistent m ->
  SlotMap_get (OfSlot slot) m = None ->
  SlotMap_get (OfYText text) m = None ->
  SlotMap_consistent (SlotMap_set (OfSlot slot) text m).
Proof.
  intros Hm Hslot Htext s t. cbn in *.
  destruct (decide (s = slot)) as [->|Hs], (decide (t = text)) as [->|Ht].
  - rewrite !lookup_insert_eq. split; reflexivity.
  - rewrite lookup_insert_eq, lookup_insert_ne by congruence. split.
    + congruence.
    + intros Hback. apply Hm in Hback. congruence.
  - rewrite lookup_insert_ne, lookup_insert_eq by congruence. split.
    + intros Hfwd. apply Hm in Hfwd. congruence.
    + congruence.
  - rewrite !lookup_insert_ne by congruence. apply Hm.
Qed.

Lemma SlotMap_delete_consistent (key : SlotMapKey) (m : SlotMap) :
  SlotMap_consistent m -> SlotMap_consistent (SlotMap_delete key m).
Proof.
  intros Hm s t. destruct key as [slot|text]; cbn.
  - destruct (slotAndYTextMap m !! slot) as [v|] eqn:Hv.
    + destruct (decide (s = slot)) as [->|Hs], (decide (t = v)) as [->|Ht].
      * rewrite !lookup_delete_eq. split; discriminate.
      * rewrite lookup_delete_eq, lookup_delete_ne by congruence. split; [discriminate|].
        intros Hback. apply Hm in Hback. congruence.
      * rewrite lookup_delete_ne, lookup_delete_eq by congruence. split; [|discriminate].
        intros Hfwd. apply Hm in Hfwd. apply Hm in Hv. congruence.
      * rewrite !lookup_delete_ne by congruence. apply Hm.
    + destruct (decide (s = slot)) as [->|Hs].
      * rewrite lookup_delete_eq. split; [discriminate|].
        intros Hback. apply Hm in Hback. congruence.
      * rewrite lookup_delete_ne by congruence. apply Hm.
  - destruct (yTextAndSLotMap m !! text) as [v|] eqn:Hv.
    + destruct (decide (s = v)) as [->|Hs], (decide (t = text)) as [->|Ht].
      * rewrite !lookup_delete_eq. split; discriminate.
      * rewrite lookup_delete_eq, lookup_delete_ne by congruence. split; [discriminate|].
        intros Hback. apply Hm in Hback. apply Hm in Hv. congruence.
      * rewrite lookup_delete_ne, lookup_delete_eq by congruence. split; [|discriminate].
        intros Hfwd. apply Hm in Hfwd. congruence.
      * rewrite !lookup_delete_ne by congruence. apply Hm.
    + destruct (decide (t = text)) as [->|Ht].
      * rewrite lookup_delete_eq. split; [|discriminate].
        intros Hfwd. apply Hm in Hfwd. congruence.
      * rewrite lookup_delete_ne by congruence. apply Hm.
Qed.

(** X4.  [set] records the pair in both directions whichever of the two
    is given as the key, and leaves every other slot and every other
    shared text as it was. *)
Theorem SlotMap_set_then_get (slot text : nat) (m : SlotMap) :
  SlotMap_get (OfSlot slot) (SlotMap_set (OfSlot slot) text m) = Some text
  /\ SlotMap_get (OfYText text) (SlotMap_set (OfSlot slot) text m) = Some slot
  /\ SlotMap_set (OfYText text) slot m = SlotMap_set (OfSlot slot) text m
  /\ (forall s, s <> slot ->
        SlotMap_get (OfSlot s) (SlotMap_set (OfSlot slot) text m)
        = SlotMap_get (OfSlot s) m)
  /\ (forall t, t <> text ->
        SlotMap_get (OfYText t) (SlotMap_set (OfSlot slot) text m)
        = SlotMap_get (OfYText t) m).
Proof.
  cbn. rewrite !lookup_insert_eq.
  split; [reflexivity|]. split; [reflexivity|]. split; [reflexivity|].
  split; intros k Hk; apply lookup_insert_ne; congruence.
Qed.

(** X5.  Starting from the empty map, as long as every slot and every
    shared text is registered while it has no partner, the two tables
    mirror each other after any run of registrations and deletions. *)
Theorem SlotMap_tables_mirror_each_other (ops : list BridgeOp) :
  fresh_registrations ops SlotMap_empty = true ->
  SlotMap_consistent (foldl bridge_step SlotMap_empty ops).
Proof.
  generalize SlotMap_consistent_empty. generalize SlotMap_empty.
  induction ops as [|op rest IH]; intros m Hm Hfresh; [exact Hm|].
  cbn [foldl fresh_registrations] in *. destruct op as [slot text|key].
  - apply andb_prop in Hfresh as [Hfree Hrest].
    apply andb_prop in Hfree as [Hslot Htext].
    apply bool_decide_eq_true in Hslot. apply bool_decide_eq_true in Htext.
    apply IH; [|exact Hrest]. cbn [bridge_step].
    apply SlotMap_set_fresh_consistent; assumption.
  - apply IH; [|exact Hfresh]. cbn [bridge_step].
    apply SlotMap_delete_consistent. exact Hm.
Qed.

Lemma SlotMap_tables_mirror_each_other_witness :
  SlotMap_consistent
    (foldl bridge_step SlotMap_empty
       [Register 1 10; Register 2 20; Release (OfSlot 1); Register 1 30;
        Release (OfYText 20)]).
Proof.
  apply (SlotMap_tables_mirror_each_other
           [Register 1 10; Register 2 20; Release (OfSlot 1); Register 1 30;
            Release (OfYText 20)]).
  reflexivity.
Defined.

(** X6.  In a map whose tables mirror each other, [delete] by either
    key removes the pair in both directions and leaves the other pairs
    alone. *)
Theorem SlotMap_delete_removes_both_directions (slot text : nat) (m : SlotMap) :
  SlotMap_consistent m ->
  SlotMap_get (OfSlot slot) m = Some text ->
  SlotMap_delete (OfYText text) m = SlotMap_delete (OfSlot slot) m
  /\ SlotMap_get (OfSlot slot) (SlotMap_delete (OfSlot slot) m) = None
  /\ SlotMap_get (OfYText text) (SlotMap_delete (OfSlot slot) m) = None
  /\ (forall s, s <> slot ->
        SlotMap_get (OfSlot s) (SlotMap_delete (OfSlot slot) m)
        = SlotMap_get (OfSlot s) m)
  /\ (forall t, t <> text ->
        SlotMap_get (OfYText t) (SlotMap_delete (OfSlot slot) m)
        = SlotMap_get (OfYText t) m).
Proof.
  intros Hm Hslot. assert (Htext : SlotMap_get (OfYText text) m = Some slot)
    by (apply Hm; exact Hslot).
  cbn in *. rewrite Hslot, Htext, !lookup_delete_eq.
  split; [reflexivity|]. split; [reflexivity|]. split; [reflexivity|].
  split; intros k Hk; apply lookup_delete_ne; congruence.
Qed.

Lemma SlotMap_delete_removes_both_directions_witness :
  SlotMap_get (OfSlot 1) (SlotMap_delete (OfSlot 1)
    (SlotMap_set (OfSlot 2) 20 (SlotMap_set (OfSlot 1) 10 SlotMap_empty))) = None
  /\ SlotMap_get (OfYText 10) (SlotMap_delete (OfSlot 1)
    (SlotMap_set (OfSlot 2) 20 (SlotMap_set (OfSlot 1) 10 SlotMap_empty))) = None.
Proof.
  destruct (SlotMap_delete_removes_both_directions 1 10
              (SlotMap_set (OfSlot 2) 20 (SlotMap_set (OfSlot 1) 10 SlotMap_empty)))
    as (_ & Hslot & Htext & _).
  - apply (SlotMap_set_fresh_consistent 2 20); [|reflexivity|reflexivity].
    apply (SlotMap_set_fresh_consistent 1 10); [|reflexivity|reflexivity].
    apply SlotMap_consistent_empty.
  - reflexivity.
  - split; [exact Hslot|exact Htext].
Defined.

(** X7.  Registering a slot again under another shared text leaves the
    earlier text pointing at the slot, and the slot's teardown does not
    remove that entry: the earlier text still resolves to the slot. *)
Theorem SlotMap_set_again_leaves_stale_entry (slot text text' : nat) (m : SlotMap) :
  text <> text' ->
  SlotMap_get (OfYText text) m = Some slot ->
  let m' := SlotMap_set (OfSlot slot) text' m in
  SlotMap_get (OfSlot slot) m' = Some text'
  /\ SlotMap_get (OfYText text) m' = Some slot
  /\ SlotMap_get (OfSlot slot) (SlotMap_delete (OfSlot slot) m') = None
  /\ SlotMap_get (OfYText text) (SlotMap_delete (OfSlot slot) m') = Some slot.
Proof.
  intros Hne Htext. cbn in *. rewrite !lookup_insert_eq.
  rewrite lookup_delete_eq, lookup_delete_ne, lookup_insert_ne by congruence.
  repeat split; exact Htext || reflexivity.
Qed.

Lemma SlotMap_set_again_leaves_stale_entry_witness :
  SlotMap_get (OfYText 10)
    (SlotMap_delete (OfSlot 1)
       (SlotMap_set (OfSlot 1) 11 (SlotMap_set (OfSlot 1) 10 SlotMap_empty)))
  = Some 1%nat.
Proof.
  destruct (SlotMap_set_again_leaves_stale_entry 1 10 11
              (SlotMap_set (OfSlot 1) 10 SlotMap_empty)) as (_ & _ & _ & Hstale);
    [discriminate|reflexivity|exact Hstale].
Defined.

(** ** 11. Capturing and resolving the selection *)

Section CursorFacts.
Context {RP : Type}.
Variable createRelative : nat -> Z -> RP.
Variable createAbsolute : RP -> option (nat * Z).

(** X8.  While every reference resolves to the place it was made for
    and the tables of the slot map mirror each other, a captured
    selection resolves to the endpoints it was captured from. *)
Theorem captured_selection_resolves_to_itself (slotMap : SlotMap) (selection : Selection)
    (position : CursorPosition RP) :
  (forall text offset, createAbsolute (createRelative text offset) = Some (text, offset)) ->
  SlotMap_consistent slotMap ->
  getRelativeCursorLocation createRelative slotMap selection = Some position ->
  exists anchor focus,
    anchorSlot selection = Some anchor
    /\ focusSlot selection = Some focus
    /\ getAbstractSelection createAbsolute slotMap position
       = Some (mkAbstractSelection anchor (anchorOffset selection)
                                   focus (focusOffset selection)).
Proof.
  intros Hresolve Hmirror. unfold getRelativeCursorLocation, getAbstractSelection.
  destruct (anchorSlot selection) as [anchor|]; [|discriminate].
  destruct (SlotMap_get (OfSlot anchor) slotMap) as [anchorYText|] eqn:Hanchor;
    [|discriminate].
  destruct (focusSlot selection) as [focus|]; [|discriminate].
  destruct (SlotMap_get (OfSlot focus) slotMap) as [focusYText|] eqn:Hfocus;
    [|discriminate].
  intros [= <-]. exists anchor, focus. split; [reflexivity|]. split; [reflexivity|].
  cbn [cursor_anchor cursor_focus]. rewrite !Hresolve. cbn [fst snd].
  apply Hmirror in Hanchor. apply Hmirror in Hfocus. cbn [SlotMap_get].
  rewrite Hanchor, Hfocus. reflexivity.
Qed.

(** X9.  A selection is captured exactly when both of its endpoints
    are set and stand in slots that have a shared text; a position
    pair resolves exactly when both references resolve and both
    shared texts have a slot. *)
Theorem capture_and_resolve_need_both_endpoints (slotMap : SlotMap)
    (selection : Selection) (position : CursorPosition RP) :
  (is_Some (getRelativeCursorLocation createRelative slotMap selection)
   <-> is_Some (anchorSlot selection ≫= fun slot => SlotMap_get (OfSlot slot) slotMap)
       /\ is_Some (focusSlot selection ≫= fun slot => SlotMap_get (OfSlot slot) slotMap))
  /\ (is_Some (getAbstractSelection createAbsolute slotMap position)
      <-> is_Some (createAbsolute (cursor_anchor position)
                     ≫= fun p => SlotMap_get (OfYText (fst p)) slotMap)
          /\ is_Some (createAbsolute (cursor_focus position)
                        ≫= fun p => SlotMap_get (OfYText (fst p)) slotMap)).
Proof.
  split.
  - unfold getRelativeCursorLocation.
    destruct (anchorSlot selection) as [anchor|]; cbn [mbind option_bind].
    + destruct (SlotMap_get (OfSlot anchor) slotMap) as [anchorYText|].
      * destruct (focusSlot selection) as [focus|]; cbn [mbind option_bind].
        -- destruct (SlotMap_get (OfSlot focus) slotMap) as [focusYText|].
           ++ split; [intros _; split; eexists; reflexivity|intros _; eexists; reflexivity].
           ++ split; [intros [? [=]]|intros [_ [? [=]]]].
        -- split; [intros [? [=]]|intros [_ [? [=]]]].
      * split; [intros [? [=]]|intros [[? [=]] _]].
    + split; [intros [? [=]]|intros [[? [=]] _]].
  - unfold getAbstractSelection.
    destruct (createAbsolute (cursor_anchor position)) as [anchorPosition|];
      cbn [mbind option_bind].
    + destruct (createAbsolute (cursor_focus position)) as [focusPosition|];
        cbn [mbind option_bind].
      * destruct (SlotMap_get (OfYText (fst focusPosition)) slotMap) as [focus|].
        -- destruct (SlotMap_get (OfYText (fst anchorPosition)) slotMap) as [anchor|].
           ++ split; [intros _; split; eexists; reflexivity|intros _; eexists; reflexivity].
           ++ split; [intros [? [=]]|intros [[? [=]] _]].
        -- split; [intros [? [=]]|intros [_ [? [=]]]].
      * split; [intros [? [=]]|intros [_ [? [=]]]].
    + split; [intros [? [=]]|intros [[? [=]] _]].
Qed.
End CursorFacts.

Lemma captured_selection_resolves_to_itself_witness :
  exists anchor focus,
    anchorSlot (mkSelection (Some 1%nat) 5 (Some 2%nat) 7 true) = Some anchor
    /\ focusSlot (mkSelection (Some 1%nat) 5 (Some 2%nat) 7 true) = Some focus
    /\ getAbstractSelection Some
         (SlotMap_set (OfSlot 2) 20 (SlotMap_set (OfSlot 1) 10 SlotMap_empty))
         (mkCursorPosition (10%nat, 5) (20%nat, 7))
       = Some (mkAbstractSelection anchor 5 focus 7).
Proof.
  apply (captured_selection_resolves_to_itself pair Some
           (SlotMap_set (OfSlot 2) 20 (SlotMap_set (OfSlot 1) 10 SlotMap_empty))
           (mkSelection (Some 1%nat) 5 (Some 2%nat) 7 true)
           (mkCursorPosition (10%nat, 5) (20%nat, 7))).
  - reflexivity.
  - apply (SlotMap_set_fresh_consistent 2 20); [|reflexivity|reflexivity].
    apply (SlotMap_set_fresh_consistent 1 10); [|reflexivity|reflexivity].
    apply SlotMap_consistent_empty.
  - reflexivity.
Defined.

(** ** 12. The root component and the two-way sync of a map *)

Lemma model_comes_back (registry : Registry) (model : Local) :
  getAttribute registry "__schema__" = None ->
  wf_local registry model = true ->
  comes_back (createLocalModelBySharedByModel registry) createSharedModelByLocalModel model.
Proof.
  intros reserved. revert model.
  exact (Local_induction
           (fun model => wf_local registry model = true ->
                         comes_back (createLocalModelBySharedByModel registry)
                                    createSharedModelByLocalModel model)
           (fun slot => wf_slot registry slot = true ->
                        exists slot',
                          createLocalSlotBySharedSlot registry
                            (createSharedSlotByLocalSlot slot) = Ok slot'
                          /\ slot_equiv slot slot')
           (component_comes_back registry)
           (roundtrip_scalar registry) (roundtrip_map registry)
           (roundtrip_array registry) (roundtrip_lslot registry)
           (roundtrip_slot registry reserved) (roundtrip_component registry)).
Qed.

Section OrderedMapFacts.
Context {K V : Type} `{EqDecision K}.
Implicit Types (m : list (K * V)).

Lemma map_get_set_eq k (v : V) m : map_get k (map_set k v m) = Some v.
Proof.
  induction m as [|[k' v'] m IH]; cbn.
  - destruct (decide (k = k)); [reflexivity|contradiction].
  - destruct (decide (k = k')) as [->|Hne]; cbn.
    + destruct (decide (k' = k')); [reflexivity|contradiction].
    + destruct (decide (k = k')); [contradiction|exact IH].
Qed.

Lemma map_get_set_ne k k' (v : V) m : k <> k' -> map_get k' (map_set k v m) = map_get k' m.
Proof.
  intros Hne. induction m as [|[k0 v0] m IH]; cbn.
  - destruct (decide (k' = k)); [congruence|reflexivity].
  - destruct (decide (k = k0)) as [->|Hk]; cbn.
    + destruct (decide (k' = k0)); [congruence|reflexivity].
    + destruct (decide (k' = k0)); [reflexivity|exact IH].
Qed.

Lemma map_get_remove_eq k m : map_get k (map_remove k m) = None.
Proof.
  unfold map_remove. induction m as [|[k' v'] m IH]; [reflexivity|].
  rewrite filter_cons. cbn [fst]. destruct (decide (k' <> k)) as [Hne|Heq]; [|exact IH].
  cbn. destruct (decide (k = k')); [congruence|exact IH].
Qed.

Lemma map_get_remove_ne k k' m : k <> k' -> map_get k' (map_remove k m) = map_get k' m.
Proof.
  intros Hne. unfold map_remove. induction m as [|[k0 v0] m IH]; [reflexivity|].
  rewrite filter_cons. cbn [fst]. destruct (decide (k0 <> k)) as [Hk|Hk]; cbn.
  - destruct (decide (k' = k0)); [reflexivity|exact IH].
  - destruct (decide (k' = k0)); [|exact IH]. exfalso. apply Hk. congruence.
Qed.

Lemma map_set_keys k (v : V) m :
  forall k', k' ∈ fst <$> map_set k v m <-> k' = k \/ k' ∈ fst <$> m.
Proof.
  intros k'. induction m as [|[k0 v0] m IH]; cbn.
  - rewrite list_elem_of_singleton. split; [auto|intros [?|Hin]; [assumption|]].
    apply not_elem_of_nil in Hin. contradiction.
  - destruct (decide (k = k0)) as [->|Hk]; cbn; rewrite !elem_of_cons.
    + tauto.
    + rewrite IH. tauto.
Qed.

Lemma map_set_NoDup k (v : V) m : NoDup (fst <$> m) -> NoDup (fst <$> map_set k v m).
Proof.
  induction m as [|[k0 v0] m IH]; cbn; intros Hnd.
  - apply NoDup_singleton.
  - apply NoDup_cons in Hnd as [Hk0 Hnd].
    destruct (decide (k = k0)) as [->|Hk]; cbn.
    + apply NoDup_cons. split; assumption.
    + apply NoDup_cons. split; [|apply IH; exact Hnd].
      rewrite map_set_keys. intros [?|?]; [congruence|contradiction].
Qed.

Lemma map_remove_NoDup k m : NoDup (fst <$> m) -> NoDup (fst <$> map_remove k m).
Proof.
  unfold map_remove. induction m as [|[k0 v0] m IH]; cbn; intros Hnd; [exact Hnd|].
  apply NoDup_cons in Hnd as [Hk0 Hnd].
  destruct (decide (k0 <> k)); [|apply IH; exact Hnd].
  cbn. apply NoDup_cons. split; [|apply IH; exact Hnd].
  intros Hin. apply Hk0. apply list_elem_of_fmap in Hin as (kv & -> & Hin).
  apply list_elem_of_filter in Hin as [_ Hin]. apply list_elem_of_fmap_2. exact Hin.
Qed.
End OrderedMapFacts.

Section OrderedMapImage.
Context {K V W : Type} `{EqDecision K}.
Variable f : V -> W.
Let image (m : list (K * V)) : list (K * W) := (fun kv => (fst kv, f (snd kv))) <$> m.

Lemma map_set_image k (v : V) m : map_set k (f v) (image m) = image (map_set k v m).
Proof.
  induction m as [|[k0 v0] m IH]; cbn; [reflexivity|].
  destruct (decide (k = k0)); cbn; [reflexivity|]. f_equal. exact IH.
Qed.

Lemma map_remove_image k m : map_remove k (image m) = image (map_remove k m).
Proof.
  unfold map_remove. induction m as [|[k0 v0] m IH]; cbn; [reflexivity|].
  destruct (decide (k0 <> k)); cbn; [f_equal|]; exact IH.
Qed.
End OrderedMapImage.

(** X10.  The first peer to listen publishes its root state and keeps
    it; a peer that joins afterwards gives up its own root state and
    takes the published one: with a well-formed state of the first
    peer, the joining peer ends with the same keys in the same order
    and equivalent values, and the shared root is left as it was. *)
Theorem joining_peer_takes_the_published_state (registry : Registry)
    (root : list (string * list (string * Shared)))
    (first second : list (string * Local)) :
  getAttribute registry "__schema__" = None ->
  map_get "state" root = None ->
  wf_local registry (LMap first) = true ->
  exists root' second',
    syncRootComponent registry root first = Ok (root', first)
    /\ syncRootComponent registry root' second = Ok (root', second')
    /\ Forall2 entry_equiv first second'.
Proof.
  intros reserved Hfresh Hwf. cbn [wf_local] in Hwf.
  apply andb_prop in Hwf as [Hnd Hwf]. apply bool_decide_eq_true in Hnd.
  assert (Hall : Forall (fun kv => comes_back (createLocalModelBySharedByModel registry)
                                     createSharedModelByLocalModel (snd kv)) first).
  { rewrite forallb_forall in Hwf. apply Forall_forall. intros kv Hin.
    apply model_comes_back; [exact reserved|]. apply Hwf. apply list_elem_of_In. exact Hin. }
  destruct (map_roundtrip (createLocalModelBySharedByModel registry)
              createSharedModelByLocalModel first Hnd Hall) as (second' & Hback & Hequiv).
  exists (map_set "state"
            (syncLocalMapToSharedMap createSharedModelByLocalModel first []) root), second'.
  unfold syncRootComponent. rewrite Hfresh, map_get_set_eq.
  split; [reflexivity|]. split; [|exact Hequiv].
  unfold createLocalMapBySharedMap, createSharedMapByLocalMap in Hback.
  rewrite Hback. reflexivity.
Qed.

Lemma joining_peer_takes_the_published_state_witness :
  exists root' second',
    syncRootComponent sample_registry [] [("title", LScalar (VString "a")); ("body", LSlot sample_slot)]
    = Ok (root', [("title", LScalar (VString "a")); ("body", LSlot sample_slot)])
    /\ syncRootComponent sample_registry root' [("other", LScalar VNull)] = Ok (root', second')
    /\ Forall2 entry_equiv [("title", LScalar (VString "a")); ("body", LSlot sample_slot)]
                           second'.
Proof.
  apply (joining_peer_takes_the_published_state sample_registry []
           [("title", LScalar (VString "a")); ("body", LSlot sample_slot)]
           [("other", LScalar VNull)]); reflexivity.
Defined.

(** X11.  As long as the local map's actions are replayed as they come,
    the shared map stays the image of the local map: replaying the
    actions on the shared form of a local map gives the shared form of
    the local map after those actions. *)
Theorem shared_map_follows_local_map (actions : list MapAction)
    (localObject : list (string * Local)) :
  NoDup (fst <$> localObject) ->
  foldl object_action_step
        (createSharedMapByLocalMap createSharedModelByLocalModel localObject) actions
  = createSharedMapByLocalMap createSharedModelByLocalModel
      (foldl MapModel_apply localObject actions)
  /\ NoDup (fst <$> foldl MapModel_apply localObject actions).
Proof.
  revert localObject. induction actions as [|action rest IH]; intros localObject Hnd.
  - split; [reflexivity|exact Hnd].
  - cbn [foldl].
    assert (Hnd' : NoDup (fst <$> MapModel_apply localObject action)).
    { destruct action; cbn; [apply map_set_NoDup|apply map_remove_NoDup]; exact Hnd. }
    destruct (IH _ Hnd') as [Hshared Hkeys]. split; [|exact Hkeys].
    rewrite <- Hshared. f_equal.
    rewrite !(shared_map_spec createSharedModelByLocalModel) by assumption.
    destruct action as [key value|key]; cbn [object_action_step MapModel_apply].
    + apply (map_set_image createSharedModelByLocalModel).
    + apply (map_remove_image createSharedModelByLocalModel).
Qed.

Lemma shared_map_follows_local_map_witness :
  foldl object_action_step
        (createSharedMapByLocalMap createSharedModelByLocalModel
           [("a", LScalar (VNumber 1)); ("b", LSlot sample_slot)])
        [PropSet "c" (LArray [LScalar VNull]); PropDelete "a"; PropSet "b" (LScalar VNull)]
  = createSharedMapByLocalMap createSharedModelByLocalModel
      [("b", LScalar VNull); ("c", LArray [LScalar VNull])].
Proof.
  apply (shared_map_follows_local_map
           [PropSet "c" (LArray [LScalar VNull]); PropDelete "a"; PropSet "b" (LScalar VNull)]
           [("a", LScalar (VNumber 1)); ("b", LSlot sample_slot)]).
  exact (proj1 (bool_decide_eq_true (NoDup ["a"; "b"])) eq_refl).
Defined.

(** X12.  Replaying a remote map event whose key changes agree with
    the shared map (a deleted key is gone from it, an added or updated
    key is there with a value that converts) leaves the local map
    agreeing with the shared map on every changed key, and as it was
    on every other key. *)
Theorem remote_map_changes_reach_local_map (registry : Registry)
    (sharedObject : list (string * Shared)) (changes : list (string * KeyAction))
    (localObject : list (string * Local)) :
  (forall change, change ∈ changes ->
     match snd change with
     | KeyDelete => map_get (fst change) sharedObject = None
     | _ => exists value local,
              map_get (fst change) sharedObject = Some value
              /\ createLocalModelBySharedByModel registry value = Ok local
     end) ->
  exists localObject',
    syncObject_remote registry sharedObject changes localObject = Ok localObject'
    /\ (forall key, key ∈ fst <$> changes ->
          match map_get key sharedObject with
          | Some value =>
              exists local,
                createLocalModelBySharedByModel registry value = Ok local
                /\ map_get key localObject' = Some local
          | None => map_get key localObject' = None
          end)
    /\ (forall key, key ∉ fst <$> changes ->
          map_get key localObject' = map_get key localObject).
Proof.
  unfold syncObject_remote.
  induction changes as [|[key action] changes IH] using rev_ind; intros Hagree.
  - exists localObject. split; [reflexivity|]. split; [|reflexivity].
    intros key Hin. apply not_elem_of_nil in Hin. contradiction.
  - destruct IH as (mid & Hmid & Hchanged & Hother).
    { intros change Hin. apply Hagree. apply elem_of_app. left. exact Hin. }
    rewrite foldl_app, Hmid. cbn [foldl object_remote_step mbind Result_bind fst snd].
    specialize (Hagree (key, action)) as Hlast.
    specialize (Hlast ltac:(apply elem_of_app; right; apply list_elem_of_singleton;
                            reflexivity)).
    cbn [fst snd] in Hlast.
    assert (Hstep : exists localObject',
      match action with
      | KeyDelete => Ok (map_remove key mid)
      | _ => match map_get key sharedObject with
             | Some value =>
                 value ← createLocalModelBySharedByModel registry value;
                 Ok (map_set key value mid)
             | None => Ok (map_set key (LScalar VNull) mid)
             end
      end = Ok localObject'
      /\ match map_get key sharedObject with
         | Some value =>
             exists local,
               createLocalModelBySharedByModel registry value = Ok local
               /\ map_get key localObject' = Some local
         | None => map_get key localObject' = None
         end
      /\ forall key', key <> key' -> map_get key' localObject' = map_get key' mid).
    { destruct action.
      - destruct Hlast as (value & local & -> & Hlocal). rewrite Hlocal.
        exists (map_set key local mid). split; [reflexivity|]. split.
        + exists local. split; [reflexivity|apply map_get_set_eq].
        + intros key' Hne. apply map_get_set_ne. exact Hne.
      - destruct Hlast as (value & local & -> & Hlocal). rewrite Hlocal.
        exists (map_set key local mid). split; [reflexivity|]. split.
        + exists local. split; [reflexivity|apply map_get_set_eq].
        + intros key' Hne. apply map_get_set_ne. exact Hne.
      - rewrite Hlast. exists (map_remove key mid). split; [reflexivity|]. split.
        + apply map_get_remove_eq.
        + intros key' Hne. apply map_get_remove_ne. exact Hne. }
    destruct Hstep as (localObject' & Hstep & Hkey & Hrest).
    destruct action; cbn [mbind Result_bind] in *;
      (exists localObject'; split; [exact Hstep|]; split;
       [ intros key' Hin; rewrite fmap_app in Hin; apply elem_of_app in Hin;
         destruct (decide (key = key')) as [<-|Hne]; [exact Hkey|];
         rewrite (Hrest key' Hne); apply Hchanged;
         destruct Hin as [Hin|Hin]; [exact Hin|];
         cbn in Hin; apply list_elem_of_singleton in Hin; congruence
       | intros key' Hout; rewrite fmap_app in Hout;
         rewrite Hrest by (intros ->; apply Hout; apply elem_of_app; right;
                           cbn; apply list_elem_of_singleton; reflexivity);
         apply Hother; intros Hin; apply Hout; apply elem_of_app; left; exact Hin ]).
Qed.

Lemma remote_map_changes_reach_local_map_witness :
  syncObject_remote sample_registry
    [("a", SScalar (VNumber 2)); ("c", SArray [])]
    [("a", KeyUpdate); ("b", KeyDelete); ("c", KeyAdd)]
    [("a", LScalar (VNumber 1)); ("b", LScalar VNull); ("d", LScalar (VBool true))]
  = Ok [("a", LScalar (VNumber 2)); ("d", LScalar (VBool true)); ("c", LArray [])]
  /\ exists localObject',
       syncObject_remote sample_registry
         [("a", SScalar (VNumber 2)); ("c", SArray [])]
         [("a", KeyUpdate); ("b", KeyDelete); ("c", KeyAdd)]
         [("a", LScalar (VNumber 1)); ("b", LScalar VNull); ("d", LScalar (VBool true))]
       = Ok localObject'
       /\ map_get "b" localObject' = None
       /\ map_get "d" localObject' = Some (LScalar (VBool true)).
Proof.
  split; [reflexivity|].
  destruct (remote_map_changes_reach_local_map sample_registry
              [("a", SScalar (VNumber 2)); ("c", SArray [])]
              [("a", KeyUpdate); ("b", KeyDelete); ("c", KeyAdd)]
              [("a", LScalar (VNumber 1)); ("b", LScalar VNull);
               ("d", LScalar (VBool true))])
    as (localObject' & Hrun & Hchanged & Hother).
  - intros change Hin.
    apply elem_of_cons in Hin as [->|Hin]; [eexists _, _; split; reflexivity|].
    apply elem_of_cons in Hin as [->|Hin]; [reflexivity|].
    apply list_elem_of_singleton in Hin as ->. eexists _, _; split; reflexivity.
  - exists localObject'. split; [exact Hrun|]. split.
    + apply (Hchanged "b"). cbn. apply elem_of_cons. right. apply elem_of_cons. left.
      reflexivity.
    + rewrite (Hother "d"); [reflexivity|]. cbn. intros Hin.
      apply elem_of_cons in Hin as [?|Hin]; [discriminate|].
      apply elem_of_cons in Hin as [?|Hin]; [discriminate|].
      apply list_elem_of_singleton in Hin. discriminate.
Defined.

(** ** 13. What the engine writes *)

Lemma insertions_only_not_unexpected (registry : Registry) (model : Shared) :
  insertions_only model = true ->
  not_unexpected (createLocalModelBySharedByModel registry model)
  /\ not_unexpected (createLocalComponentBySharedComponent registry model).
Proof.
  revert model.
  exact (Shared_induction
           (fun model => insertions_only model = true ->
              not_unexpected (createLocalModelBySharedByModel registry model)
              /\ not_unexpected (createLocalComponentBySharedComponent registry model))
           (fun text => ytext_insertions_only text = true ->
              not_unexpected (createLocalSlotBySharedSlot registry text))
           (insertions_scalar registry) (insertions_map registry)
           (insertions_array registry) (insertions_text registry)
           (insertions_delta registry)).
Qed.

Lemma ytext_insertions_only_not_unexpected (registry : Registry) (text : YText) :
  ytext_insertions_only text = true ->
  not_unexpected (createLocalSlotBySharedSlot registry text).
Proof.
  revert text.
  exact (YText_induction
           (fun model => insertions_only model = true ->
              not_unexpected (createLocalModelBySharedByModel registry model)
              /\ not_unexpected (createLocalComponentBySharedComponent registry model))
           (fun text => ytext_insertions_only text = true ->
              not_unexpected (createLocalSlotBySharedSlot registry text))
           (insertions_scalar registry) (insertions_map registry)
           (insertions_array registry) (insertions_text registry)
           (insertions_delta registry)).
Qed.

Section WrittenDeltas.
Let entry_ok (op : DeltaOp Shared) : bool :=
  is_insertion op
  && match op with
     | OpInsert (InsertEmbed e) _ => insertions_only e
     | _ => true
     end.

Lemma map_set_elem {K V : Type} `{EqDecision K} (k : K) (v : V) (m : list (K * V)) x :
  x ∈ map_set k v m -> x = (k, v) \/ x ∈ m.
Proof.
  induction m as [|[k0 v0] m IH]; cbn.
  - intros Hin. apply list_elem_of_singleton in Hin. left. exact Hin.
  - destruct (decide (k = k0)) as [->|Hk]; rewrite !elem_of_cons.
    + intros [->|Hin]; [left; reflexivity|right; right; exact Hin].
    + intros [->|Hin]; [right; left; reflexivity|].
      destruct (IH Hin) as [->|Hm]; [left; reflexivity|right; right; exact Hm].
Qed.

Lemma shared_map_insertions (entries : list (string * Local)) :
  Forall (fun kv => insertions_only (createSharedModelByLocalModel (snd kv)) = true)
         entries ->
  forall acc,
    forallb (fun kv => insertions_only (snd kv)) acc = true ->
    forallb (fun kv => insertions_only (snd kv))
            (syncLocalMapToSharedMap createSharedModelByLocalModel entries acc) = true.
Proof.
  unfold syncLocalMapToSharedMap.
  induction 1 as [|kv rest Hkv Hrest IH]; intros acc Hacc; [exact Hacc|].
  cbn [foldl]. apply IH. apply forallb_forall. intros x Hin.
  apply list_elem_of_In, map_set_elem in Hin as [->|Hin]; [exact Hkv|].
  rewrite forallb_forall in Hacc. apply Hacc. apply list_elem_of_In. exact Hin.
Qed.

Lemma shared_array_insertions (items : list Local) :
  Forall (fun item => insertions_only (createSharedModelByLocalModel item) = true) items ->
  forall acc,
    forallb insertions_only acc = true ->
    forallb insertions_only
            (foldl (fun shared value => shared ++ [createSharedModelByLocalModel value])
                   acc items) = true.
Proof.
  induction 1 as [|item rest Hitem Hrest IH]; intros acc Hacc; [exact Hacc|].
  cbn [foldl]. apply IH. rewrite forallb_app, Hacc. cbn. rewrite Hitem. reflexivity.
Qed.

Lemma entry_ok_length (op : DeltaOp Shared) : entry_ok op = true -> (0 < run_length op)%nat.
Proof.
  destruct op as [[text|e] a|n a|n]; cbn; try discriminate; [|lia].
  intros Hok. apply andb_prop in Hok as [Hlen _].
  apply negb_true_iff, Nat.eqb_neq in Hlen. lia.
Qed.

Lemma shared_slot_fold_insertions (content : list (Insert Component * Formats)) :
  Forall (fun r => match fst r with
                   | InsertEmbed c =>
                       insertions_only (createSharedComponentByLocalComponent c) = true
                   | InsertText _ => True
                   end) content ->
  forall a d,
    forallb entry_ok d = true ->
    exists d',
      foldl (shared_slot_step createSharedComponentByLocalComponent)
            (mkYText a d, total_length d) content
      = (mkYText a d', total_length d')
      /\ forallb entry_ok d' = true
      /\ total_length d' = (total_length d + total_length content)%nat.
Proof.
  induction 1 as [|r rest Hr Hrest IH]; intros a d Hd.
  - exists d. split; [reflexivity|]. split; [exact Hd|]. cbn. lia.
  - cbn [foldl].
    assert (Hpos : Forall (fun op : DeltaOp Shared => (0 < run_length op)%nat) d).
    { rewrite forallb_forall in Hd. apply Forall_forall. intros op Hin.
      apply entry_ok_length. apply Hd. apply list_elem_of_In. exact Hin. }
    assert (Hstep : exists d1,
      shared_slot_step createSharedComponentByLocalComponent
        (mkYText a d, total_length d) r = (mkYText a d1, total_length d1)
      /\ forallb entry_ok d1 = true
      /\ total_length d1 = (total_length d + insert_length (fst r))%nat).
    { unfold shared_slot_step. destruct r as [[text|c] f]; cbn [fst snd] in *.
      - unfold YText_insert. cbn [insert_length].
        destruct (Nat.eqb_spec (String.length text) 0) as [E|E].
        + exists d. rewrite E, Nat.add_0_r. split; [reflexivity|]. split; [exact Hd|lia].
        + cbn [YText_getAttributes YText_toDelta].
          rewrite runs_insert_end by exact Hpos.
          match goal with |- exists d1, (mkYText _ ?x, _) = _ /\ _ => exists x end.
          split.
          * rewrite total_length_app. f_equal. f_equal.
            rewrite total_length_cons. cbn. lia.
          * split.
            -- rewrite forallb_app, Hd. unfold entry_ok. cbn.
               apply Nat.eqb_neq in E. rewrite E. reflexivity.
            -- rewrite total_length_app, total_length_cons. cbn. lia.
      - unfold YText_insertEmbed. cbn [YText_getAttributes YText_toDelta default].
        rewrite runs_insert_end by exact Hpos.
        match goal with |- exists d1, (mkYText _ ?x, _) = _ /\ _ => exists x end.
        split.
        + rewrite total_length_app. reflexivity.
        + split.
          * rewrite forallb_app, Hd. unfold entry_ok.
            destruct (shared_component_is_map c) as [entries Hmap].
            rewrite Hmap in *.
            cbn [forallb andb is_insertion insert_truthy shared_truthy].
            rewrite Hr. reflexivity.
          * rewrite total_length_app, total_length_cons. cbn. lia. }
    destruct Hstep as (d1 & -> & Hd1 & Hlen1).
    destruct (IH a d1 Hd1) as (d' & Hfold & Hd' & Hlen').
    exists d'. split; [exact Hfold|]. split; [exact Hd'|].
    rewrite Hlen', Hlen1, total_length_cons. cbn [run_length local_run]. lia.
Qed.

Lemma written_slot_insertions schema attributes content index :
  Forall (fun r => match fst r with
                   | InsertEmbed c =>
                       insertions_only (createSharedComponentByLocalComponent c) = true
                   | InsertText _ => True
                   end) content ->
  ytext_insertions_only
    (createSharedSlotByLocalSlot (mkSlot schema attributes content index)) = true.
Proof.
  intros Hcontent. cbn [createSharedSlotByLocalSlot].
  unfold YText_new, YText_setAttribute. cbn [YText_getAttributes YText_toDelta].
  change 0%nat with (total_length (@nil (DeltaOp Shared))) at 1.
  destruct (shared_slot_fold_insertions content Hcontent
              (<["__schema__" := VContentTypes schema]> ∅) [] eq_refl)
    as (d' & -> & Hd' & _). cbn [fst].
  rewrite setAttribute_fold. exact Hd'.
Qed.

Lemma written_component_insertions name type state :
  Forall (fun kv => insertions_only (createSharedModelByLocalModel (snd kv)) = true)
         state ->
  insertions_only (createSharedComponentByLocalComponent (mkComponent name type state))
  = true.
Proof.
  intros Hstate. cbn [createSharedComponentByLocalComponent].
  rewrite shared_component_shape. cbn. rewrite andb_true_r.
  apply shared_map_insertions; [exact Hstate|reflexivity].
Qed.

Lemma written_model_insertions (model : Local) :
  insertions_only (createSharedModelByLocalModel model) = true.
Proof.
  revert model.
  apply (Local_induction
           (fun model => insertions_only (createSharedModelByLocalModel model) = true)
           (fun slot => ytext_insertions_only (createSharedSlotByLocalSlot slot) = true)
           (fun c => insertions_only (createSharedComponentByLocalComponent c) = true)).
  - reflexivity.
  - intros entries Hall. cbn [createSharedModelByLocalModel insertions_only].
    apply shared_map_insertions; [exact Hall|reflexivity].
  - intros items Hall. cbn [createSharedModelByLocalModel insertions_only].
    apply shared_array_insertions; [exact Hall|reflexivity].
  - intros slot Hslot. exact Hslot.
  - apply written_slot_insertions.
  - apply written_component_insertions.
Qed.

Lemma written_component_insertions' (component : Component) :
  insertions_only (createSharedComponentByLocalComponent component) = true.
Proof.
  destruct component as [name type state]. apply written_component_insertions.
  apply Forall_forall. intros kv _. apply written_model_insertions.
Qed.

(** X14.  The shared text made of a slot has the slot's length, and
    carries the slot's schema under ['__schema__'] unless the slot
    has an attribute of that name. *)
Theorem shared_slot_keeps_length_and_schema (slot : Slot) :
  YText_length (createSharedSlotByLocalSlot slot) = Slot_length slot
  /\ ("__schema__" ∉ (fun item => attribute_name (fst item)) <$> slot_attributes slot ->
      YText_getAttribute "__schema__" (createSharedSlotByLocalSlot slot)
      = Some (VContentTypes (slot_schema slot))).
Proof.
  destruct slot as [schema attributes content index].
  cbn [createSharedSlotByLocalSlot slot_attributes slot_schema].
  unfold YText_new. unfold YText_setAttribute at 2 4.
  cbn [YText_getAttributes YText_toDelta].
  destruct (shared_slot_fold_insertions content) with
    (a := <["__schema__" := VContentTypes schema]> (∅ : gmap string Value))
    (d := @nil (DeltaOp Shared)) as (d' & Hfold & _ & Hlen); [|reflexivity|].
  { apply Forall_forall. intros [[text|c] f] _; cbn; [exact I|].
    apply written_component_insertions'. }
  change (total_length (@nil (DeltaOp Shared))) with 0%nat in Hfold, Hlen.
  rewrite !Hfold.
  cbn [fst]. rewrite setAttribute_fold. split.
  - unfold YText_length, Slot_length. cbn [YText_toDelta slot_content]. exact Hlen.
  - intros Hfree. unfold YText_getAttribute. cbn [YText_getAttributes].
    rewrite (foldl_insert_lookup_other (fun item => attribute_name (fst item)) snd)
      by exact Hfree.
    apply lookup_insert_eq.
Qed.

(** X13.  Whatever local value the engine converts, well formed or
    not, the shared value it writes holds only insertions in every
    delta at every depth; converting it back therefore never raises
    the unexpected-delta error, under any registry. *)
Theorem engine_writes_only_insertions (registry : Registry) (model : Local) :
  insertions_only (createSharedModelByLocalModel model) = true
  /\ createLocalModelBySharedByModel registry (createSharedModelByLocalModel model)
     <> Throw UnexpectedDeltaAction.
Proof.
  split; [apply written_model_insertions|].
  apply insertions_only_not_unexpected. apply written_model_insertions.
Qed.
End WrittenDeltas.

Lemma shared_slot_keeps_length_and_schema_witness :
  YText_length (createSharedSlotByLocalSlot sample_slot) = 5%nat
  /\ YText_getAttribute "__schema__" (createSharedSlotByLocalSlot sample_slot)
     = Some (VContentTypes [Text; InlineComponent]).
Proof.
  destruct (shared_slot_keeps_length_and_schema sample_slot) as [Hlength Hschema].
  split; [exact Hlength|]. apply Hschema. cbn. intros Hin.
  apply list_elem_of_singleton in Hin. discriminate.
Defined.

(** ** 14. Names the registry does not know *)

(** X15.  A shared component whose name is missing, is not a string or
    has no factory in the registry cannot be built: the error names the
    component, is raised whatever the component's state holds, and
    stops the materialisation of a shared text at the entry that embeds
    the component, whatever follows it. *)
Theorem unknown_component_factory_is_fatal (registry : Registry)
    (entries : list (string * Shared)) :
  as_string (map_get "name" entries) ≫= getComponent registry = None ->
  createLocalComponentBySharedComponent registry (SMap entries)
  = Throw (CannotFindComponentFactory (as_string (map_get "name" entries)))
  /\ forall attributes (pre post : list (DeltaOp Shared)) formats slot,
       createLocalSlotBySharedSlot registry (mkYText attributes pre) = Ok slot ->
       createLocalSlotBySharedSlot registry
         (mkYText attributes (pre ++ OpInsert (InsertEmbed (SMap entries)) formats :: post))
       = Throw (CannotFindComponentFactory (as_string (map_get "name" entries))).
Proof.
  intros Hunknown.
  assert (Hcomponent : createLocalComponentBySharedComponent registry (SMap entries)
    = Throw (CannotFindComponentFactory (as_string (map_get "name" entries)))).
  { cbn [createLocalComponentBySharedComponent]. unfold createComponentByData.
    destruct (as_string (map_get "name" entries)) as [name|]; [|reflexivity].
    cbn [mbind option_bind] in Hunknown. rewrite Hunknown. reflexivity. }
  split; [exact Hcomponent|].
  intros attributes pre post formats slot Hpre.
  cbn [createLocalSlotBySharedSlot] in *. rewrite foldl_app, Hpre.
  cbn [foldl local_slot_step mbind Result_bind]. rewrite Hcomponent.
  cbn [mbind Result_bind]. apply local_slot_fold_throw.
Qed.

Lemma unknown_component_factory_is_fatal_witness :
  createLocalSlotBySharedSlot sample_registry
    (mkYText ∅ ([OpInsert (InsertText "ab") None]
                ++ OpInsert (InsertEmbed
                               (SMap [("name", SScalar (VString "video"));
                                      ("state", SText (mkYText ∅ [OpDelete 1]))])) None
                :: [OpRetain 1 None]))
  = Throw (CannotFindComponentFactory (Some "video")).
Proof.
  apply (proj2 (unknown_component_factory_is_fatal sample_registry
                  [("name", SScalar (VString "video"));
                   ("state", SText (mkYText ∅ [OpDelete 1]))] eq_refl)
           ∅ [OpInsert (InsertText "ab") None] [OpRetain 1 None] None
           (mkSlot [] [] [] 0)).
  reflexivity.
Defined.

Lemma omap_length_le {X Y : Type} (f : X -> option Y) (l : list X) :
  (length (omap f l) <= length l)%nat.
Proof.
  induction l as [|x l IH]; cbn; [lia|]. destruct (f x); cbn; lia.
Qed.

(** X16.  The formats a shared entry's attributes become are exactly
    the attributes whose key has a formatter in the registry, each with
    the attribute's value; attributes under other keys are dropped, and
    no attributes give no formats. *)
Theorem remote_formats_are_the_registered_attributes (registry : Registry)
    (attrs : gmap string Value) :
  (forall formatter value,
      (formatter, value) ∈ remoteFormatsToLocal registry (Some attrs)
      <-> exists key, attrs !! key = Some value
                      /\ getFormatter registry key = Some formatter)
  /\ (length (remoteFormatsToLocal registry (Some attrs)) <= size attrs)%nat
  /\ remoteFormatsToLocal registry None = [].
Proof.
  split; [|split; [|reflexivity]].
  - intros formatter value. unfold remoteFormatsToLocal. rewrite list_elem_of_omap. split.
    + intros ([key v] & Hin & Hsome). apply elem_of_map_to_list in Hin.
      cbn [fst snd] in Hsome.
      destruct (getFormatter registry key) as [f|] eqn:Hf; [|discriminate].
      injection Hsome as <- <-. exists key. split; [exact Hin|exact Hf].
    + intros (key & Hin & Hf). exists (key, value). split.
      * apply elem_of_map_to_list. exact Hin.
      * cbn [fst snd]. rewrite Hf. reflexivity.
  - unfold remoteFormatsToLocal. rewrite <- length_map_to_list.
    apply omap_length_le.
Qed.

(** ** 15. A remote text event as a whole *)

Section RemoteEvent.
Variable registry : Registry.
Variable origin : Origin.
Variable slotId : nat.
Variable sharedSlot : YText.

(** The selection has no endpoint the replay would move: the event is
    a history replay, nothing is selected, or both endpoints stand in
    other slots. *)
Let out_of_reach (sel : Selection) : Prop :=
  origin = OriginManager
  \/ isSelected sel = false
  \/ (anchorSlot sel <> Some slotId /\ focusSlot sel <> Some slotId).

Lemma selection_after_insert_out_of_reach index length sel :
  out_of_reach sel -> selection_after_insert origin slotId index length sel = sel.
Proof.
  intros [->|[Hsel|[Hanchor Hfocus]]].
  - apply selection_after_insert_history.
  - unfold selection_after_insert. rewrite Hsel. reflexivity.
  - unfold selection_after_insert.
    rewrite (bool_decide_eq_false_2 (anchorSlot sel = Some slotId)) by exact Hanchor.
    cbn [andb].
    rewrite (bool_decide_eq_false_2 (focusSlot sel = Some slotId)) by exact Hfocus.
    cbn [andb]. destruct (isSelected sel && bool_decide (origin <> OriginManager));
      reflexivity.
Qed.

Lemma selection_after_delete_out_of_reach index count sel :
  out_of_reach sel -> selection_after_delete origin slotId index count sel = sel.
Proof.
  intros [->|[Hsel|[Hanchor Hfocus]]].
  - apply selection_after_delete_history.
  - unfold selection_after_delete. rewrite Hsel. reflexivity.
  - unfold selection_after_delete.
    rewrite (bool_decide_eq_false_2 (anchorSlot sel = Some slotId)) by exact Hanchor.
    cbn [andb].
    rewrite (bool_decide_eq_false_2 (focusSlot sel = Some slotId)) by exact Hfocus.
    cbn [andb]. destruct (isSelected sel && bool_decide (origin <> OriginManager));
      reflexivity.
Qed.

Lemma remote_delta_fold_throw (delta : list (DeltaOp Shared)) e :
  foldl (remote_delta_step registry origin slotId) (Throw e) delta = Throw e.
Proof. induction delta as [|op rest IH]; [reflexivity|]. cbn. exact IH. Qed.

Lemma remote_delta_step_out_of_reach (op : DeltaOp Shared) slot sel :
  out_of_reach sel ->
  (exists slot', remote_delta_step registry origin slotId (Ok (slot, sel)) op
                 = Ok (slot', sel))
  \/ (exists e, remote_delta_step registry origin slotId (Ok (slot, sel)) op = Throw e).
Proof.
  intros Hout. cbn [remote_delta_step mbind Result_bind].
  destruct op as [insert attributes|retain attributes|count].
  - destruct (insert_truthy insert); [|left; eexists; reflexivity].
    destruct insert as [text|[[| | |text|]|entries|items|text]];
      first
        [ left; eexists;
          rewrite selection_after_insert_out_of_reach by exact Hout; reflexivity
        | destruct (createLocalComponentBySharedComponent registry _)
            as [component|e];
          cbn [mbind Result_bind];
          [ left; eexists;
            rewrite selection_after_insert_out_of_reach by exact Hout; reflexivity
          | right; eexists; reflexivity ] ].
  - left. destruct attributes; eexists; reflexivity.
  - destruct (count =? 0)%nat; left; eexists; [reflexivity|].
    rewrite selection_after_delete_out_of_reach by exact Hout. reflexivity.
Qed.

Lemma remote_delta_fold_out_of_reach (delta : list (DeltaOp Shared)) : forall slot sel,
  out_of_reach sel ->
  (exists slot', foldl (remote_delta_step registry origin slotId) (Ok (slot, sel)) delta
                 = Ok (slot', sel))
  \/ (exists e, foldl (remote_delta_step registry origin slotId) (Ok (slot, sel)) delta
                = Throw e).
Proof.
  induction delta as [|op rest IH]; intros slot sel Hout.
  - left. exists slot. reflexivity.
  - cbn [foldl].
    destruct (remote_delta_step_out_of_reach op slot sel Hout) as [[slot' ->]|[e ->]].
    + apply IH. exact Hout.
    + right. exists e. apply remote_delta_fold_throw.
Qed.

(** X17.  A remote text event replayed as history, or while nothing
    is selected, or while both endpoints of the selection stand in
    other slots, leaves the selection exactly as it was, whatever the
    event's delta holds. *)
Theorem remote_event_leaves_other_selections (ev : YTextEvent) slot sel slot' sel' :
  origin = OriginManager
  \/ isSelected sel = false
  \/ (anchorSlot sel <> Some slotId /\ focusSlot sel <> Some slotId) ->
  syncRemote registry origin slotId sharedSlot ev (slot, sel) = Ok (slot', sel') ->
  sel' = sel.
Proof.
  intros Hout. unfold syncRemote.
  destruct (remote_delta_fold_out_of_reach (event_delta ev)
              (foldl (remote_key_step registry sharedSlot) (Slot_retain 0 slot)
                     (event_keys ev)) sel Hout) as [[s ->]|[e ->]].
  - intros [= _ <-]. reflexivity.
  - discriminate.
Qed.

Lemma remote_key_step_content localSlot key :
  slot_content (remote_key_step registry sharedSlot localSlot key) = slot_content localSlot
  /\ slot_schema (remote_key_step registry sharedSlot localSlot key)
     = slot_schema localSlot
  /\ slot_index (remote_key_step registry sharedSlot localSlot key) = slot_index localSlot.
Proof.
  unfold remote_key_step.
  destruct (snd key) as [[| |]|]; destruct (getAttribute registry (fst key));
    repeat split; reflexivity.
Qed.

Lemma remote_key_fold_content (keys : list (string * option KeyAction)) : forall s,
  slot_content (foldl (remote_key_step registry sharedSlot) s keys) = slot_content s
  /\ slot_schema (foldl (remote_key_step registry sharedSlot) s keys) = slot_schema s
  /\ slot_index (foldl (remote_key_step registry sharedSlot) s keys) = slot_index s
  /\ (Forall (fun key => getAttribute registry (fst key) = None \/ snd key = None) keys ->
      slot_attributes (foldl (remote_key_step registry sharedSlot) s keys)
      = slot_attributes s).
Proof.
  induction keys as [|key rest IH]; intros s.
  - cbn [foldl]. repeat split; reflexivity.
  - cbn [foldl].
    destruct (remote_key_step_content s key) as (Hc & Hs & Hi).
    destruct (IH (remote_key_step registry sharedSlot s key)) as (Hc' & Hs' & Hi' & Ha').
    split; [congruence|]. split; [congruence|]. split; [congruence|].
    intros Hkeys. apply Forall_cons in Hkeys as [Hkey Hrest].
    rewrite (Ha' Hrest). unfold remote_key_step.
    destruct Hkey as [-> | ->]; [|reflexivity].
    destruct (snd key) as [[| |]|]; reflexivity.
Qed.

(** X18.  A remote text event that only changes attribute keys always
    replays: the slot's content and schema stay as they were, the
    cursor goes to the start and the selection is not touched; keys
    without an attribute in the registry, and keys the event has no
    change for, leave the slot's attributes as they were too. *)
Theorem remote_key_changes_leave_content (keys : list (string * option KeyAction))
    slot sel :
  exists slot',
    syncRemote registry origin slotId sharedSlot (mkYTextEvent keys []) (slot, sel)
    = Ok (slot', sel)
    /\ slot_content slot' = slot_content slot
    /\ slot_schema slot' = slot_schema slot
    /\ slot_index slot' = 0%nat
    /\ (Forall (fun key => getAttribute registry (fst key) = None \/ snd key = None) keys ->
        slot_attributes slot' = slot_attributes slot).
Proof.
  unfold syncRemote. cbn [event_keys event_delta foldl].
  eexists. split; [reflexivity|].
  destruct (remote_key_fold_content keys (Slot_retain 0 slot)) as (Hc & Hs & Hi & Ha).
  split; [exact Hc|]. split; [exact Hs|]. split; [exact Hi|exact Ha].
Qed.
End RemoteEvent.

Lemma remote_event_leaves_other_selections_witness :
  exists slot' sel',
    syncRemote sample_registry (OriginRemote 7) 2 (mkYText ∅ [])
      (mkYTextEvent [] [OpRetain 2 None; OpInsert (InsertText "xyz") None; OpDelete 1])
      (sample_text, caret_at_5)
    = Ok (slot', sel')
    /\ sel' = caret_at_5.
Proof.
  eexists _, _. split; [vm_compute; reflexivity|].
  apply (remote_event_leaves_other_selections sample_registry (OriginRemote 7) 2
           (mkYText ∅ [])
           (mkYTextEvent [] [OpRetain 2 None; OpInsert (InsertText "xyz") None; OpDelete 1])
           sample_text caret_at_5
           (mkSlot [Text] [] [(InsertText "ab", []); (InsertText "xyz", []);
                              (InsertText "defgh", [])] 5)).
  - right. right. split; discriminate.
  - vm_compute. reflexivity.
Defined.

Lemma remote_key_changes_leave_content_witness :
  exists slot',
    syncRemote sample_registry (OriginRemote 7) 1 (mkYText ∅ [])
      (mkYTextEvent [("width", Some KeyAdd); ("align", None)] []) (sample_slot, caret_at_5)
    = Ok (slot', caret_at_5)
    /\ slot_content slot' = slot_content sample_slot
    /\ slot_attributes slot' = slot_attributes sample_slot.
Proof.
  destruct (remote_key_changes_leave_content sample_registry (OriginRemote 7) 1
              (mkYText ∅ []) [("width", Some KeyAdd); ("align", None)]
              sample_slot caret_at_5)
    as (slot' & Hrun & Hcontent & _ & _ & Hattributes).
  exists slot'. split; [exact Hrun|]. split; [exact Hcontent|].
  apply Hattributes.
  apply List.Forall_cons; [left; reflexivity|].
  apply List.Forall_cons; [right; reflexivity|]. apply List.Forall_nil.
Defined.

(** ** 16. Local actions that carry no content *)

Lemma local_action_step_neutral (registry : Registry) (action : Action)
    (st : nat * nat * YText) :
  match action with
  | ActionRetain _ (Some formats) =>
      forall key, is_Some (formats !! key) -> getFormatter registry key = None
  | ActionRetain _ None | ActionAttrSet _ _ | ActionAttrDelete _ => True
  | _ => False
  end ->
  YText_toDelta (snd (local_action_step registry st action)) = YText_toDelta (snd st).
Proof.
  destruct st as [[offset length] sharedSlot].
  destruct action as [action_offset [formats|]|content formats|count|name value|name];
    cbn [local_action_step snd]; try contradiction; try reflexivity.
  intros Hunknown.
  assert (Hempty : filter (fun kv : string * Value => is_Some (getFormatter registry (fst kv)))
                          formats = ∅).
  { apply map_empty_filter. apply map_Forall_lookup_2. intros key value Hkey.
    cbn [fst]. rewrite (Hunknown key) by (exists value; exact Hkey).
    intros [? [=]]. }
  rewrite Hempty, map_size_empty. reflexivity.
Qed.

Lemma local_action_step_known_formats (registry : Registry) (action : Action)
    (st : nat * nat * YText) :
  local_action_step registry st (known_formats registry action)
  = local_action_step registry st action.
Proof.
  destruct st as [[offset length] sharedSlot].
  destruct action as [action_offset [formats|]|content formats|count|name value|name];
    try reflexivity.
  cbn [known_formats local_action_step].
  rewrite map_filter_filter_l by (intros key value _ Hknown; exact Hknown).
  reflexivity.
Qed.

(** X19.  Of the formats of a formatting retain, only those under
    names the registry has a formatter for reach the shared text:
    replaying the actions with the other names taken out of every
    formatting retain gives the same shared text, and a replay of
    plain retains, attribute actions and formatting retains that
    carry only such other names leaves the content of the shared text
    as it was.  A content insertion is not filtered: its formats are
    written whatever their names. *)
Theorem retain_formats_are_filtered_by_the_registry (registry : Registry) :
  (forall (actions : list Action) (sharedSlot : YText),
      replay_local_actions registry (known_formats registry <$> actions) sharedSlot
      = replay_local_actions registry actions sharedSlot)
  /\ (forall (actions : list Action) (sharedSlot : YText),
        Forall (fun action =>
                  match action with
                  | ActionRetain _ (Some formats) =>
                      forall key, is_Some (formats !! key) ->
                                  getFormatter registry key = None
                  | ActionRetain _ None | ActionAttrSet _ _ | ActionAttrDelete _ => True
                  | _ => False
                  end) actions ->
        YText_toDelta (replay_local_actions registry actions sharedSlot)
        = YText_toDelta sharedSlot)
  /\ (forall (text : string) (formats : gmap string Value),
        String.length text <> 0%nat ->
        YText_toDelta
          (replay_local_actions registry
             [ActionContentInsert (InsertText text) (Some formats)] YText_new)
        = [OpInsert (InsertText text) (shown_attributes formats)]).
Proof.
  split; [|split].
  - intros actions sharedSlot. unfold replay_local_actions. f_equal.
    generalize (0%nat, 0%nat, sharedSlot).
    induction actions as [|action rest IH]; intros st; [reflexivity|].
    cbn [fmap list_fmap foldl]. rewrite local_action_step_known_formats. apply IH.
  - intros actions sharedSlot. unfold replay_local_actions.
    change sharedSlot with (snd (0%nat, 0%nat, sharedSlot)) at 2.
    generalize (0%nat, 0%nat, sharedSlot).
    induction actions as [|action rest IH]; intros st Hall; [reflexivity|].
    apply Forall_cons in Hall as [Haction Hrest]. cbn [foldl].
    rewrite IH by exact Hrest. apply local_action_step_neutral. exact Haction.
  - intros text formats Hlen. unfold replay_local_actions.
    cbn [foldl local_action_step YText_new YText_toDelta is_placeholder_only andb snd
         default].
    unfold YText_insert.
    destruct (Nat.eqb_spec (String.length text) 0) as [E|_]; [contradiction|].
    reflexivity.
Qed.

Lemma retain_formats_are_filtered_by_the_registry_witness :
  YText_toDelta
    (replay_local_actions sample_registry
       [ActionRetain 1 None; ActionRetain 2 (Some {["italic" := VBool true]});
        ActionAttrSet "align" (VString "left")]
       (createSharedSlotByLocalSlot sample_slot))
  = YText_toDelta (createSharedSlotByLocalSlot sample_slot)
  /\ YText_toDelta
       (replay_local_actions sample_registry
          [ActionContentInsert (InsertText "ab") (Some {["italic" := VBool true]})]
          YText_new)
     = [OpInsert (InsertText "ab") (Some {["italic" := VBool true]})].
Proof.
  destruct (retain_formats_are_filtered_by_the_registry sample_registry)
    as (_ & Hneutral & Hinsert).
  split.
  - apply Hneutral. repeat constructor. intros key [value Hkey].
    destruct (decide (key = "italic")) as [->|Hne]; [reflexivity|].
    rewrite lookup_singleton_ne in Hkey by congruence. discriminate.
  - rewrite Hinsert by discriminate. vm_compute. reflexivity.
Defined.

(** ** 17. The batching signal *)

(** X20.  A batch that holds no change or only remote changes is
    dropped in front of the flush: nothing is sent and the pending
    queue waits, whole, for the next batch with a local change, which
    flushes it. *)
Theorem remote_only_batch_keeps_the_queue {A : Type} (changes changes' : list ChangeOrigin)
    (queue : list (@UpdateItem A)) :
  Forall (fun from => from = ChangeRemote) changes ->
  (exists from, from ∈ changes' /\ from <> ChangeRemote) ->
  onDocChanged changes queue = (queue, [])
  /\ onDocChanged changes' (fst (onDocChanged changes queue)) = flush queue
  /\ fst (flush queue) = [].
Proof.
  intros Hremote Hlocal.
  assert (Hdropped : onDocChanged changes queue = (queue, [])).
  { unfold onDocChanged.
    replace (filter (fun from => from <> ChangeRemote) changes) with (@nil ChangeOrigin);
      [reflexivity|].
    symmetry. induction Hremote as [|from rest -> Hrest IH]; [reflexivity|].
    rewrite filter_cons. destruct (decide (ChangeRemote <> ChangeRemote)); [congruence|].
    exact IH. }
  split; [exact Hdropped|]. rewrite Hdropped. cbn [fst].
  split; [apply onDocChanged_flushes; exact Hlocal|reflexivity].
Qed.

(** ** 18. The attributes of a materialised slot *)

Section MaterialisedAttributes.
Variable registry : Registry.

Lemma local_slot_step_attributes acc op slot :
  local_slot_step registry (createLocalComponentBySharedComponent registry) acc op
  = Ok slot ->
  exists before,
    acc = Ok before
    /\ slot_attributes slot = slot_attributes before
    /\ slot_schema slot = slot_schema before.
Proof.
  destruct acc as [before|e]; [|discriminate].
  cbn [local_slot_step mbind Result_bind]. intros Hstep. exists before.
  split; [reflexivity|].
  assert (Hinsert : forall content formats,
    slot_attributes (Slot_insert content formats before) = slot_attributes before
    /\ slot_schema (Slot_insert content formats before) = slot_schema before).
  { intros content formats. unfold Slot_insert.
    destruct (_ && _); split; reflexivity. }
  destruct op as [insert attributes|retain attributes|count]; try discriminate.
  destruct (insert_truthy insert); [|discriminate].
  destruct insert as [text|[[| | |text|]|entries|items|text]];
    first
      [ injection Hstep as <-; apply Hinsert
      | destruct (createLocalComponentBySharedComponent registry _) as [component|e];
        [|discriminate];
        cbn [mbind Result_bind] in Hstep; injection Hstep as <-; apply Hinsert ].
Qed.

Lemma local_slot_fold_attributes (delta : list (DeltaOp Shared)) : forall start slot,
  foldl (local_slot_step registry (createLocalComponentBySharedComponent registry))
        (Ok start) delta = Ok slot ->
  slot_attributes slot = slot_attributes start /\ slot_schema slot = slot_schema start.
Proof.
  induction delta as [|op rest IH] using rev_ind; intros start slot.
  - cbn. intros [= <-]. split; reflexivity.
  - rewrite foldl_app. cbn [foldl]. intros Hstep.
    apply local_slot_step_attributes in Hstep as (before & Hbefore & Hattrs & Hschema).
    destruct (IH start before Hbefore) as [Ha Hs]. split; congruence.
Qed.

Lemma local_attribute_fold_registered (entries : list (string * Value)) : forall start,
  slot_schema (foldl (local_attribute_step registry) start entries) = slot_schema start
  /\ forall attribute value,
       (attribute, value) ∈ slot_attributes
                               (foldl (local_attribute_step registry) start entries) ->
       (attribute, value) ∈ slot_attributes start
       \/ exists key, (key, value) ∈ entries /\ getAttribute registry key = Some attribute.
Proof.
  induction entries as [|[key v] rest IH]; intros start.
  - cbn [foldl]. split; [reflexivity|]. intros attribute value Hin. left. exact Hin.
  - cbn [foldl]. destruct (IH (local_attribute_step registry start (key, v)))
      as [Hschema Hattrs].
    split.
    + rewrite Hschema. unfold local_attribute_step. cbn [fst snd].
      destruct (getAttribute registry key); reflexivity.
    + intros attribute value Hin. destruct (Hattrs attribute value Hin) as [Hstep|Hrest].
      * unfold local_attribute_step in Hstep. cbn [fst snd] in Hstep.
        destruct (getAttribute registry key) as [a|] eqn:Hkey; [|left; exact Hstep].
        unfold Slot_setAttribute in Hstep. cbn [slot_attributes] in Hstep.
        apply map_set_elem in Hstep as [[= -> ->]|Hold]; [|left; exact Hold].
        right. exists key. split; [left|exact Hkey].
      * destruct Hrest as (k & Hk & Hreg). right. exists k. split; [right; exact Hk|exact Hreg].
Qed.

(** X21.  Whenever a slot is materialised from a shared text, each of
    its attributes is an attribute of the shared text under a key the
    registry knows, with the value it has there: attributes under
    other keys, the reserved ['__schema__'] among them, are dropped
    without an error; the slot's schema is the one the shared text
    carries, or empty. *)
Theorem materialised_attributes_are_registered (attrs : gmap string Value)
    (delta : list (DeltaOp Shared)) (slot : Slot) :
  createLocalSlotBySharedSlot registry (mkYText attrs delta) = Ok slot ->
  slot_schema slot = schema_or_empty (attrs !! "__schema__")
  /\ forall attribute value,
       (attribute, value) ∈ slot_attributes slot ->
       exists key, attrs !! key = Some value /\ getAttribute registry key = Some attribute.
Proof.
  cbn [createLocalSlotBySharedSlot]. intros Hslot.
  apply local_slot_fold_attributes in Hslot as [Hattrs Hschema].
  destruct (local_attribute_fold_registered (map_to_list attrs)
              (Slot_new (schema_or_empty (attrs !! "__schema__")))) as [Hs Ha].
  split; [rewrite Hschema, Hs; reflexivity|].
  intros attribute value Hin. rewrite Hattrs in Hin.
  destruct (Ha attribute value Hin) as [Hnew|(key & Hkey & Hreg)].
  - cbn in Hnew. apply not_elem_of_nil in Hnew. contradiction.
  - exists key. split; [|exact Hreg]. apply elem_of_map_to_list. exact Hkey.
Qed.
End MaterialisedAttributes.

Lemma materialised_attributes_are_registered_witness :
  exists slot,
    createLocalSlotBySharedSlot sample_registry
      (mkYText {["align" := VString "left"; "width" := VNumber 3;
                 "__schema__" := VContentTypes [Text]]}
               [OpInsert (InsertText "ab") None]) = Ok slot
    /\ slot_schema slot = [Text]
    /\ forall attribute value,
         (attribute, value) ∈ slot_attributes slot ->
         exists key,
           ({["align" := VString "left"; "width" := VNumber 3;
              "__schema__" := VContentTypes [Text]]} : gmap string Value) !! key
           = Some value
           /\ getAttribute sample_registry key = Some attribute.
Proof.
  destruct (createLocalSlotBySharedSlot sample_registry
              (mkYText {["align" := VString "left"; "width" := VNumber 3;
                         "__schema__" := VContentTypes [Text]]}
                       [OpInsert (InsertText "ab") None])) as [slot|e] eqn:Hrun;
    [|vm_compute in Hrun; discriminate].
  exists slot. split; [reflexivity|].
  destruct (materialised_attributes_are_registered sample_registry
              {["align" := VString "left"; "width" := VNumber 3;
                "__schema__" := VContentTypes [Text]]}
              [OpInsert (InsertText "ab") None] slot Hrun) as [Hschema Hattributes].
  split; [rewrite Hschema; vm_compute; reflexivity|exact Hattributes].
Defined.

Lemma remote_only_batch_keeps_the_queue_witness :
  onDocChanged [ChangeRemote; ChangeRemote]
    [mkUpdateItem true 1%nat; mkUpdateItem true 2%nat]
  = ([mkUpdateItem true 1%nat; mkUpdateItem true 2%nat], [])
  /\ onDocChanged [ChangeRemote; ChangeLocal]
       (fst (onDocChanged [ChangeRemote; ChangeRemote]
               [mkUpdateItem true 1%nat; mkUpdateItem true 2%nat]))
     = flush [mkUpdateItem true 1%nat; mkUpdateItem true 2%nat]
  /\ fst (flush [mkUpdateItem true 1%nat; mkUpdateItem true 2%nat]) = [].
Proof.
  apply (remote_only_batch_keeps_the_queue [ChangeRemote; ChangeRemote]
           [ChangeRemote; ChangeLocal]
           [mkUpdateItem true 1%nat; mkUpdateItem true 2%nat]).
  - repeat constructor.
  - exists ChangeLocal. split; [|discriminate].
    apply elem_of_cons. right. apply elem_of_cons. left. reflexivity.
Defined.

(** ** 19. An edit after an undo *)

Section EditAfterUndo.
Context {P S A : Type}.
Variable resolve : P -> option A.

Lemma set_length_cut {X : Type} (items : list (option X)) entry :
  set_length (Z.of_nat (length items)) (items ++ [entry]) = Some items.
Proof.
  unfold set_length. destruct (Z.ltb_spec (Z.of_nat (length items)) 0) as [E|_]; [lia|].
  rewrite Nat2Z.id, take_app_length, length_app. cbn [length].
  replace (length items - (length items + 1))%nat with 0%nat by lia.
  cbn. rewrite app_nil_r. reflexivity.
Qed.

Lemma back_from_exact_history (stackSize : Z) bp cur
    (items : list (option (HistoryPosition P))) (stack : list S) entry item :
  length items = length stack ->
  Z.of_nat (length stack + 1) <= stackSize ->
  exists call,
    back resolve stackSize bp cur
      (mkHistory (items ++ [entry]) (Z.of_nat (length items + 1)) (stack ++ [item]) [])
    = Some (mkHistory (items ++ [entry]) (Z.of_nat (length items)) stack [item], call).
Proof.
  intros Hlength Hbound.
  unfold back, canBack. cbn [undoStack]. rewrite length_app. cbn [length].
  replace (length stack + 1 =? 0)%nat with false by (symmetry; apply Nat.eqb_neq; lia).
  cbn [negb]. unfold manager_undo. cbn [undoStack redoStack historyItems index].
  rewrite last_snoc, removelast_last. unfold on_stack_item_added.
  cbn [event_type event_origin mbind option_bind historyItems index undoStack redoStack].
  unfold evict_oldest. cbn [undoStack].
  destruct (Z.gtb_spec (Z.of_nat (length stack)) stackSize) as [E|_]; [lia|].
  cbn [fst snd app]. eexists. f_equal. f_equal. f_equal. lia.
Qed.

(** X22.  Within the bound, an edit made after [back()] takes the
    place of the undone edit: the undone entry is cut from the cursor
    history, nothing is left to redo, and the history is the one the
    edits would have given had the undone edit never been made. *)
Theorem edit_after_back_replaces_the_undone_entry (stackSize : Z)
    (edits : list (S * option P * option P)) (undone edit : S * option P * option P)
    bp cur :
  Z.of_nat (length edits + 1) <= stackSize ->
  exists h h1 h2 call,
    undoable_edits stackSize (edits ++ [undone]) initial_history = Some h
    /\ back resolve stackSize bp cur h = Some (h1, call)
    /\ undoable_edit stackSize edit h1 = Some (h2, [PushEvent; ChangeEvent])
    /\ undoable_edits stackSize (edits ++ [edit]) initial_history = Some h2
    /\ canForward h2 = false.
Proof.
  intros Hbound.
  set (items := edit_position <$> edits).
  set (stack := (fun e : S * option P * option P => fst (fst e)) <$> edits).
  assert (Hitems : length items = length edits) by apply length_fmap.
  assert (Hstack : length stack = length edits) by apply length_fmap.
  assert (Hexact : forall last : S * option P * option P,
    undoable_edits stackSize (edits ++ [last]) initial_history
    = Some (mkHistory (items ++ [edit_position last]) (Z.of_nat (length items + 1))
                      (stack ++ [fst (fst last)]) [])).
  { intros last.
    rewrite (undoable_edits_exact stackSize _ initial_history eq_refl)
      by (rewrite length_app; cbn; lia).
    cbn [historyItems index undoStack redoStack initial_history app].
    rewrite !fmap_app, length_app. cbn [fmap list_fmap length].
    rewrite Hitems. destruct edits; reflexivity. }
  destruct (back_from_exact_history stackSize bp cur items stack
              (edit_position undone) (fst (fst undone))) as [call Hback];
    [congruence|lia|].
  eexists _, _, _, call. split; [apply Hexact|]. split; [exact Hback|].
  split; [|split; [apply Hexact|reflexivity]].
  destruct edit as [[item before_edit] after_edit].
  rewrite undoable_edit_unfold. cbn [historyItems index undoStack].
  rewrite set_length_cut. cbn [mbind option_bind].
  unfold evict_oldest. cbn [undoStack]. rewrite length_app. cbn [length].
  destruct (Z.gtb_spec (Z.of_nat (length stack + 1)) stackSize) as [E|_]; [lia|].
  f_equal. f_equal. f_equal. lia.
Qed.
End EditAfterUndo.

Lemma edit_after_back_replaces_the_undone_entry_witness :
  exists h h1 h2 : History nat nat,
    undoable_edits 3 ([(10%nat, None, Some 1%nat)] ++ [(11%nat, Some 1%nat, Some 2%nat)])
      initial_history = Some h
    /\ fst <$> back Some 3 None None h = Some h1
    /\ undoable_edit 3 (12%nat, Some 1%nat, Some 3%nat) h1
       = Some (h2, [PushEvent; ChangeEvent])
    /\ undoable_edits 3 ([(10%nat, None, Some 1%nat)] ++ [(12%nat, Some 1%nat, Some 3%nat)])
         initial_history = Some h2.
Proof.
  destruct (edit_after_back_replaces_the_undone_entry (A := nat) Some 3
              [(10%nat, None, Some 1%nat)] (11%nat, Some 1%nat, Some 2%nat)
              (12%nat, Some 1%nat, Some 3%nat) None None)
    as (h & h1 & h2 & call & Hedits & Hback & Hedit & Hsame & _); [cbn; lia|].
  exists h, h1, h2. split; [exact Hedits|]. split; [rewrite Hback; reflexivity|].
  split; [exact Hedit|exact Hsame].
Defined.

(** ** 20. A session of edits, undos and redos *)

Section SessionFacts.
Context {P S A : Type}.
Variable resolve : P -> option A.
Implicit Types (h : History P S) (ops : list (HistoryOp P S)).

Lemma set_length_take {X : Type} (n : nat) (l : list (option X)) :
  (n <= length l)%nat -> set_length (Z.of_nat n) l = Some (take n l).
Proof.
  intros Hn. unfold set_length. destruct (Z.ltb_spec (Z.of_nat n) 0) as [E|_]; [lia|].
  rewrite Nat2Z.id. replace (n - length l)%nat with 0%nat by lia.
  cbn. rewrite app_nil_r. reflexivity.
Qed.

Lemma snoc_cases {X : Type} (l : list X) : l = [] \/ exists l' x, l = l' ++ [x].
Proof.
  induction l as [|x l _] using rev_ind; [left; reflexivity|right; eauto].
Qed.

Lemma edit_stays_in_step (stackSize : Z) edit h :
  in_step h ->
  Z.of_nat (length (undoStack h) + 1) <= stackSize ->
  exists h',
    undoable_edit stackSize edit h = Some (h', [PushEvent; ChangeEvent])
    /\ in_step h'
    /\ length (undoStack h') = (length (undoStack h) + 1)%nat
    /\ redoStack h' = [].
Proof.
  intros (Hindex & Hitems & Hfull) Hbound. destruct edit as [[item bp] cur].
  rewrite undoable_edit_unfold, Hindex, set_length_take by lia.
  cbn [mbind option_bind]. unfold evict_oldest. cbn [undoStack].
  rewrite length_app. cbn [length].
  destruct (Z.gtb_spec (Z.of_nat (length (undoStack h) + 1)) stackSize) as [E|_]; [lia|].
  eexists. split; [reflexivity|]. unfold in_step.
  cbn [index historyItems undoStack redoStack].
  rewrite !length_app, length_take. cbn [length].
  split; [|split; [reflexivity|reflexivity]].
  split; [lia|]. split; [lia|].
  apply Forall_app. split; [apply Forall_take; exact Hfull|].
  apply Forall_cons. split; [eexists; reflexivity|apply List.Forall_nil].
Qed.

Lemma back_stays_in_step (stackSize : Z) bp cur h :
  in_step h ->
  Z.of_nat (length (undoStack h)) <= stackSize ->
  exists h' call,
    back resolve stackSize bp cur h = Some (h', call)
    /\ in_step h'
    /\ (length (undoStack h') + length (redoStack h')
        = length (undoStack h) + length (redoStack h))%nat
    /\ (length (undoStack h') <= length (undoStack h))%nat.
Proof.
  intros (Hindex & Hitems & Hfull) Hbound. unfold back, canBack.
  destruct (snoc_cases (undoStack h)) as [Hempty|(stack & item & Hstack)].
  - exists h, None. split; [rewrite Hempty; reflexivity|].
    split; [repeat split; assumption|]. split; lia.
  - rewrite Hstack, length_app. cbn [length].
    replace (length stack + 1 =? 0)%nat with false by (symmetry; apply Nat.eqb_neq; lia).
    cbn [negb]. unfold manager_undo. rewrite Hstack, last_snoc, removelast_last.
    unfold on_stack_item_added.
    cbn [event_type event_origin mbind option_bind historyItems index undoStack redoStack].
    unfold evict_oldest. cbn [undoStack].
    rewrite Hstack, length_app in Hbound, Hindex, Hitems. cbn [length] in *.
    destruct (Z.gtb_spec (Z.of_nat (length stack)) stackSize) as [E|_]; [lia|].
    cbn [fst snd]. eexists _, _. split; [reflexivity|]. unfold in_step.
    cbn [index historyItems undoStack redoStack]. rewrite !length_app. cbn [length].
    repeat split; try lia. exact Hfull.
Qed.

Lemma forward_stays_in_step (stackSize : Z) bp cur h :
  in_step h ->
  Z.of_nat (length (undoStack h) + length (redoStack h)) <= stackSize ->
  exists h' call,
    forward resolve stackSize bp cur h = Some (h', call)
    /\ in_step h'
    /\ (length (undoStack h') + length (redoStack h')
        = length (undoStack h) + length (redoStack h))%nat.
Proof.
  intros (Hindex & Hitems & Hfull) Hbound. unfold forward, canForward.
  destruct (snoc_cases (redoStack h)) as [Hempty|(stack & item & Hstack)].
  - exists h, None. split; [rewrite Hempty; reflexivity|].
    split; [repeat split; assumption|]. lia.
  - rewrite Hstack, length_app. cbn [length].
    replace (length stack + 1 =? 0)%nat with false by (symmetry; apply Nat.eqb_neq; lia).
    cbn [negb]. unfold manager_redo. rewrite Hstack, last_snoc, removelast_last.
    unfold on_stack_item_added.
    cbn [event_type event_origin mbind option_bind historyItems index undoStack redoStack].
    destruct (decide (OriginManager = OriginManager)) as [_|Hne]; [|contradiction].
    cbn [mbind option_bind fst snd].
    unfold evict_oldest. cbn [undoStack].
    rewrite Hstack, length_app in Hbound, Hitems. cbn [length] in *.
    rewrite length_app. cbn [length].
    destruct (Z.gtb_spec (Z.of_nat (length (undoStack h) + 1)) stackSize) as [E|_]; [lia|].
    cbn [fst snd]. eexists _, _. split; [reflexivity|]. unfold in_step.
    cbn [index historyItems undoStack redoStack]. rewrite !length_app. cbn [length].
    repeat split; try lia. exact Hfull.
Qed.

Lemma count_edits_cons op ops :
  count_edits (op :: ops)
  = (match op with DoEdit _ => 1 | _ => 0 end + count_edits ops)%nat.
Proof.
  destruct op; reflexivity.
Qed.

(** X23.  As long as the stack items in play stay within the
    configured size, every session of edits, undos and redos runs
    without an error and keeps the cursor history in step with the
    two stacks of the undo manager: [index] is the height of the undo
    stack, there is one entry per stack item and none is a hole. *)
Theorem history_stays_in_step (stackSize : Z) ops : forall h,
  in_step h ->
  Z.of_nat (length (undoStack h) + length (redoStack h) + count_edits ops) <= stackSize ->
  exists h',
    history_session resolve stackSize ops h = Some h'
    /\ in_step h'
    /\ (length (undoStack h') + length (redoStack h')
        <= length (undoStack h) + length (redoStack h) + count_edits ops)%nat.
Proof.
  unfold history_session.
  induction ops as [|op ops IH]; intros h Hstep Hbound.
  - exists h. split; [reflexivity|]. split; [exact Hstep|]. lia.
  - rewrite count_edits_cons in *. cbn [foldl history_step mbind option_bind].
    destruct op as [edit| |].
    + destruct (edit_stays_in_step stackSize edit h Hstep) as (h1 & -> & H1 & Hu & Hr);
        [lia|].
      cbn [fmap option_fmap option_map fst].
      destruct (IH h1 H1) as (h' & Hrun & H' & Hlen); [rewrite Hu, Hr; cbn; lia|].
      exists h'. split; [exact Hrun|]. split; [exact H'|].
      rewrite Hu, Hr in Hlen. cbn in Hlen. lia.
    + destruct (back_stays_in_step stackSize None None h Hstep)
        as (h1 & call & -> & H1 & Hsum & _); [lia|].
      cbn [fmap option_fmap option_map fst].
      destruct (IH h1 H1) as (h' & Hrun & H' & Hlen); [lia|].
      exists h'. split; [exact Hrun|]. split; [exact H'|]. lia.
    + destruct (forward_stays_in_step stackSize None None h Hstep)
        as (h1 & call & -> & H1 & Hsum); [lia|].
      cbn [fmap option_fmap option_map fst].
      destruct (IH h1 H1) as (h' & Hrun & H' & Hlen); [lia|].
      exists h'. split; [exact Hrun|]. split; [exact H'|]. lia.
Qed.
End SessionFacts.

Lemma history_stays_in_step_witness :
  exists h' : History nat nat,
    history_session (A := nat) Some 3
      [DoEdit (10%nat, None, Some 1%nat); DoEdit (11%nat, Some 1%nat, Some 2%nat);
       DoBack; DoBack; DoForward; DoEdit (12%nat, Some 1%nat, Some 3%nat); DoForward]
      initial_history = Some h'
    /\ in_step h'.
Proof.
  destruct (history_stays_in_step (A := nat) Some 3
              [DoEdit (10%nat, None, Some 1%nat); DoEdit (11%nat, Some 1%nat, Some 2%nat);
               DoBack; DoBack; DoForward; DoEdit (12%nat, Some 1%nat, Some 3%nat);
               DoForward]
              initial_history) as (h' & Hrun & Hstep & _).
  - split; [reflexivity|]. split; [reflexivity|]. apply List.Forall_nil.
  - vm_compute. discriminate.
  - exists h'. split; [exact Hrun|exact Hstep].
Defined.

(** ** 21. What happens between two flushes *)

Section BetweenFacts.
Context {A L : Type}.
Implicit Types (w : World A L) (steps : list (EngineStep A L)).

Lemma maximal_runs_recorded (fns : list A) :
  fns <> [] ->
  maximal_runs (map (mkUpdateItem true) fns) = [map (mkUpdateItem true) fns].
Proof.
  induction fns as [|fn rest IH]; [contradiction|]. intros _.
  destruct rest as [|fn' rest]; [reflexivity|].
  change (map (mkUpdateItem true) (fn :: fn' :: rest))
    with (mkUpdateItem true fn :: map (mkUpdateItem true) (fn' :: rest)).
  cbn [maximal_runs]. rewrite IH by discriminate. reflexivity.
Qed.

Lemma engine_step_queue w step :
  updateFromRemote (engine_step w step)
  = match step with
    | StepLocalEdit _ _ => updateFromRemote w
    | StepEvent origin _ outcome =>
        if decide (origin = OriginYDoc) then updateFromRemote w
        else match outcome with
             | Returned => false
             | Thrown => true
             end
    end
  /\ updateRemoteActions (engine_step w step)
     = updateRemoteActions w
       ++ match step with
          | StepLocalEdit _ fn =>
              if updateFromRemote w then [] else [mkUpdateItem true fn]
          | StepEvent _ _ _ => []
          end.
Proof.
  destruct step as [change fn|origin mutations outcome]; cbn [engine_step].
  - unfold local_mutation, runLocalUpdate_default, runLocalUpdate. cbn.
    destruct (updateFromRemote w) eqn:Hflag; cbn; rewrite ?Hflag, ?app_nil_r;
      split; reflexivity.
  - rewrite app_nil_r. destruct (decide (origin = OriginYDoc)) as [->|Hne].
    + split; reflexivity.
    + destruct (runRemoteUpdate_replay origin mutations outcome w Hne)
        as (_ & Hqueue & _ & _ & Hflag).
      split; [exact Hflag|exact Hqueue].
Qed.

Lemma engine_steps_queue steps : forall w,
  updateRemoteActions (foldl engine_step w steps)
  = updateRemoteActions w
    ++ map (mkUpdateItem true) (heard_edits (updateFromRemote w) steps).
Proof.
  induction steps as [|step rest IH]; intros w.
  - cbn. rewrite app_nil_r. reflexivity.
  - cbn [foldl]. destruct (engine_step_queue w step) as [Hflag Hqueue].
    rewrite IH, Hqueue, Hflag, <- app_assoc. f_equal.
    destruct step as [change fn|origin mutations outcome]; cbn [heard_edits].
    + rewrite map_app. destruct (updateFromRemote w); reflexivity.
    + reflexivity.
Qed.

Lemma heard_edits_without_throw steps :
  forallb (fun step => negb (throws step)) steps = true ->
  heard_edits false steps = local_edits_of steps.
Proof.
  induction steps as [|step rest IH]; [reflexivity|].
  cbn [forallb]. intros Hsteps. apply andb_prop in Hsteps as [Hstep Hrest].
  destruct step as [change fn|origin mutations outcome];
    cbn [heard_edits local_edits_of omap app].
  - unfold local_edits_of in IH. rewrite IH by exact Hrest. reflexivity.
  - replace (if decide (origin = OriginYDoc) then false
             else match outcome with Returned => false | Thrown => true end)
      with false; [apply IH; exact Hrest|].
    destruct (decide (origin = OriginYDoc)) as [|Hne]; [reflexivity|].
    destruct outcome; [reflexivity|]. cbn [throws] in Hstep.
    rewrite bool_decide_eq_true_2 in Hstep by exact Hne. discriminate.
Qed.

Lemma heard_edits_blocked (edits : list ((L -> L) * A)) :
  heard_edits true (map (fun edit => StepLocalEdit (fst edit) (snd edit)) edits)
  = @nil A.
Proof. induction edits as [|edit rest IH]; [reflexivity|]. cbn. exact IH. Qed.

Lemma heard_edits_after_throw (before : list (EngineStep A L)) origin mutations
    (after : list (EngineStep A L)) : forall blocked,
  origin <> OriginYDoc ->
  heard_edits blocked (before ++ StepEvent origin mutations Thrown :: after)
  = heard_edits blocked before ++ heard_edits true after.
Proof.
  induction before as [|step rest IH]; intros blocked Hne.
  - cbn [app heard_edits]. destruct (decide (origin = OriginYDoc)); [contradiction|].
    reflexivity.
  - destruct step as [change fn|origin' mutations' outcome']; cbn [app heard_edits].
    + rewrite IH by exact Hne. rewrite app_assoc. reflexivity.
    + apply IH. exact Hne.
Qed.

(** X24.  Between two flushes, whatever local edits and
    shared-document events come, of any origin, with any local
    mutations made by their replay and whether the replay runs to
    its end or throws: the queue holds exactly the local edits made
    while no replay that threw was the last one to run, in order and
    all recorded, and the flush sends them as one transaction of the
    document's own origin, followed by the notification, never a
    transaction of the no-record origin.  When no replay throws,
    these are all the local edits; the local edits that follow a
    replay that threw are lost. *)
Theorem flush_sends_the_local_edits_as_one_transaction steps w :
  updateFromRemote w = false ->
  updateRemoteActions w = [] ->
  updateRemoteActions (foldl engine_step w steps)
  = map (mkUpdateItem true) (heard_edits false steps)
  /\ (heard_edits false steps <> [] ->
      flush (updateRemoteActions (foldl engine_step w steps))
      = ([], [Transact OriginYDoc (heard_edits false steps); LocalChangesApplied]))
  /\ (forallb (fun step => negb (throws step)) steps = true ->
      heard_edits false steps = local_edits_of steps)
  /\ (forall before origin mutations (edits : list ((L -> L) * A)),
        steps = before ++ StepEvent origin mutations Thrown
                       :: map (fun edit => StepLocalEdit (fst edit) (snd edit)) edits ->
        origin <> OriginYDoc ->
        heard_edits false steps = heard_edits false before).
Proof.
  intros Hidle Hempty.
  assert (Hqueue : updateRemoteActions (foldl engine_step w steps)
                   = map (mkUpdateItem true) (heard_edits false steps)).
  { rewrite engine_steps_queue, Hempty, Hidle. reflexivity. }
  split; [exact Hqueue|]. split; [|split].
  - intros Hedits. rewrite Hqueue.
    unfold flush. rewrite group_updates_spec, maximal_runs_recorded by exact Hedits.
    cbn [map app]. unfold update_origin, run_update. cbn [update_record update_actions].
    destruct (heard_edits false steps) as [|fn rest]; [contradiction|].
    cbn [map run_record record]. rewrite map_map. cbn [action]. rewrite map_id.
    reflexivity.
  - apply heard_edits_without_throw.
  - intros before origin mutations edits -> Hne.
    rewrite heard_edits_after_throw by exact Hne.
    rewrite heard_edits_blocked, app_nil_r. reflexivity.
Qed.
End BetweenFacts.

Lemma flush_sends_the_local_edits_as_one_transaction_witness :
  flush (updateRemoteActions
           (foldl engine_step (mkWorld false [] Idle [] 0%nat)
                  [StepLocalEdit S 1%nat; StepEvent (OriginRemote 7) [(S, 2%nat)] Returned;
                   StepEvent OriginManager [(S, 3%nat)] Thrown; StepLocalEdit S 4%nat]))
  = ([], [Transact OriginYDoc [1%nat]; LocalChangesApplied])
  /\ heard_edits false
       [StepLocalEdit S 1%nat; StepEvent (OriginRemote 7) [(S, 2%nat)] Returned;
        StepEvent OriginManager [(S, 3%nat)] Thrown; StepLocalEdit S 4%nat]
     = heard_edits false
         [StepLocalEdit (A := nat) S 1%nat; StepEvent (OriginRemote 7) [(S, 2%nat)] Returned].
Proof.
  destruct (flush_sends_the_local_edits_as_one_transaction
              [StepLocalEdit S 1%nat; StepEvent (OriginRemote 7) [(S, 2%nat)] Returned;
               StepEvent OriginManager [(S, 3%nat)] Thrown; StepLocalEdit S 4%nat]
              (mkWorld false [] Idle [] 0%nat) eq_refl eq_refl)
    as (_ & Hflush & _ & Hlost).
  split.
  - apply Hflush. discriminate.
  - apply (Hlost [StepLocalEdit S 1%nat; StepEvent (OriginRemote 7) [(S, 2%nat)] Returned]
             OriginManager [(S, 3%nat)] [(S, 4%nat)]); [reflexivity|discriminate].
Defined.

(** ** 22. The timeline component *)

Lemma first_type_listed (attribute : string) (types : list string) k :
  first_type attribute types = Some k -> k ∈ types.
Proof.
  induction types as [|t rest IH]; cbn; [discriminate|].
  destruct (classList_contains attribute ("tb-timeline-item-" +:+ t)).
  - intros [= <-]. left.
  - intros Hrest. right. apply IH. exact Hrest.
Qed.

(** X25.  The type of a timeline item survives rendering and reading
    back: for each of the listed types the loader reads from the
    rendered class attribute the type the item was rendered with; an
    item without a type is read as ['primary']; and whatever class
    attribute the loader meets, the type it reads is a listed one. *)
Theorem timeline_type_is_read_back_as_rendered :
  (forall type, type ∈ timelineTypes -> read_type (class_attribute (Some type)) = type)
  /\ read_type (class_attribute None) = "primary"
  /\ (forall attribute, read_type attribute ∈ timelineTypes).
Proof.
  split; [|split].
  - intros type Hin. unfold timelineTypes in Hin.
    repeat (apply elem_of_cons in Hin as [->|Hin]; [vm_compute; reflexivity|]).
    apply not_elem_of_nil in Hin. contradiction.
  - vm_compute. reflexivity.
  - intros attribute. unfold read_type.
    destruct (first_type attribute timelineTypes) as [k|] eqn:Hfirst; cbn [default].
    + apply first_type_listed in Hfirst. exact Hfirst.
    + left.
Qed.

Lemma timeline_type_is_read_back_as_rendered_witness :
  read_type (class_attribute (Some "warning")) = "warning".
Proof.
  apply (proj1 timeline_type_is_read_back_as_rendered "warning").
  do 3 right. left.
Defined.

(** X26.  A click on the icon moves an item to the type listed after
    its own; after the last listed type the item has no type, an item
    without a type gets the first listed one, and so does an item
    whose type is not listed: eight clicks lead from no type through
    every listed type back to no type. *)
Theorem timeline_click_cycles_through_the_types :
  (forall n type, timelineTypes !! n = Some type ->
                  next_type (Some type) = timelineTypes !! Datatypes.S n)
  /\ next_type None = Some "primary"
  /\ (forall type, type ∉ timelineTypes -> next_type (Some type) = Some "primary")
  /\ Nat.iter 8 next_type None = None.
Proof.
  split; [|split; [|split]].
  - intros n type Hn.
    do 7 (destruct n as [|n]; [injection Hn as <-; vm_compute; reflexivity|]).
    discriminate.
  - reflexivity.
  - intros type Hout. unfold next_type.
    assert (Hindex : forall l, type ∉ l -> indexOf type l = -1).
    { induction l as [|y l IH]; [reflexivity|]. intros Hl.
      apply not_elem_of_cons in Hl as [Hne Hl]. cbn [indexOf].
      destruct (decide (type = y)); [contradiction|]. rewrite IH by exact Hl. reflexivity. }
    rewrite Hindex by exact Hout. cbn.
    destruct (String.length type =? 0)%nat; reflexivity.
  - vm_compute. reflexivity.
Qed.

Lemma timeline_click_cycles_through_the_types_witness :
  next_type (Some "dark") = Some "gray"
  /\ next_type (Some "gray") = None
  /\ next_type (Some "purple") = Some "primary".
Proof.
  destruct timeline_click_cycles_through_the_types as (Hnext & _ & Hother & _).
  split; [apply (Hnext 5%nat "dark"); reflexivity|].
  split; [apply (Hnext 6%nat "gray"); reflexivity|].
  apply (Hother "purple"). unfold timelineTypes. intros Hin.
  repeat (apply elem_of_cons in Hin as [Heq|Hin]; [discriminate Heq|]).
  apply not_elem_of_nil in Hin. exact Hin.
Defined.
